(** * Render-graph node kernel, array utilities and outliner warnings

    A shallow embedding of

    - [source/blender/gpu/vulkan/render_graph/nodes/vk_node_info.hh]
      (node types, their textual rendering, the rendering-scope predicates
      and the [VKNodeInfo] contract),
    - the generic array manipulation API ([_bli_array_reverse],
      [_bli_array_findindex], [_bli_array_rfindindex]),
    - [TreeElementIDLibrary::get_warning] of the outliner,

    together with the properties the specification states about them. *)

From Stdlib Require Import ZArith Lia Bool.
From stdpp Require Import base decidable option list numbers strings gmap.

(** ** Node types *)

Module NodeType.

(** [enum class VKNodeType], tags in declaration order. *)
Inductive VKNodeType : Set :=
| UNUSED
| BEGIN_QUERY
| BEGIN_RENDERING
| BLIT_IMAGE
| CLEAR_ATTACHMENTS
| CLEAR_COLOR_IMAGE
| CLEAR_DEPTH_STENCIL_IMAGE
| COPY_BUFFER
| COPY_IMAGE
| COPY_IMAGE_TO_BUFFER
| COPY_BUFFER_TO_IMAGE
| DISPATCH
| DISPATCH_INDIRECT
| DRAW
| DRAW_INDEXED
| DRAW_INDEXED_INDIRECT
| DRAW_INDIRECT
| END_QUERY
| END_RENDERING
| FILL_BUFFER
| RESET_QUERY_POOL
| SYNCHRONIZATION
| UPDATE_BUFFER
| UPDATE_MIPMAPS.

(** Every tag of the enumeration, in declaration order. *)
Definition all_node_types : list VKNodeType :=
  [ UNUSED; BEGIN_QUERY; BEGIN_RENDERING; BLIT_IMAGE; CLEAR_ATTACHMENTS;
    CLEAR_COLOR_IMAGE; CLEAR_DEPTH_STENCIL_IMAGE; COPY_BUFFER; COPY_IMAGE;
    COPY_IMAGE_TO_BUFFER; COPY_BUFFER_TO_IMAGE; DISPATCH; DISPATCH_INDIRECT;
    DRAW; DRAW_INDEXED; DRAW_INDEXED_INDIRECT; DRAW_INDIRECT; END_QUERY;
    END_RENDERING; FILL_BUFFER; RESET_QUERY_POOL; SYNCHRONIZATION;
    UPDATE_BUFFER; UPDATE_MIPMAPS ].

(** The enumerator values the compiler assigns (no explicit initialisers:
    0, 1, 2, ... in declaration order). *)
Definition enum_value (t : VKNodeType) : Z :=
  match t with
  | UNUSED => 0 | BEGIN_QUERY => 1 | BEGIN_RENDERING => 2 | BLIT_IMAGE => 3
  | CLEAR_ATTACHMENTS => 4 | CLEAR_COLOR_IMAGE => 5
  | CLEAR_DEPTH_STENCIL_IMAGE => 6 | COPY_BUFFER => 7 | COPY_IMAGE => 8
  | COPY_IMAGE_TO_BUFFER => 9 | COPY_BUFFER_TO_IMAGE => 10 | DISPATCH => 11
  | DISPATCH_INDIRECT => 12 | DRAW => 13 | DRAW_INDEXED => 14
  | DRAW_INDEXED_INDIRECT => 15 | DRAW_INDIRECT => 16 | END_QUERY => 17
  | END_RENDERING => 18 | FILL_BUFFER => 19 | RESET_QUERY_POOL => 20
  | SYNCHRONIZATION => 21 | UPDATE_BUFFER => 22 | UPDATE_MIPMAPS => 23
  end%Z.

(** [==] on the enumeration compares the enumerator values. *)
Definition node_type_eqb (a b : VKNodeType) : bool :=
  (enum_value a =? enum_value b)%Z.

(** The [case] labels of the [switch] in [operator<<], in source order, each
    with the text its branch writes to the stream.  The [switch] has no
    [default:] label: a value that matches no label writes nothing. *)
Definition operator_lshift_cases : list (VKNodeType * string) :=
  [ (UNUSED, "UNUSED");
    (BEGIN_QUERY, "BEGIN_QUERY");
    (BEGIN_RENDERING, "BEGIN_RENDERING");
    (END_QUERY, "END_QUERY");
    (END_RENDERING, "END_RENDERING");
    (CLEAR_ATTACHMENTS, "CLEAR_ATTACHMENTS");
    (CLEAR_COLOR_IMAGE, "CLEAR_COLOR_IMAGE");
    (CLEAR_DEPTH_STENCIL_IMAGE, "CLEAR_DEPTH_STENCIL_IMAGE");
    (FILL_BUFFER, "FILL_BUFFER");
    (COPY_BUFFER, "COPY_BUFFER");
    (COPY_IMAGE, "COPY_IMAGE");
    (COPY_IMAGE_TO_BUFFER, "COPY_IMAGE_TO_BUFFER");
    (COPY_BUFFER_TO_IMAGE, "COPY_BUFFER_TO_IMAGE");
    (BLIT_IMAGE, "BLIT_IMAGE");
    (DISPATCH, "DISPATCH");
    (DISPATCH_INDIRECT, "DISPATCH_INDIRECT");
    (DRAW, "DRAW");
    (DRAW_INDEXED, "DRAW_INDEXED");
    (DRAW_INDEXED_INDIRECT, "DRAW_INDEXED_INDIRECT");
    (DRAW_INDIRECT, "DRAW_INDIRECT");
    (RESET_QUERY_POOL, "RESET_QUERY_POOL");
    (SYNCHRONIZATION, "SYNCHRONIZATION");
    (UPDATE_BUFFER, "UPDATE_BUFFER");
    (UPDATE_MIPMAPS, "UPDATE_MIPMAPS") ]%string.

(** Selecting the branch of a [switch]: the first label equal to the
    scrutinee, if there is one. *)
Fixpoint switch_select (cases : list (VKNodeType * string))
    (node_type : VKNodeType) : option string :=
  match cases with
  | [] => None
  | (label, text) :: rest =>
      if node_type_eqb node_type label then Some text
      else switch_select rest node_type
  end.

(** [std::ostream &operator<<(std::ostream &os, const VKNodeType node_type)]:
    the stream is the text written so far. *)
Definition operator_lshift (os : string) (node_type : VKNodeType) : string :=
  match switch_select operator_lshift_cases node_type with
  | Some text => (os +:+ text)%string
  | None => os
  end.

(** The name [operator<<] renders for a tag on an empty stream. *)
Definition node_type_name (node_type : VKNodeType) : string :=
  operator_lshift "" node_type.

(** [ELEM(v, a, b, ...)] of [BLI_utildefines.h] (a header outside the
    sources covered here):
    [v == a || v == b || ...]. *)
Definition ELEM (v : VKNodeType) (candidates : list VKNodeType) : bool :=
  existsb (node_type_eqb v) candidates.

Definition node_type_is_within_rendering (node_type : VKNodeType) : bool :=
  ELEM node_type
    [CLEAR_ATTACHMENTS; DRAW; DRAW_INDEXED; DRAW_INDEXED_INDIRECT; DRAW_INDIRECT].

Definition node_type_is_rendering (node_type : VKNodeType) : bool :=
  ELEM node_type [BEGIN_RENDERING; END_RENDERING]
  || node_type_is_within_rendering node_type.

(** *** Facts about the enumeration *)

Lemma enum_value_inj (a b : VKNodeType) : enum_value a = enum_value b -> a = b.
Proof. destruct a; destruct b; simpl; intros H; first [reflexivity | discriminate H]. Qed.

Lemma node_type_eqb_eq (a b : VKNodeType) : node_type_eqb a b = true <-> a = b.
Proof.
  unfold node_type_eqb. rewrite Z.eqb_eq. split.
  - apply enum_value_inj.
  - intros ->. reflexivity.
Qed.

Lemma all_node_types_complete (t : VKNodeType) : In t all_node_types.
Proof. destruct t; simpl; tauto. Qed.

Lemma ELEM_In (v : VKNodeType) (l : list VKNodeType) : ELEM v l = true <-> In v l.
Proof.
  unfold ELEM. rewrite existsb_exists. split.
  - intros [x [Hin Heq]]. apply node_type_eqb_eq in Heq. subst. exact Hin.
  - intros Hin. exists v. split; [exact Hin | apply node_type_eqb_eq; reflexivity].
Qed.

(** C3: [node_type_is_within_rendering] holds exactly for CLEAR_ATTACHMENTS,
    DRAW, DRAW_INDEXED, DRAW_INDEXED_INDIRECT and DRAW_INDIRECT, and is false
    for every other tag of the enumeration. *)
Theorem node_type_is_within_rendering_spec (T : VKNodeType) :
  node_type_is_within_rendering T = true <->
  (T = CLEAR_ATTACHMENTS \/ T = DRAW \/ T = DRAW_INDEXED \/
   T = DRAW_INDEXED_INDIRECT \/ T = DRAW_INDIRECT).
Proof.
  unfold node_type_is_within_rendering. rewrite ELEM_In. simpl.
  intuition congruence.
Qed.

(** C4: [node_type_is_rendering] holds exactly when the tag is
    BEGIN_RENDERING, END_RENDERING, or satisfies
    [node_type_is_within_rendering]. *)
Theorem node_type_is_rendering_spec (T : VKNodeType) :
  node_type_is_rendering T = true <->
  (T = BEGIN_RENDERING \/ T = END_RENDERING \/
   node_type_is_within_rendering T = true).
Proof.
  unfold node_type_is_rendering. rewrite orb_true_iff, ELEM_In. simpl.
  intuition congruence.
Qed.

End NodeType.

(** ** Textual rendering of node types *)

Module NodeTypeName.
Import NodeType.

Lemma switch_select_cases (t : VKNodeType) :
  exists name : string,
    switch_select operator_lshift_cases t = Some name /\ name <> ""%string.
Proof. destruct t; eexists; (split; [reflexivity | discriminate]). Qed.

Lemma node_type_name_inj (t1 t2 : VKNodeType) :
  node_type_name t1 = node_type_name t2 -> t1 = t2.
Proof.
  destruct t1; destruct t2; intros H; first [reflexivity | discriminate H].
Qed.

(** C7: the textual rendering [operator<<] is exhaustive over the
    enumeration: every tag, UNUSED included, reaches a [case] label and has a
    non-empty name appended to the stream; and the rendering is injective:
    distinct tags get distinct names. *)
Theorem operator_lshift_exhaustive_injective :
  (forall t : VKNodeType,
      exists name : string,
        switch_select operator_lshift_cases t = Some name /\
        name <> ""%string /\
        forall os : string, operator_lshift os t = (os +:+ name)%string) /\
  (forall t1 t2 : VKNodeType,
      operator_lshift "" t1 = operator_lshift "" t2 -> t1 = t2) /\
  NoDup (map fst operator_lshift_cases) /\
  length operator_lshift_cases = length all_node_types.
Proof.
  split; [| split; [| split]].
  - intros t. destruct (switch_select_cases t) as [name [Hsel Hne]].
    exists name. split; [exact Hsel | split; [exact Hne |]].
    intros os. unfold operator_lshift. rewrite Hsel. reflexivity.
  - exact node_type_name_inj.
  - apply NoDup_ListNoDup. simpl.
    repeat (apply List.NoDup_cons; 
      [cbn; intros Hin; decompose [or] Hin; try discriminate; contradiction |]).
    apply List.NoDup_nil.
  - reflexivity.
Qed.

End NodeTypeName.

(** ** Resource state tracker, link tables and node descriptors

    [vk_node_info.hh] declares the [VKNodeInfo] contract only:
    [build_links] is pure virtual, [set_node_data] is declared and not
    defined, and [vk_resource_state_tracker.hh], [vk_render_graph_links.hh]
    and the per-command descriptors are outside the sources covered here.
    Their behaviour is modelled from the specification. *)

Module RenderGraph.
Import NodeType.

(** Opaque resource identifier, supplied by the resource-management
    collaborator. *)
Abbreviation ResourceHandle := N (only parsing).
(** [VkPipelineStageFlags], [VkAccessFlags]: 32-bit flag words;
    [VkImageLayout]: an enumerator value. *)
Abbreviation VkPipelineStageFlags := N (only parsing).
Abbreviation VkAccessFlags := N (only parsing).
Abbreviation VkImageLayout := N (only parsing).

(** Modelled from the spec: the resource category of a dependency link
    (buffer / image / other); [VKResourceType] itself is declared in a header
    outside the sources covered here. *)
Inductive VKResourceType : Set := BUFFER_RESOURCE | IMAGE_RESOURCE | OTHER_RESOURCE.

#[global] Instance VKResourceType_eq_dec : EqDecision VKResourceType.
Proof. solve_decision. Defined.

Definition VKResourceType_to_nat (c : VKResourceType) : nat :=
  match c with BUFFER_RESOURCE => 0 | IMAGE_RESOURCE => 1 | OTHER_RESOURCE => 2 end.

Definition VKResourceType_of_nat (n : nat) : VKResourceType :=
  match n with 0 => BUFFER_RESOURCE | 1 => IMAGE_RESOURCE | _ => OTHER_RESOURCE end.

#[global] Instance VKResourceType_countable : Countable VKResourceType.
Proof.
  refine (inj_countable' VKResourceType_to_nat VKResourceType_of_nat _).
  intros []; reflexivity.
Defined.

(** Modelled from the spec: the access kind of a dependency link. *)
Inductive AccessKind : Set := READ_ACCESS | WRITE_ACCESS.

(** Modelled from the spec: a Resource State Entry, the last known access
    of a resource: pipeline stage(s), access mask and, for images, the
    layout. *)
Record ResourceState : Set := mkResourceState {
  state_stage : VkPipelineStageFlags;
  state_access : VkAccessFlags;
  state_layout : option VkImageLayout
}.

(** Modelled from the spec: a Dependency Link
    (resource id, access kind, resource category). *)
Record Link : Set := mkLink {
  link_resource : ResourceHandle;
  link_kind : AccessKind;
  link_category : VKResourceType
}.

(** Modelled from the spec: one resource access a create-info declares: the
    link it yields together with the access mask and, for images, the layout
    the command uses the resource in. *)
Record DeclaredAccess : Set := mkDeclaredAccess {
  access_resource : ResourceHandle;
  access_kind : AccessKind;
  access_category : VKResourceType;
  access_mask : VkAccessFlags;
  access_layout : option VkImageLayout
}.

(** Modelled from the spec: the Resource State Tracker ([VKResourceStateTracker],
    whose header is outside the sources covered here), a registry from resource handle
    to its last known access. *)
Abbreviation VKResourceStateTracker := (gmap N ResourceState) (only parsing).

(** Modelled from the spec: [record_access(resource_id, stage, access, [layout])]
    of the tracker (outside the sources covered here): updates or inserts the entry and
    returns the previous entry, [None] on first access. *)
Definition record_access (resources : VKResourceStateTracker)
    (resource_id : ResourceHandle) (stage : VkPipelineStageFlags)
    (access : VkAccessFlags) (layout : option VkImageLayout)
  : option ResourceState * VKResourceStateTracker :=
  (resources !! resource_id,
   <[resource_id := mkResourceState stage access layout]> resources).

(** Modelled from the spec: [current_state(resource_id)] of the tracker
    (outside the sources covered here), the non-mutating query. *)
Definition current_state (resources : VKResourceStateTracker)
    (resource_id : ResourceHandle) : option ResourceState :=
  resources !! resource_id.

(** Modelled from the spec: the Dependency Link Table
    ([VKRenderGraphNodeLinks], outside the sources covered here): append-only,
    no deduplication. *)
Abbreviation VKRenderGraphNodeLinks := (list Link) (only parsing).

Definition add_link (node_links : VKRenderGraphNodeLinks) (resource_id : ResourceHandle)
    (kind : AccessKind) (category : VKResourceType) : VKRenderGraphNodeLinks :=
  node_links ++ [mkLink resource_id kind category].

(** Outcome of an operation that may trip an assertion: construction-time
    programming errors are fatal, not recoverable results. *)
Inductive Checked (A : Type) : Type :=
| Done (a : A)
| AssertionFailure.
Arguments Done {A} a.
Arguments AssertionFailure {A}.

Definition checked_bind {A B : Type} (c : Checked A) (k : A -> Checked B) : Checked B :=
  match c with
  | Done a => k a
  | AssertionFailure => AssertionFailure
  end.

#[global] Instance Checked_bind : MBind Checked :=
  fun A B k c => checked_bind c k.
#[global] Instance Checked_ret : MRet Checked := fun A a => Done a.

(** The state one link extraction threads: the tracker and the node's
    link table. *)
Definition LinkState : Type := gmap N ResourceState * list Link.

(** The state entry a node running at [stage] establishes with a declared
    access. *)
Definition state_of_access (stage : VkPipelineStageFlags) (a : DeclaredAccess)
  : ResourceState :=
  mkResourceState stage (access_mask a) (access_layout a).

(** Modelled from the spec: recording one declared access during link
    extraction (the bodies of [build_links] are outside the sources covered
    here).
    A category outside the descriptor's declared set is a construction-time
    programming error; otherwise the access becomes a link of the node and
    the tracker entry of the resource is updated to this node's access. *)
Definition extract_link (stage : VkPipelineStageFlags)
    (resource_usages : gset VKResourceType) (st : LinkState) (a : DeclaredAccess)
  : Checked LinkState :=
  if decide (access_category a ∈ resource_usages) then
    let '(_, resources) :=
      record_access (fst st) (access_resource a) stage (access_mask a) (access_layout a) in
    Done (resources,
          add_link (snd st) (access_resource a) (access_kind a) (access_category a))
  else AssertionFailure.

(** Modelled from the spec: the Extract links operation over every resource
    the command reads or writes, in declaration order. *)
Fixpoint extract_links (stage : VkPipelineStageFlags)
    (resource_usages : gset VKResourceType) (st : LinkState)
    (accesses : list DeclaredAccess) : Checked LinkState :=
  match accesses with
  | [] => Done st
  | a :: rest =>
      st' ← extract_link stage resource_usages st a;
      extract_links stage resource_usages st' rest
  end.

(** [template<VKNodeType NodeType, typename NodeCreateInfo, typename NodeData,
    VkPipelineStageFlags PipelineStage, VKResourceType ResourceUsages>
    class VKNodeInfo]. *)
Section VKNodeInfo.

Variable NodeType : VKNodeType.
Variable NodeCreateInfo : Type.
Variable NodeData : Type.
Variable PipelineStage : VkPipelineStageFlags.
Variable ResourceUsages : gset VKResourceType.

(** What each concrete descriptor supplies (none is among the sources
    covered here): the resources a create-info reads or writes. *)
Variable declared_accesses : NodeCreateInfo -> list DeclaredAccess.

Definition node_type : VKNodeType := NodeType.
Definition pipeline_stage : VkPipelineStageFlags := PipelineStage.
Definition resource_usages : gset VKResourceType := ResourceUsages.

(** [set_node_data(node, storage, create_info)] is declared in
    [vk_node_info.hh] and defined per node type outside the sources covered
    here; it is not modelled. *)

(** Modelled from the spec: [build_links(resources, node_links, create_info)]
    (pure virtual in [vk_node_info.hh]). *)
Definition build_links (resources : VKResourceStateTracker)
    (node_links : VKRenderGraphNodeLinks) (create_info : NodeCreateInfo)
  : Checked LinkState :=
  extract_links pipeline_stage resource_usages (resources, node_links)
    (declared_accesses create_info).

End VKNodeInfo.

(** The link an access yields. *)
Definition link_of_access (a : DeclaredAccess) : Link :=
  mkLink (access_resource a) (access_kind a) (access_category a).

(** The last access to [resource_id] among the accesses a call declares,
    [None] when the call does not touch the resource. *)
Definition last_access (resource_id : ResourceHandle) (accesses : list DeclaredAccess)
  : option DeclaredAccess :=
  last (filter (fun a => access_resource a = resource_id) accesses).

(** *** Link extraction *)

Lemma last_access_cons (r : ResourceHandle) (a : DeclaredAccess) (rest : list DeclaredAccess) :
  last_access r (a :: rest) =
  match last_access r rest with
  | Some b => Some b
  | None => if decide (access_resource a = r) then Some a else None
  end.
Proof.
  unfold last_access. rewrite filter_cons.
  destruct (decide (access_resource a = r)) as [Heq | Hne].
  - destruct (filter _ rest) as [| b l] eqn:Hf; [reflexivity |].
    rewrite last_cons. destruct (last (b :: l)) eqn:Hl; [reflexivity |].
    apply last_None in Hl. discriminate Hl.
  - destruct (last _); reflexivity.
Qed.

Lemma extract_link_Done (stage : VkPipelineStageFlags) (S : gset VKResourceType)
    (st st' : LinkState) (a : DeclaredAccess) :
  extract_link stage S st a = Done st' ->
  access_category a ∈ S /\
  st'.1 = <[access_resource a := state_of_access stage a]> st.1 /\
  st'.2 = st.2 ++ [link_of_access a].
Proof.
  unfold extract_link, record_access, add_link.
  destruct (decide (access_category a ∈ S)) as [Hin | Hout]; [| discriminate].
  intros H. injection H as <-. simpl. auto.
Qed.

Lemma extract_links_Done (stage : VkPipelineStageFlags) (S : gset VKResourceType)
    (accesses : list DeclaredAccess) :
  forall st st' : LinkState,
    extract_links stage S st accesses = Done st' ->
    Forall (fun a => access_category a ∈ S) accesses /\
    st'.2 = st.2 ++ map link_of_access accesses /\
    forall r : ResourceHandle,
      st'.1 !! r =
      match last_access r accesses with
      | Some a => Some (state_of_access stage a)
      | None => st.1 !! r
      end.
Proof.
  induction accesses as [| a rest IH]; intros st st' H; simpl in H.
  - injection H as <-. split; [constructor |]. split.
    + simpl. rewrite app_nil_r. reflexivity.
    + intros r. reflexivity.
  - destruct (extract_link stage S st a) as [st1 |] eqn:Hstep; [| discriminate H].
    apply extract_link_Done in Hstep as (Hin & Hres & Hlinks).
    cbn in H. apply IH in H as (Hall & Hl & Hr).
    split; [constructor; assumption |]. split.
    + rewrite Hl, Hlinks. simpl. rewrite <- app_assoc. reflexivity.
    + intros r. rewrite Hr, last_access_cons.
      destruct (last_access r rest) as [b |]; [reflexivity |].
      rewrite Hres.
      destruct (decide (access_resource a = r)) as [<- | Hne].
      * apply lookup_insert_eq.
      * apply lookup_insert_ne. exact Hne.
Qed.

(** Link extraction trips no assertion exactly when every declared access
    stays within the declared categories. *)
Lemma extract_links_total (stage : VkPipelineStageFlags) (S : gset VKResourceType)
    (accesses : list DeclaredAccess) :
  forall st : LinkState,
    Forall (fun a => access_category a ∈ S) accesses ->
    exists st' : LinkState, extract_links stage S st accesses = Done st'.
Proof.
  induction accesses as [| a rest IH]; intros st Hall; simpl.
  - eexists. reflexivity.
  - inversion Hall as [| ? ? Ha Hrest]; subst.
    unfold extract_link at 1.
    destruct (decide (access_category a ∈ S)) as [_ | Hout]; [| contradiction].
    cbn. apply IH. exact Hrest.
Qed.

(** C1: last-writer-wins in extraction order.  For two link-extraction
    calls run one after the other that both touch a resource, the tracker
    entry of the resource after the second call is exactly the access the
    second call declared (its pipeline stage, access mask and layout),
    whatever the first call declared and whatever the tracker held before. *)
Theorem build_links_last_writer_wins
    (CreateInfo1 CreateInfo2 : Type)
    (stage1 stage2 : VkPipelineStageFlags) (usages1 usages2 : gset VKResourceType)
    (declared1 : CreateInfo1 -> list DeclaredAccess)
    (declared2 : CreateInfo2 -> list DeclaredAccess)
    (resources0 resources1 resources2 : gmap N ResourceState)
    (links1 links1' links2 links2' : list Link)
    (create_info1 : CreateInfo1) (create_info2 : CreateInfo2)
    (resource_id : ResourceHandle) (a1 a2 : DeclaredAccess) :
  build_links CreateInfo1 stage1 usages1 declared1 resources0 links1 create_info1
    = Done (resources1, links1') ->
  build_links CreateInfo2 stage2 usages2 declared2 resources1 links2 create_info2
    = Done (resources2, links2') ->
  last_access resource_id (declared1 create_info1) = Some a1 ->
  last_access resource_id (declared2 create_info2) = Some a2 ->
  current_state resources2 resource_id
    = Some (mkResourceState stage2 (access_mask a2) (access_layout a2)).
Proof.
  intros _ H2 _ Ha2. unfold build_links, pipeline_stage, resource_usages in H2.
  apply extract_links_Done in H2 as (_ & _ & Hr).
  unfold current_state. specialize (Hr resource_id). simpl in Hr.
  rewrite Hr, Ha2. reflexivity.
Qed.

(** C5: every dependency link a descriptor's link extraction records has a
    resource category of the descriptor's declared set [resource_usages]. *)
Theorem build_links_categories_declared
    (CreateInfo : Type) (stage : VkPipelineStageFlags)
    (usages : gset VKResourceType) (declared : CreateInfo -> list DeclaredAccess)
    (resources resources' : gmap N ResourceState) (node_links node_links' : list Link)
    (create_info : CreateInfo) :
  build_links CreateInfo stage usages declared resources node_links create_info
    = Done (resources', node_links') ->
  exists recorded : list Link,
    node_links' = node_links ++ recorded /\
    Forall (fun l => link_category l ∈ resource_usages usages) recorded.
Proof.
  intros H. unfold build_links, pipeline_stage in H.
  apply extract_links_Done in H as (Hall & Hlinks & _). simpl in Hlinks.
  exists (map link_of_access (declared create_info)). split; [exact Hlinks |].
  apply Forall_map. exact Hall.
Qed.

(** Scenario A of the specification: a COPY_BUFFER node reading [R1 = 1]
    and writing [R2 = 2] at the transfer stage; then a compute dispatch
    reading [R2]. *)
Definition copy_buffer_accesses (regions : unit) : list DeclaredAccess :=
  [ mkDeclaredAccess 1 READ_ACCESS BUFFER_RESOURCE 2048 None;
    mkDeclaredAccess 2 WRITE_ACCESS BUFFER_RESOURCE 4096 None ].

Definition dispatch_accesses (dispatch : unit) : list DeclaredAccess :=
  [ mkDeclaredAccess 2 READ_ACCESS BUFFER_RESOURCE 32 None ].

Lemma build_links_last_writer_wins_witness :
  current_state
    (<[2%N := mkResourceState 2048 32 None]>
       (<[2%N := mkResourceState 4096 4096 None]>
          (<[1%N := mkResourceState 4096 2048 None]> ∅)))
    2
  = Some (mkResourceState 2048 32 None).
Proof.
  apply (build_links_last_writer_wins unit unit 4096 2048
           {[BUFFER_RESOURCE]} {[BUFFER_RESOURCE]}
           copy_buffer_accesses dispatch_accesses
           ∅
           (<[2%N := mkResourceState 4096 4096 None]>
              (<[1%N := mkResourceState 4096 2048 None]> ∅))
           _
           []
           [mkLink 1 READ_ACCESS BUFFER_RESOURCE; mkLink 2 WRITE_ACCESS BUFFER_RESOURCE]
           [] [mkLink 2 READ_ACCESS BUFFER_RESOURCE]
           tt tt 2
           (mkDeclaredAccess 2 WRITE_ACCESS BUFFER_RESOURCE 4096 None)
           (mkDeclaredAccess 2 READ_ACCESS BUFFER_RESOURCE 32 None));
    reflexivity.
Defined.

Lemma build_links_categories_declared_witness :
  exists recorded : list Link,
    [mkLink 1 READ_ACCESS BUFFER_RESOURCE; mkLink 2 WRITE_ACCESS BUFFER_RESOURCE]
      = [] ++ recorded /\
    Forall (fun l => link_category l ∈ resource_usages {[BUFFER_RESOURCE]})
      recorded.
Proof.
  apply (build_links_categories_declared unit 4096 {[BUFFER_RESOURCE]}
           copy_buffer_accesses ∅
           (<[2%N := mkResourceState 4096 4096 None]>
              (<[1%N := mkResourceState 4096 2048 None]> ∅))
           []
           [mkLink 1 READ_ACCESS BUFFER_RESOURCE; mkLink 2 WRITE_ACCESS BUFFER_RESOURCE]
           tt).
  reflexivity.
Defined.

End RenderGraph.

(** ** Rendering-scope state machine *)

Module RenderingScope.
Import NodeType.

(** Modelled from the spec: the two states of the rendering-scope state
    machine (the command builder that tracks them is outside the sources
    covered here). *)
Inductive ScopeState : Set := OUTSIDE_RENDERING | INSIDE_RENDERING.

(** Outcome of emitting a node: the state the machine moves to, or a fatal
    ordering violation, after which nothing is emitted. *)
Inductive Emission : Set :=
| Emitted (s : ScopeState)
| FatalOrderingViolation.

Section Machine.

(** The specification is silent on a begin-rendering node while inside, an
    end-rendering node while outside, and a node that is neither a boundary
    nor within rendering while inside: the machine is parameterised by what
    happens there. *)
Variable unspecified : ScopeState -> VKNodeType -> Emission.

(** Modelled from the spec: emitting one node.  Begin-rendering moves
    outside to inside, end-rendering inside to outside; a within-rendering
    node is only valid while inside. *)
Definition emit_node (s : ScopeState) (node_type : VKNodeType) : Emission :=
  if node_type_eqb node_type BEGIN_RENDERING then
    match s with
    | OUTSIDE_RENDERING => Emitted INSIDE_RENDERING
    | INSIDE_RENDERING => unspecified s node_type
    end
  else if node_type_eqb node_type END_RENDERING then
    match s with
    | INSIDE_RENDERING => Emitted OUTSIDE_RENDERING
    | OUTSIDE_RENDERING => unspecified s node_type
    end
  else if node_type_is_within_rendering node_type then
    match s with
    | INSIDE_RENDERING => Emitted INSIDE_RENDERING
    | OUTSIDE_RENDERING => FatalOrderingViolation
    end
  else
    match s with
    | OUTSIDE_RENDERING => Emitted OUTSIDE_RENDERING
    | INSIDE_RENDERING => unspecified s node_type
    end.

(** Emitting a node sequence in order; a fatal violation aborts. *)
Fixpoint emit_nodes (s : ScopeState) (nodes : list VKNodeType) : Emission :=
  match nodes with
  | [] => Emitted s
  | node_type :: rest =>
      match emit_node s node_type with
      | Emitted s' => emit_nodes s' rest
      | FatalOrderingViolation => FatalOrderingViolation
      end
  end.

Lemma emit_nodes_app (nodes1 nodes2 : list VKNodeType) :
  forall s : ScopeState,
    emit_nodes s (nodes1 ++ nodes2) =
    match emit_nodes s nodes1 with
    | Emitted s' => emit_nodes s' nodes2
    | FatalOrderingViolation => FatalOrderingViolation
    end.
Proof.
  induction nodes1 as [| n rest IH]; intros s; simpl; [reflexivity |].
  destruct (emit_node s n) as [s' |]; [apply IH | reflexivity].
Qed.

Lemma emit_within_outside (node_type : VKNodeType) :
  node_type_is_within_rendering node_type = true ->
  emit_node OUTSIDE_RENDERING node_type = FatalOrderingViolation.
Proof.
  intros Hw. unfold emit_node.
  destruct node_type; first [discriminate Hw | reflexivity].
Qed.


End Machine.

End RenderingScope.

(** ** Generic array manipulation API *)

Module ArrayUtils.
Import Stdlib.Init.Byte.
#[local] Open Scope Z_scope.

(** The bytes a [char *] points into, addressed by the byte offset from
    the pointer. *)
Definition block : Type := Z -> byte.

(** [uint] and [int] are 32 bits wide, [size_t] 64 bits. *)
Definition uint_modulus : Z := 2 ^ 32.
Definition size_t_modulus : Z := 2 ^ 64.

(** Conversion to [uint] and arithmetic in [uint]: modulo 2^32. *)
Definition to_uint (z : Z) : Z := z mod uint_modulus.
(** Arithmetic in [size_t]: modulo 2^64. *)
Definition to_size_t (z : Z) : Z := z mod size_t_modulus.
(** [int(i)] on a [uint]: the value congruent modulo 2^32 in
    [-2^31, 2^31). *)
Definition to_int (z : Z) : Z := (z + 2 ^ 31) mod uint_modulus - 2 ^ 31.

(** A byte read as [unsigned char]. *)
Definition byte_value (b : byte) : Z := Z.of_N (Byte.to_N b).

(** [memcmp(a + a_ofs, b + b_ofs, n)]: the difference of the first pair of
    differing bytes, read as [unsigned char]; 0 when the [n] bytes agree. *)
Fixpoint memcmp_bytes (n : nat) (a : block) (a_ofs : Z) (b : block) (b_ofs : Z) : Z :=
  match n with
  | O => 0
  | S n' =>
      if byte_value (a a_ofs) =? byte_value (b b_ofs)
      then memcmp_bytes n' a (a_ofs + 1) b (b_ofs + 1)
      else byte_value (a a_ofs) - byte_value (b b_ofs)
  end.

Definition memcmp (a : block) (a_ofs : Z) (b : block) (b_ofs : Z) (n : Z) : Z :=
  memcmp_bytes (Z.to_nat n) a a_ofs b b_ofs.

(** [memcpy(dst + dst_ofs, src + src_ofs, n)]: the destination block after
    the copy.  The source is read as it was before the call (the regions the
    callers below pass never overlap partially). *)
Definition memcpy (dst : block) (dst_ofs : Z) (src : block) (src_ofs : Z) (n : Z) : block :=
  fun a =>
    if (dst_ofs <=? a) && (a <? dst_ofs + n)
    then src (src_ofs + (a - dst_ofs))
    else dst a.

(** The buffer [BLI_array_alloca] returns: its contents are indeterminate
    and never read before they are written. *)
Definition alloca_buffer : block := fun _ => x00.

(** The [for] loop of [_bli_array_reverse]; [None] when the fuel runs out
    with the loop condition still true. *)
Fixpoint reverse_loop (fuel : nat) (arr_stride arr_stride_uint arr_half_stride : Z)
    (arr buf : block) (i i_end : Z) : option block :=
  if i <? arr_half_stride then
    match fuel with
    | O => None
    | S fuel' =>
        let buf := memcpy buf 0 arr i arr_stride in
        let arr := memcpy arr i arr i_end arr_stride in
        let arr := memcpy arr i_end buf 0 arr_stride in
        reverse_loop fuel' arr_stride arr_stride_uint arr_half_stride arr buf
          (to_uint (i + arr_stride_uint)) (to_uint (i_end - arr_stride_uint))
    end
  else Some arr.

(** [void _bli_array_reverse(void *arr_v, uint arr_len, size_t arr_stride)]:
    the contents of [arr_v] after the call. *)
Definition _bli_array_reverse (arr_v : block) (arr_len arr_stride : Z) : option block :=
  let arr_stride_uint := to_uint arr_stride in
  let arr_half_stride := to_uint ((arr_len / 2) * arr_stride_uint) in
  let arr := arr_v in
  let buf := alloca_buffer in
  reverse_loop (Z.to_nat (arr_len / 2)) arr_stride arr_stride_uint arr_half_stride
    arr buf 0 (to_uint (to_uint (arr_len - 1) * arr_stride_uint)).

(** The [for] loop of [_bli_array_findindex]; [arr_step] is the offset of
    the pointer of that name from [arr]. *)
Fixpoint findindex_loop (fuel : nat) (arr : block) (arr_len arr_stride : Z) (p : block)
    (i arr_step : Z) : option Z :=
  if i <? arr_len then
    match fuel with
    | O => None
    | S fuel' =>
        if memcmp arr arr_step p 0 arr_stride =? 0 then Some (to_int i)
        else findindex_loop fuel' arr arr_len arr_stride p
               (to_uint (i + 1)) (arr_step + arr_stride)
    end
  else Some (-1).

(** [int _bli_array_findindex(const void *arr, uint arr_len, size_t arr_stride,
    const void *p)]. *)
Definition _bli_array_findindex (arr : block) (arr_len arr_stride : Z) (p : block)
  : option Z :=
  findindex_loop (Z.to_nat arr_len) arr arr_len arr_stride p 0 0.

(** The [for] loop of [_bli_array_rfindindex]: the condition [i-- != 0]
    tests [i] and then decrements it. *)
Fixpoint rfindindex_loop (fuel : nat) (arr : block) (arr_stride : Z) (p : block)
    (i arr_step : Z) : option Z :=
  if negb (i =? 0) then
    match fuel with
    | O => None
    | S fuel' =>
        let i := to_uint (i - 1) in
        let arr_step := arr_step - arr_stride in
        if memcmp arr arr_step p 0 arr_stride =? 0 then Some (to_int i)
        else rfindindex_loop fuel' arr arr_stride p i arr_step
    end
  else Some (-1).

(** [int _bli_array_rfindindex(const void *arr, uint arr_len, size_t arr_stride,
    const void *p)]. *)
Definition _bli_array_rfindindex (arr : block) (arr_len arr_stride : Z) (p : block)
  : option Z :=
  rfindindex_loop (Z.to_nat arr_len) arr arr_stride p
    arr_len (to_size_t (arr_stride * arr_len)).

(** A block holding the given bytes from offset 0 on, and the first [n]
    bytes of a block. *)
Definition block_of_list (l : list byte) : block :=
  fun a => if a <? 0 then x00 else nth (Z.to_nat a) l x00.

Definition block_to_list (b : block) (n : nat) : list byte :=
  map (fun k => b (Z.of_nat k)) (seq 0 n).

(** Element [index] of [arr] is byte-for-byte equal to the probe [p]. *)
Definition element_equal (arr : block) (arr_stride : Z) (p : block) (index : Z) : Prop :=
  forall k : Z, 0 <= k < arr_stride -> arr (index * arr_stride + k) = p k.

Example reverse_three_pairs :
  option_map (fun b => block_to_list b 6)
    (_bli_array_reverse (block_of_list [x01; x02; x03; x04; x05; x06]) 3 2)
  = Some [x05; x06; x03; x04; x01; x02].
Proof. reflexivity. Qed.

Example findindex_second :
  _bli_array_findindex (block_of_list [x01; x02; x03; x04; x03; x04]) 3 2
    (block_of_list [x03; x04]) = Some 1.
Proof. reflexivity. Qed.

Example rfindindex_last :
  _bli_array_rfindindex (block_of_list [x01; x02; x03; x04; x03; x04]) 3 2
    (block_of_list [x03; x04]) = Some 2.
Proof. reflexivity. Qed.

Example findindex_absent :
  _bli_array_findindex (block_of_list [x01; x02; x03; x04]) 2 2
    (block_of_list [x03; x05]) = Some (-1).
Proof. reflexivity. Qed.

(** *** Machine arithmetic *)

Lemma to_uint_small (z : Z) : 0 <= z < uint_modulus -> to_uint z = z.
Proof. intros H. unfold to_uint. apply Z.mod_small. exact H. Qed.

Lemma to_size_t_small (z : Z) : 0 <= z < size_t_modulus -> to_size_t z = z.
Proof. intros H. unfold to_size_t. apply Z.mod_small. exact H. Qed.

Lemma to_int_small (z : Z) : 0 <= z < 2 ^ 31 -> to_int z = z.
Proof.
  intros H. unfold to_int, uint_modulus.
  rewrite Z.mod_small; [lia |].
  change (2 ^ 31) with 2147483648 in *. change (2 ^ 32) with 4294967296. lia.
Qed.

(** *** [memcmp] *)

Lemma byte_value_inj (x y : byte) : byte_value x = byte_value y -> x = y.
Proof.
  unfold byte_value. intros H. apply N2Z.inj in H.
  pose proof (Byte.of_to_N x) as Hx. pose proof (Byte.of_to_N y) as Hy.
  rewrite H in Hx. rewrite Hx in Hy. injection Hy as ->. reflexivity.
Qed.

Lemma memcmp_bytes_zero (n : nat) (a b : block) :
  forall a_ofs b_ofs : Z,
    memcmp_bytes n a a_ofs b b_ofs = 0 <->
    (forall k : Z, 0 <= k < Z.of_nat n -> a (a_ofs + k) = b (b_ofs + k)).
Proof.
  induction n as [| n IH]; intros a_ofs b_ofs; simpl memcmp_bytes.
  - split; [intros _ k Hk; lia | reflexivity].
  - destruct (byte_value (a a_ofs) =? byte_value (b b_ofs)) eqn:Hhead.
    + apply Z.eqb_eq, byte_value_inj in Hhead. rewrite IH. split.
      * intros Htail k Hk. destruct (Z.eq_dec k 0) as [-> | Hnz].
        -- rewrite !Z.add_0_r. exact Hhead.
        -- replace (a_ofs + k) with (a_ofs + 1 + (k - 1)) by lia.
           replace (b_ofs + k) with (b_ofs + 1 + (k - 1)) by lia.
           apply Htail. lia.
      * intros Hall k Hk.
        replace (a_ofs + 1 + k) with (a_ofs + (k + 1)) by lia.
        replace (b_ofs + 1 + k) with (b_ofs + (k + 1)) by lia.
        apply Hall. lia.
    + apply Z.eqb_neq in Hhead. split.
      * intros Hdiff. lia.
      * intros Hall. exfalso. apply Hhead.
        specialize (Hall 0). rewrite !Z.add_0_r in Hall. rewrite Hall; [reflexivity | lia].
Qed.

Lemma memcmp_element (arr : block) (arr_stride : Z) (p : block) (index : Z) :
  0 <= arr_stride ->
  (memcmp arr (index * arr_stride) p 0 arr_stride =? 0) = true <->
  element_equal arr arr_stride p index.
Proof.
  intros Hs. rewrite Z.eqb_eq. unfold memcmp, element_equal.
  rewrite memcmp_bytes_zero, Z2Nat.id by exact Hs.
  split; intros H k Hk; specialize (H k Hk); simpl in *; exact H.
Qed.

(** *** [_bli_array_findindex] *)

Lemma findindex_loop_spec (arr : block) (arr_len arr_stride : Z) (p : block) :
  0 <= arr_stride -> arr_len < uint_modulus ->
  forall (fuel : nat) (i : Z),
    0 <= i <= arr_len ->
    Z.of_nat fuel = arr_len - i ->
    (forall j : Z, 0 <= j < i -> ~ element_equal arr arr_stride p j) ->
    exists r : Z,
      findindex_loop fuel arr arr_len arr_stride p i (i * arr_stride) = Some r /\
      ((r = -1 /\
        forall j : Z, 0 <= j < arr_len -> ~ element_equal arr arr_stride p j) \/
       (exists k : Z,
          i <= k < arr_len /\ r = to_int k /\
          element_equal arr arr_stride p k /\
          forall j : Z, 0 <= j < k -> ~ element_equal arr arr_stride p j)).
Proof.
  intros Hs Hlen. induction fuel as [| fuel IH]; intros i Hi Hfuel Hbefore.
  - assert (i = arr_len) as -> by lia.
    exists (-1). cbn [findindex_loop]. rewrite Z.ltb_irrefl. split; [reflexivity |].
    left. split; [reflexivity | exact Hbefore].
  - cbn [findindex_loop].
    assert (i < arr_len) as Hlt by lia.
    apply Z.ltb_lt in Hlt as Hltb. rewrite Hltb.
    destruct (memcmp arr (i * arr_stride) p 0 arr_stride =? 0) eqn:Hcmp.
    + apply memcmp_element in Hcmp; [| exact Hs].
      exists (to_int i). split; [reflexivity |]. right.
      exists i. repeat split; try lia; assumption.
    + rewrite to_uint_small by lia.
      replace (i * arr_stride + arr_stride) with ((i + 1) * arr_stride) by lia.
      destruct (IH (i + 1)) as [r [Hrun Hr]]; [lia | lia | |].
      * intros j Hj. destruct (Z.eq_dec j i) as [-> | Hne].
        -- intros Heq. apply memcmp_element in Heq; [| exact Hs]. congruence.
        -- apply Hbefore. lia.
      * exists r. split; [exact Hrun |].
        destruct Hr as [Hnone | [k (Hk & Hrk & Hek & Hmin)]]; [left; exact Hnone |].
        right. exists k. repeat split; try lia; assumption.
Qed.

(** *** [_bli_array_rfindindex] *)

Lemma rfindindex_loop_spec (arr : block) (arr_len arr_stride : Z) (p : block) :
  0 <= arr_stride -> arr_len < uint_modulus ->
  forall (fuel : nat) (i : Z),
    0 <= i <= arr_len ->
    Z.of_nat fuel = i ->
    (forall j : Z, i <= j < arr_len -> ~ element_equal arr arr_stride p j) ->
    exists r : Z,
      rfindindex_loop fuel arr arr_stride p i (i * arr_stride) = Some r /\
      ((r = -1 /\
        forall j : Z, 0 <= j < arr_len -> ~ element_equal arr arr_stride p j) \/
       (exists k : Z,
          0 <= k < i /\ r = to_int k /\
          element_equal arr arr_stride p k /\
          forall j : Z, k < j < arr_len -> ~ element_equal arr arr_stride p j)).
Proof.
  intros Hs Hlen. induction fuel as [| fuel IH]; intros i Hi Hfuel Hafter.
  - assert (i = 0) as -> by lia.
    exists (-1). cbn [rfindindex_loop]. split; [reflexivity |].
    left. split; [reflexivity | exact Hafter].
  - cbn [rfindindex_loop].
    assert (i <> 0) as Hnz by lia.
    apply Z.eqb_neq in Hnz as Hnzb. rewrite Hnzb. cbn [negb].
    rewrite to_uint_small by lia.
    replace (i * arr_stride - arr_stride) with ((i - 1) * arr_stride) by lia.
    destruct (memcmp arr ((i - 1) * arr_stride) p 0 arr_stride =? 0) eqn:Hcmp.
    + apply memcmp_element in Hcmp; [| exact Hs].
      exists (to_int (i - 1)). split; [reflexivity |]. right.
      exists (i - 1). repeat split; try lia; try assumption.
      intros j Hj. apply Hafter. lia.
    + destruct (IH (i - 1)) as [r [Hrun Hr]]; [lia | lia | |].
      * intros j Hj. destruct (Z.eq_dec j (i - 1)) as [-> | Hne].
        -- intros Heq. apply memcmp_element in Heq; [| exact Hs]. congruence.
        -- apply Hafter. lia.
      * exists r. split; [exact Hrun |].
        destruct Hr as [Hnone | [k (Hk & Hrk & Hek & Hmax)]]; [left; exact Hnone |].
        right. exists k. repeat split; try lia; assumption.
Qed.

(** For every [uint] length, the forward search returns [int(k)] for the
    first matching index [k], or -1 when there is none. *)
Lemma findindex_first_match (arr : block) (arr_len arr_stride : Z) (p : block) :
  0 <= arr_len < uint_modulus -> 0 <= arr_stride ->
  exists r : Z,
    _bli_array_findindex arr arr_len arr_stride p = Some r /\
    ((r = -1 /\
      forall j : Z, 0 <= j < arr_len -> ~ element_equal arr arr_stride p j) \/
     (exists k : Z,
        0 <= k < arr_len /\ r = to_int k /\
        element_equal arr arr_stride p k /\
        forall j : Z, 0 <= j < k -> ~ element_equal arr arr_stride p j)).
Proof.
  intros Hlen Hs. unfold _bli_array_findindex.
  change 0 with (0 * arr_stride) at 2.
  apply findindex_loop_spec; try lia.
Qed.

(** For every [uint] length, the backward search returns [int(k)] for the
    last matching index [k], or -1 when there is none. *)
Lemma rfindindex_last_match (arr : block) (arr_len arr_stride : Z) (p : block) :
  0 <= arr_len < uint_modulus -> 0 <= arr_stride ->
  arr_len * arr_stride < size_t_modulus ->
  exists r : Z,
    _bli_array_rfindindex arr arr_len arr_stride p = Some r /\
    ((r = -1 /\
      forall j : Z, 0 <= j < arr_len -> ~ element_equal arr arr_stride p j) \/
     (exists k : Z,
        0 <= k < arr_len /\ r = to_int k /\
        element_equal arr arr_stride p k /\
        forall j : Z, k < j < arr_len -> ~ element_equal arr arr_stride p j)).
Proof.
  intros Hlen Hs Hfit. unfold _bli_array_rfindindex.
  rewrite to_size_t_small by nia.
  rewrite (Z.mul_comm arr_stride arr_len).
  apply rfindindex_loop_spec; try lia.
Qed.

(** C8, for arrays whose indices fit [int]: for an array of at most 2^31
    elements that fits the address space, [_bli_array_findindex] returns the
    smallest index whose element is byte-for-byte equal to the probe and
    [_bli_array_rfindindex] the largest; each returns -1 when no element is
    equal to the probe. *)
Theorem array_findindex_rfindindex_spec
    (arr : block) (arr_len arr_stride : Z) (p : block) :
  0 <= arr_len <= 2 ^ 31 -> 0 <= arr_stride ->
  arr_len * arr_stride < size_t_modulus ->
  (exists r : Z,
      _bli_array_findindex arr arr_len arr_stride p = Some r /\
      ((r = -1 /\
        forall j : Z, 0 <= j < arr_len -> ~ element_equal arr arr_stride p j) \/
       (0 <= r < arr_len /\ element_equal arr arr_stride p r /\
        forall j : Z, 0 <= j < r -> ~ element_equal arr arr_stride p j))) /\
  (exists r : Z,
      _bli_array_rfindindex arr arr_len arr_stride p = Some r /\
      ((r = -1 /\
        forall j : Z, 0 <= j < arr_len -> ~ element_equal arr arr_stride p j) \/
       (0 <= r < arr_len /\ element_equal arr arr_stride p r /\
        forall j : Z, r < j < arr_len -> ~ element_equal arr arr_stride p j))).
Proof.
  intros Hlen Hs Hfit.
  assert (0 <= arr_len < uint_modulus) as Hlen'.
  { unfold uint_modulus. change (2 ^ 31) with 2147483648 in Hlen.
    change (2 ^ 32) with 4294967296. lia. }
  split.
  - destruct (findindex_first_match arr arr_len arr_stride p Hlen' Hs) as [r [Hrun Hr]].
    exists r. split; [exact Hrun |].
    destruct Hr as [Hnone | [k (Hk & -> & Hek & Hmin)]]; [left; exact Hnone |].
    right. rewrite to_int_small by lia. auto.
  - destruct (rfindindex_last_match arr arr_len arr_stride p Hlen' Hs Hfit)
      as [r [Hrun Hr]].
    exists r. split; [exact Hrun |].
    destruct Hr as [Hnone | [k (Hk & -> & Hek & Hmax)]]; [left; exact Hnone |].
    right. rewrite to_int_small by lia. auto.
Qed.

Definition sample_pairs : block := block_of_list [x01; x02; x03; x04; x03; x04].
Definition sample_probe : block := block_of_list [x03; x04].

Lemma array_findindex_rfindindex_spec_witness :
  (exists r : Z,
      _bli_array_findindex sample_pairs 3 2 sample_probe = Some r /\
      ((r = -1 /\
        forall j : Z, 0 <= j < 3 -> ~ element_equal sample_pairs 2 sample_probe j) \/
       (0 <= r < 3 /\ element_equal sample_pairs 2 sample_probe r /\
        forall j : Z, 0 <= j < r -> ~ element_equal sample_pairs 2 sample_probe j))) /\
  (exists r : Z,
      _bli_array_rfindindex sample_pairs 3 2 sample_probe = Some r /\
      ((r = -1 /\
        forall j : Z, 0 <= j < 3 -> ~ element_equal sample_pairs 2 sample_probe j) \/
       (0 <= r < 3 /\ element_equal sample_pairs 2 sample_probe r /\
        forall j : Z, r < j < 3 -> ~ element_equal sample_pairs 2 sample_probe j))).
Proof.
  apply (array_findindex_rfindindex_spec sample_pairs 3 2 sample_probe).
  - change (2 ^ 31) with 2147483648. lia.
  - lia.
  - unfold size_t_modulus. change (2 ^ 64) with 18446744073709551616. lia.
Defined.

(** An array of 2^31 + 1 single bytes, all zero except the last, and a
    probe holding that last byte. *)
Definition long_array : block := fun a => if a =? 2147483648 then x01 else x00.
Definition one_probe : block := fun _ => x01.

(** On [long_array] the only element equal to the probe is at index 2^31,
    and the forward search returns [int(2^31)], a negative number that is
    neither that index nor -1. *)
Lemma findindex_index_exceeds_int :
  _bli_array_findindex long_array 2147483649 1 one_probe = Some (-2147483648) /\
  element_equal long_array 1 one_probe 2147483648 /\
  (forall j : Z, 0 <= j < 2147483648 -> ~ element_equal long_array 1 one_probe j).
Proof.
  assert (element_equal long_array 1 one_probe 2147483648) as Hlast.
  { intros k Hk. assert (k = 0) as -> by lia. reflexivity. }
  assert (forall j : Z, j <> 2147483648 -> ~ element_equal long_array 1 one_probe j)
    as Hother.
  { intros j Hj Heq. specialize (Heq 0 ltac:(lia)).
    unfold long_array, one_probe in Heq.
    replace (j * 1 + 0) with j in Heq by lia.
    apply Z.eqb_neq in Hj. rewrite Hj in Heq. discriminate Heq. }
  split; [| split; [exact Hlast | intros j Hj; apply Hother; lia]].
  destruct (findindex_first_match long_array 2147483649 1 one_probe)
    as [r [Hrun Hr]].
  - unfold uint_modulus. change (2 ^ 32) with 4294967296. lia.
  - lia.
  - rewrite Hrun. f_equal.
    destruct Hr as [[_ Hnone] | [k (Hk & -> & Hek & Hmin)]].
    + exfalso. apply (Hnone 2147483648); [lia | exact Hlast].
    + assert (k = 2147483648) as ->.
      { destruct (Z.eq_dec k 2147483648) as [Heq | Hne]; [exact Heq |].
        exfalso. apply (Hother k Hne Hek). }
      reflexivity.
Qed.

(** *** [_bli_array_reverse] *)

(** The byte at offset [k] of element [e] lies in element [m] only when
    [e = m]. *)
Lemma element_bounds (s e m k : Z) :
  0 < s -> 0 <= k < s ->
  (m * s <=? e * s + k) && (e * s + k <? m * s + s) = (e =? m).
Proof.
  intros Hs Hk. destruct (Z.eq_dec e m) as [-> | Hne].
  - rewrite Z.eqb_refl. apply andb_true_iff. split; [apply Z.leb_le | apply Z.ltb_lt]; lia.
  - apply Z.eqb_neq in Hne as Hneb. rewrite Hneb. apply andb_false_iff.
    destruct (Z_lt_le_dec e m) as [Hlt | Hge].
    + left. apply Z.leb_gt. nia.
    + right. apply Z.ltb_ge. nia.
Qed.

(** One iteration of the loop body: the elements at [i] and [i_end] swap. *)
Lemma swap_elements (arr buf : block) (i i_end s a : Z) :
  memcpy (memcpy arr i arr i_end s) i_end (memcpy buf 0 arr i s) 0 s a =
  if (i_end <=? a) && (a <? i_end + s) then arr (i + (a - i_end))
  else if (i <=? a) && (a <? i + s) then arr (i_end + (a - i))
  else arr a.
Proof.
  unfold memcpy.
  destruct ((i_end <=? a) && (a <? i_end + s)) eqn:Hend; [| reflexivity].
  apply andb_true_iff in Hend as [Hlo Hhi].
  apply Z.leb_le in Hlo. apply Z.ltb_lt in Hhi.
  replace ((0 <=? 0 + (a - i_end)) && (0 + (a - i_end) <? 0 + s)) with true.
  - f_equal. lia.
  - symmetry. apply andb_true_iff. split; [apply Z.leb_le | apply Z.ltb_lt]; lia.
Qed.

Section Reverse.

Variable arr0 : block.
Variables arr_len arr_stride : Z.
Hypothesis stride_pos : 0 < arr_stride.
Hypothesis len_two : 2 <= arr_len.
Hypothesis offsets_fit : (arr_len - 1) * arr_stride < uint_modulus.

(** After [j] iterations the first and the last [j] elements are the
    reversed ones and the rest is untouched. *)
Definition partially_reversed (j : Z) (arr : block) : Prop :=
  forall e k : Z,
    0 <= k < arr_stride ->
    arr (e * arr_stride + k) =
    if ((0 <=? e) && (e <? j)) || ((arr_len - j <=? e) && (e <? arr_len))
    then arr0 ((arr_len - 1 - e) * arr_stride + k)
    else arr0 (e * arr_stride + k).

Lemma partially_reversed_step (j : Z) (arr buf : block) :
  0 <= j < arr_len / 2 ->
  partially_reversed j arr ->
  partially_reversed (j + 1)
    (memcpy (memcpy arr (j * arr_stride) arr ((arr_len - 1 - j) * arr_stride) arr_stride)
       ((arr_len - 1 - j) * arr_stride)
       (memcpy buf 0 arr (j * arr_stride) arr_stride) 0 arr_stride).
Proof.
  intros Hj Hinv e k Hk.
  assert (2 * (arr_len / 2) <= arr_len) as Hhalf
    by (apply Z.mul_div_le; lia).
  rewrite swap_elements.
  rewrite (element_bounds arr_stride e (arr_len - 1 - j) k stride_pos Hk).
  rewrite (element_bounds arr_stride e j k stride_pos Hk).
  destruct (e =? arr_len - 1 - j) eqn:Hend.
  - apply Z.eqb_eq in Hend. subst e.
    replace (j * arr_stride + ((arr_len - 1 - j) * arr_stride + k
                               - (arr_len - 1 - j) * arr_stride))
      with (j * arr_stride + k) by lia.
    rewrite (Hinv j k Hk).
    replace ((0 <=? j) && (j <? j) || (arr_len - j <=? j) && (j <? arr_len))
      with false
      by (symmetry; apply orb_false_iff; split; apply andb_false_iff;
          [right; apply Z.ltb_ge; lia | left; apply Z.leb_gt; lia]).
    replace ((0 <=? arr_len - 1 - j) && (arr_len - 1 - j <? j + 1)
             || (arr_len - (j + 1) <=? arr_len - 1 - j) && (arr_len - 1 - j <? arr_len))
      with true
      by (symmetry; apply orb_true_iff; right; apply andb_true_iff;
          split; [apply Z.leb_le | apply Z.ltb_lt]; lia).
    f_equal. lia.
  - destruct (e =? j) eqn:Hbeg.
    + apply Z.eqb_eq in Hbeg. subst e.
      replace ((arr_len - 1 - j) * arr_stride + (j * arr_stride + k - j * arr_stride))
        with ((arr_len - 1 - j) * arr_stride + k) by lia.
      rewrite (Hinv (arr_len - 1 - j) k Hk).
      replace ((0 <=? arr_len - 1 - j) && (arr_len - 1 - j <? j)
               || (arr_len - j <=? arr_len - 1 - j) && (arr_len - 1 - j <? arr_len))
        with false
        by (symmetry; apply orb_false_iff; split; apply andb_false_iff;
            [right; apply Z.ltb_ge; lia | left; apply Z.leb_gt; lia]).
      replace ((0 <=? j) && (j <? j + 1) || (arr_len - (j + 1) <=? j) && (j <? arr_len))
        with true
        by (symmetry; apply orb_true_iff; left; apply andb_true_iff;
            split; [apply Z.leb_le | apply Z.ltb_lt]; lia).
      reflexivity.
    + apply Z.eqb_neq in Hend, Hbeg.
      rewrite (Hinv e k Hk).
      replace ((0 <=? e) && (e <? j + 1) || (arr_len - (j + 1) <=? e) && (e <? arr_len))
        with ((0 <=? e) && (e <? j) || (arr_len - j <=? e) && (e <? arr_len));
        [reflexivity |].
      destruct (0 <=? e) eqn:H0; destruct (e <? j) eqn:H1;
        destruct (e <? j + 1) eqn:H2; destruct (arr_len - j <=? e) eqn:H3;
        destruct (arr_len - (j + 1) <=? e) eqn:H4; destruct (e <? arr_len) eqn:H5;
        try reflexivity; exfalso;
        rewrite ?Z.leb_le, ?Z.leb_gt, ?Z.ltb_lt, ?Z.ltb_ge in *; lia.
Qed.

Lemma reverse_loop_spec (fuel : nat) :
  forall (j : Z) (arr buf : block),
    0 <= j <= arr_len / 2 ->
    Z.of_nat fuel = arr_len / 2 - j ->
    partially_reversed j arr ->
    exists arr' : block,
      reverse_loop fuel arr_stride arr_stride (arr_len / 2 * arr_stride) arr buf
        (j * arr_stride) ((arr_len - 1 - j) * arr_stride) = Some arr' /\
      partially_reversed (arr_len / 2) arr'.
Proof.
  assert (2 * (arr_len / 2) <= arr_len) as Hhalf
    by (apply Z.mul_div_le; lia).
  induction fuel as [| fuel IH]; intros j arr buf Hj Hfuel Hinv.
  - assert (j = arr_len / 2) as -> by lia.
    exists arr. cbn [reverse_loop]. rewrite Z.ltb_irrefl. split; [reflexivity | exact Hinv].
  - cbn [reverse_loop].
    assert (j * arr_stride < arr_len / 2 * arr_stride) as Hlt by nia.
    apply Z.ltb_lt in Hlt as Hltb. rewrite Hltb.
    rewrite (to_uint_small (j * arr_stride + arr_stride)) by nia.
    rewrite (to_uint_small ((arr_len - 1 - j) * arr_stride - arr_stride)) by nia.
    replace (j * arr_stride + arr_stride) with ((j + 1) * arr_stride) by lia.
    replace ((arr_len - 1 - j) * arr_stride - arr_stride)
      with ((arr_len - 1 - (j + 1)) * arr_stride) by lia.
    apply IH; [lia | lia |].
    apply partially_reversed_step; [lia | exact Hinv].
Qed.

End Reverse.

(** The contents after one call, element by element, whenever the byte
    offsets fit [uint] or there is at most one element. *)
Lemma reverse_elements (arr : block) (arr_len arr_stride : Z) :
  0 <= arr_len < uint_modulus -> 0 < arr_stride ->
  arr_len <= 1 \/ (arr_len - 1) * arr_stride < uint_modulus ->
  exists arr' : block,
    _bli_array_reverse arr arr_len arr_stride = Some arr' /\
    forall e k : Z,
      0 <= k < arr_stride ->
      arr' (e * arr_stride + k) =
      if (0 <=? e) && (e <? arr_len)
      then arr ((arr_len - 1 - e) * arr_stride + k)
      else arr (e * arr_stride + k).
Proof.
  intros Hlen Hs Hfit. unfold _bli_array_reverse.
  destruct (Z_le_gt_dec arr_len 1) as [Hsmall | Hbig].
  - assert (arr_len / 2 = 0) as -> by (apply Z.div_small; lia).
    exists arr. split; [reflexivity |].
    intros e k Hk.
    destruct ((0 <=? e) && (e <? arr_len)) eqn:Hin; [| reflexivity].
    apply andb_true_iff in Hin as [Hlo Hhi].
    apply Z.leb_le in Hlo. apply Z.ltb_lt in Hhi.
    f_equal. assert (e = 0) as -> by lia. assert (arr_len = 1) as -> by lia. lia.
  - destruct Hfit as [Hle | Hfit]; [lia |].
    assert (2 * (arr_len / 2) <= arr_len) as Hhalf by (apply Z.mul_div_le; lia).
    assert (0 < arr_len / 2) as Hhpos by (apply Z.div_str_pos; lia).
    rewrite (to_uint_small arr_stride) by nia.
    rewrite (to_uint_small (arr_len - 1)) by lia.
    rewrite (to_uint_small (arr_len / 2 * arr_stride)) by nia.
    rewrite (to_uint_small ((arr_len - 1) * arr_stride)) by nia.
    destruct (reverse_loop_spec arr arr_len arr_stride Hs ltac:(lia) Hfit
                (Z.to_nat (arr_len / 2)) 0 arr alloca_buffer)
      as [arr' [Hrun Hinv]]; [lia | lia | |].
    + intros e k Hk.
      replace ((0 <=? e) && (e <? 0) || (arr_len - 0 <=? e) && (e <? arr_len))
        with false; [reflexivity |].
      symmetry. apply orb_false_iff. split; apply andb_false_iff.
      * destruct (Z_lt_le_dec e 0);
          [left; apply Z.leb_gt; lia | right; apply Z.ltb_ge; lia].
      * destruct (Z_lt_le_dec e arr_len);
          [left; apply Z.leb_gt; lia | right; apply Z.ltb_ge; lia].
    + exists arr'. rewrite Z.mul_0_l, Z.sub_0_r in Hrun. split; [exact Hrun |].
      intros e k Hk. rewrite (Hinv e k Hk).
      destruct ((0 <=? e) && (e <? arr_len)) eqn:Hin.
      * apply andb_true_iff in Hin as [Hlo Hhi].
        apply Z.leb_le in Hlo. apply Z.ltb_lt in Hhi.
        destruct ((0 <=? e) && (e <? arr_len / 2)
                  || (arr_len - arr_len / 2 <=? e) && (e <? arr_len)) eqn:Hside;
          [reflexivity |].
        apply orb_false_iff in Hside as [Hleft Hright].
        apply andb_false_iff in Hleft as [Hl | Hl];
          [apply Z.leb_gt in Hl; lia | apply Z.ltb_ge in Hl].
        apply andb_false_iff in Hright as [Hr | Hr];
          [apply Z.leb_gt in Hr | apply Z.ltb_ge in Hr; lia].
        pose proof (Z.mul_succ_div_gt arr_len 2 ltac:(lia)) as Hodd.
        f_equal. assert (e = arr_len - 1 - e) as Hmid by lia. nia.
      * replace ((0 <=? e) && (e <? arr_len / 2)
                 || (arr_len - arr_len / 2 <=? e) && (e <? arr_len)) with false;
          [reflexivity |].
        symmetry. apply andb_false_iff in Hin.
        apply orb_false_iff. split; apply andb_false_iff.
        -- destruct Hin as [Hin | Hin];
             [left; exact Hin | right; apply Z.ltb_ge in Hin; apply Z.ltb_ge; lia].
        -- destruct Hin as [Hin | Hin];
             [left; apply Z.leb_gt in Hin; apply Z.leb_gt; lia | right; exact Hin].
Qed.

(** Every offset is the offset of some byte of some element. *)
Lemma offset_decompose (arr_stride a : Z) :
  0 < arr_stride ->
  a = (a / arr_stride) * arr_stride + a mod arr_stride /\
  0 <= a mod arr_stride < arr_stride.
Proof.
  intros Hs. split.
  - rewrite Z.mul_comm. apply Z.div_mod. lia.
  - apply Z.mod_pos_bound. exact Hs.
Qed.

(** C9, for arrays whose byte offsets fit [uint]: for every array contents, every [arr_len] (0 and 1
    included) and every positive [arr_stride] such that the byte offset of
    the last element fits [uint] (or there is at most one element), one call
    of [_bli_array_reverse] puts the original element [arr_len - 1 - i] at
    index [i] and leaves the bytes outside the array alone, and a second call
    with the same [arr_len] and [arr_stride] restores the original bytes. *)
Theorem array_reverse_involution (arr : block) (arr_len arr_stride : Z) :
  0 <= arr_len < uint_modulus -> 0 < arr_stride ->
  arr_len <= 1 \/ (arr_len - 1) * arr_stride < uint_modulus ->
  exists once : block,
    _bli_array_reverse arr arr_len arr_stride = Some once /\
    (forall i k : Z,
        0 <= i < arr_len -> 0 <= k < arr_stride ->
        once (i * arr_stride + k) = arr ((arr_len - 1 - i) * arr_stride + k)) /\
    (forall a : Z, a < 0 \/ arr_len * arr_stride <= a -> once a = arr a) /\
    exists twice : block,
      _bli_array_reverse once arr_len arr_stride = Some twice /\
      forall a : Z, twice a = arr a.
Proof.
  intros Hlen Hs Hfit.
  destruct (reverse_elements arr arr_len arr_stride Hlen Hs Hfit) as [once [Hrun1 Hel1]].
  destruct (reverse_elements once arr_len arr_stride Hlen Hs Hfit) as [twice [Hrun2 Hel2]].
  exists once. split; [exact Hrun1 |]. split; [| split].
  - intros i k Hi Hk. rewrite (Hel1 i k Hk).
    replace ((0 <=? i) && (i <? arr_len)) with true; [reflexivity |].
    symmetry. apply andb_true_iff. split; [apply Z.leb_le | apply Z.ltb_lt]; lia.
  - intros a Ha.
    destruct (offset_decompose arr_stride a Hs) as [Hdec Hmod].
    rewrite Hdec. rewrite (Hel1 _ _ Hmod).
    replace ((0 <=? a / arr_stride) && (a / arr_stride <? arr_len)) with false;
      [reflexivity |].
    symmetry. apply andb_false_iff. destruct Ha as [Hneg | Hpast].
    + left. apply Z.leb_gt. apply Z.div_lt_upper_bound; lia.
    + right. apply Z.ltb_ge. apply Z.div_le_lower_bound; lia.
  - exists twice. split; [exact Hrun2 |]. intros a.
    destruct (offset_decompose arr_stride a Hs) as [Hdec Hmod].
    rewrite Hdec. rewrite (Hel2 _ _ Hmod).
    destruct ((0 <=? a / arr_stride) && (a / arr_stride <? arr_len)) eqn:Hin.
    + rewrite (Hel1 _ _ Hmod).
      apply andb_true_iff in Hin as [Hlo Hhi].
      apply Z.leb_le in Hlo. apply Z.ltb_lt in Hhi.
      replace ((0 <=? arr_len - 1 - a / arr_stride)
               && (arr_len - 1 - a / arr_stride <? arr_len)) with true.
      * f_equal. lia.
      * symmetry. apply andb_true_iff. split; [apply Z.leb_le | apply Z.ltb_lt]; lia.
    + rewrite (Hel1 _ _ Hmod), Hin. reflexivity.
Qed.

Definition sample_triple : block := block_of_list [x01; x02; x03; x04; x05; x06].

Lemma array_reverse_involution_witness :
  exists once : block,
    _bli_array_reverse sample_triple 3 2 = Some once /\
    (forall i k : Z,
        0 <= i < 3 -> 0 <= k < 2 ->
        once (i * 2 + k) = sample_triple ((3 - 1 - i) * 2 + k)) /\
    (forall a : Z, a < 0 \/ 3 * 2 <= a -> once a = sample_triple a) /\
    exists twice : block,
      _bli_array_reverse once 3 2 = Some twice /\
      forall a : Z, twice a = sample_triple a.
Proof.
  apply (array_reverse_involution sample_triple 3 2).
  - unfold uint_modulus. change (2 ^ 32) with 4294967296. lia.
  - lia.
  - right. unfold uint_modulus. change (2 ^ 32) with 4294967296. lia.
Defined.

(** Four elements of 2^31 bytes each: the first holds ones, the others
    zeros. *)
Definition wide_array : block := fun a => if a <? 2147483648 then x01 else x00.

(** With [arr_len = 4] and [arr_stride = 2^31] the half length in bytes,
    [2 * 2^31], wraps to 0 in [uint]: the loop body never runs, and index 0
    still holds the original element 0 instead of the original element 3. *)
Lemma reverse_offsets_exceed_uint :
  exists once : block,
    _bli_array_reverse wide_array 4 2147483648 = Some once /\
    once (0 * 2147483648 + 0) = x01 /\
    wide_array ((4 - 1 - 0) * 2147483648 + 0) = x00.
Proof. exists wide_array. repeat split. Qed.

End ArrayUtils.

(** ** Outliner: warnings of a library tree element *)

Module Outliner.
#[local] Open Scope Z_scope.

(** The fields of [ID], [LibraryRuntime] and [Library] (DNA_ID.h,
    BKE_library.hh) that [tree_element_id_library.cc] reads or writes. *)
Record ID : Set := mkID { id_tag : Z }.
Record LibraryRuntime : Set := mkLibraryRuntime { runtime_tag : Z }.
Record Library : Set := mkLibrary {
  library_id : ID;
  library_runtime : LibraryRuntime;
  library_filepath : string
}.

(** [TreeElementIDLibrary]: its [id_] refers to the [ID] at the start of a
    [Library], which [get_warning] casts back to the [Library]. *)
Record TreeElementIDLibrary : Set := mkTreeElementIDLibrary { id_ : Library }.

Section GetWarning.

(** The flag bits and the report-translation macro come from headers
    outside the sources covered here. *)
Variable LIBRARY_TAG_RESYNC_REQUIRED : Z.
Variable ID_TAG_MISSING : Z.
Variable RPT_ : string -> string.

Definition resync_message : string :=
  "Contains linked library overrides that need to be resynced, updating the library is recommended".

Definition missing_message : string := "Missing library".

(** [if (tag & FLAG)]: the bitwise and is non-zero. *)
Definition flag_test (tag flag : Z) : bool := negb (Z.land tag flag =? 0).

(** [StringRefNull TreeElementIDLibrary::get_warning() const]; the default
    constructed [StringRefNull] is the empty string. *)
Definition get_warning (te : TreeElementIDLibrary) : string :=
  let library := id_ te in
  if flag_test (runtime_tag (library_runtime library)) LIBRARY_TAG_RESYNC_REQUIRED then
    RPT_ resync_message
  else if flag_test (id_tag (library_id library)) ID_TAG_MISSING then
    RPT_ missing_message
  else ""%string.

(** A tag has a flag set. *)
Definition has_flag (tag flag : Z) : Prop := Z.land tag flag <> 0.

Lemma flag_test_has_flag (tag flag : Z) : flag_test tag flag = true <-> has_flag tag flag.
Proof.
  unfold flag_test, has_flag. rewrite negb_true_iff, Z.eqb_neq. reflexivity.
Qed.

Lemma flag_test_not_has_flag (tag flag : Z) :
  flag_test tag flag = false <-> ~ has_flag tag flag.
Proof.
  rewrite <- flag_test_has_flag. destruct (flag_test tag flag); split; congruence.
Qed.

(** C10: [get_warning] gives the resync warning priority over the
    missing-library warning: with LIBRARY_TAG_RESYNC_REQUIRED set in the
    runtime tag it returns the resync message, whatever ID_TAG_MISSING is; it
    returns the missing-library message exactly when resync is not required
    and ID_TAG_MISSING is set; otherwise it returns the empty string.  The
    method is [const]: it is a function of the element alone.  (The report
    translation is assumed to keep the missing-library message distinct from
    the resync message and from the empty string.) *)
Theorem get_warning_priority (te : TreeElementIDLibrary) :
  RPT_ missing_message <> RPT_ resync_message ->
  RPT_ missing_message <> ""%string ->
  let resync :=
    has_flag (runtime_tag (library_runtime (id_ te))) LIBRARY_TAG_RESYNC_REQUIRED in
  let missing := has_flag (id_tag (library_id (id_ te))) ID_TAG_MISSING in
  (resync -> get_warning te = RPT_ resync_message) /\
  (get_warning te = RPT_ missing_message <-> ~ resync /\ missing) /\
  (~ resync -> ~ missing -> get_warning te = ""%string).
Proof.
  intros Hdistinct Hnonempty resync missing. subst resync missing.
  unfold get_warning. cbv zeta.
  destruct (flag_test (runtime_tag (library_runtime (id_ te))) LIBRARY_TAG_RESYNC_REQUIRED)
    eqn:Hresync.
  - apply flag_test_has_flag in Hresync.
    split; [reflexivity |]. split; [| tauto].
    split; [intros Heq; congruence | tauto].
  - apply flag_test_not_has_flag in Hresync.
    destruct (flag_test (id_tag (library_id (id_ te))) ID_TAG_MISSING) eqn:Hmissing.
    + apply flag_test_has_flag in Hmissing.
      split; [tauto |]. split; [| tauto]. split; [auto | reflexivity].
    + apply flag_test_not_has_flag in Hmissing.
      split; [tauto |]. split; [| reflexivity].
      split; [intros Heq; congruence | tauto].
Qed.

End GetWarning.

(** A library that both needs a resync and is missing, with the flag values
    [1 << 0] and [1 << 6] and reports left untranslated. *)
Definition stale_missing_library : TreeElementIDLibrary :=
  mkTreeElementIDLibrary (mkLibrary (mkID 64) (mkLibraryRuntime 1) "//assets.blend").

Lemma get_warning_priority_witness :
  (has_flag 1 1 ->
   get_warning 1 64 (fun msgid => msgid) stale_missing_library = resync_message) /\
  (get_warning 1 64 (fun msgid => msgid) stale_missing_library = missing_message <->
   ~ has_flag 1 1 /\ has_flag 64 64) /\
  (~ has_flag 1 1 -> ~ has_flag 64 64 ->
   get_warning 1 64 (fun msgid => msgid) stale_missing_library = ""%string).
Proof.
  apply (get_warning_priority 1 64 (fun msgid => msgid) stale_missing_library).
  - intros H. discriminate H.
  - intros H. discriminate H.
Defined.

End Outliner.

(** ** Generic array manipulation API: rotation and permutation

    [_bli_array_wrap] and [_bli_array_permute], and how they compose with
    [_bli_array_reverse]. *)

Module ArrayOps.
Import Stdlib.Init.Byte.
Import ArrayUtils.
#[local] Open Scope Z_scope.

(** What a call comes to: it returns, it trips a [BLI_assert] (debug
    build), or the fuel of a loop ran out. *)
Inductive outcome (A : Type) : Type :=
| Finished (a : A)
| AssertFailed
| NoFuel.
Arguments Finished {A} a.
Arguments AssertFailed {A}.
Arguments NoFuel {A}.

(** [memmove(dst + dst_ofs, src + src_ofs, n)]: the destination block after
    the move; the source is read as it was before the call. *)
Definition memmove (dst : block) (dst_ofs : Z) (src : block) (src_ofs : Z) (n : Z) : block :=
  fun a =>
    if (dst_ofs <=? a) && (a <? dst_ofs + n)
    then src (src_ofs + (a - dst_ofs))
    else dst a.

(** [void _bli_array_wrap(void *arr_v, uint arr_len, size_t arr_stride, int dir)]:
    the contents of [arr_v] after the call. *)
Definition _bli_array_wrap (arr_v : block) (arr_len arr_stride dir : Z) : outcome block :=
  let arr := arr_v in
  let buf := alloca_buffer in
  if dir =? -1 then
    let buf := memcpy buf 0 arr 0 arr_stride in
    let arr := memmove arr 0 arr arr_stride
                 (to_size_t (arr_stride * to_uint (arr_len - 1))) in
    let arr := memcpy arr (to_size_t (arr_stride * to_uint (arr_len - 1))) buf 0 arr_stride in
    Finished arr
  else if dir =? 1 then
    let buf := memcpy buf 0 arr (to_size_t (arr_stride * to_uint (arr_len - 1))) arr_stride in
    let arr := memmove arr arr_stride arr 0
                 (to_size_t (arr_stride * to_uint (arr_len - 1))) in
    let arr := memcpy arr 0 buf 0 arr_stride in
    Finished arr
  else AssertFailed.

(** The [for] loop of [_bli_array_permute]. *)
Fixpoint permute_loop (fuel : nat) (arr_len arr_stride arr_stride_uint : Z)
    (order : Z -> Z) (arr arr_orig : block) (i : Z) : outcome block :=
  if i <? arr_len then
    match fuel with
    | O => NoFuel
    | S fuel' =>
        if order i <? arr_len then
          let arr :=
            memcpy arr (to_uint (arr_stride_uint * i))
              arr_orig (to_uint (arr_stride_uint * order i)) arr_stride in
          permute_loop fuel' arr_len arr_stride arr_stride_uint order arr arr_orig
            (to_uint (i + 1))
        else AssertFailed
    end
  else Finished arr.

(** [void _bli_array_permute(void *arr, const uint arr_len, const size_t arr_stride,
    const uint *order, void *arr_temp)]: the contents of [arr] and, when
    [arr_temp] is not null, of [arr_temp] after the call.  [order] is read by
    index; with a null [arr_temp] the copy lives in a fresh allocation that
    is freed on return. *)
Definition _bli_array_permute (arr : block) (arr_len arr_stride : Z) (order : Z -> Z)
    (arr_temp : option block) : outcome (block * option block) :=
  let len := to_size_t (arr_len * arr_stride) in
  let arr_stride_uint := to_uint arr_stride in
  let arr_orig := match arr_temp with None => alloca_buffer | Some temp => temp end in
  let arr_orig := memcpy arr_orig 0 arr 0 len in
  match permute_loop (Z.to_nat arr_len) arr_len arr_stride arr_stride_uint
          order arr arr_orig 0 with
  | Finished arr =>
      Finished (arr, match arr_temp with None => None | Some _ => Some arr_orig end)
  | AssertFailed => AssertFailed
  | NoFuel => NoFuel
  end.

(** The index whose element a rotation towards the front puts at [i], and
    the one a rotation towards the back puts there. *)
Definition next_index (arr_len i : Z) : Z := if i =? arr_len - 1 then 0 else i + 1.
Definition prev_index (arr_len i : Z) : Z := if i =? 0 then arr_len - 1 else i - 1.

Example wrap_front :
  match _bli_array_wrap (block_of_list [x01; x02; x03; x04; x05; x06]) 3 2 (-1) with
  | Finished b => block_to_list b 6
  | _ => []
  end = [x03; x04; x05; x06; x01; x02].
Proof. reflexivity. Qed.

Example wrap_back :
  match _bli_array_wrap (block_of_list [x01; x02; x03; x04; x05; x06]) 3 2 1 with
  | Finished b => block_to_list b 6
  | _ => []
  end = [x05; x06; x01; x02; x03; x04].
Proof. reflexivity. Qed.

Example permute_three :
  match _bli_array_permute (block_of_list [x01; x02; x03; x04; x05; x06]) 3 2
          (fun i => if i =? 0 then 2 else if i =? 1 then 0 else 1) None with
  | Finished (b, _) => block_to_list b 6
  | _ => []
  end = [x05; x06; x01; x02; x03; x04].
Proof. reflexivity. Qed.

(** *** Offsets of elements *)

(** Turning the boolean tests of a hypothesis into (in)equalities. *)
Ltac zbool H :=
  rewrite ?andb_true_iff, ?andb_false_iff, ?orb_true_iff, ?orb_false_iff,
    ?negb_true_iff, ?negb_false_iff,
    ?Z.leb_le, ?Z.leb_gt, ?Z.ltb_lt, ?Z.ltb_ge, ?Z.eqb_eq, ?Z.eqb_neq in H.

(** Case analysis on the first test of the goal. *)
Ltac case_test :=
  match goal with
  | |- context [if ?b then _ else _] =>
      let H := fresh "Htest" in destruct b eqn:H; zbool H
  end.

(** The byte at offset [k] of element [e] lies in the elements
    [m, m + c) exactly when [e] does. *)
Lemma element_in_range (s e m c k : Z) :
  0 < s -> 0 <= k < s ->
  (m * s <= e * s + k < m * s + c * s) <-> (m <= e < m + c).
Proof. intros Hs Hk. split; intros [Hlo Hhi]; split; nia. Qed.

Lemma element_offset_inj (s e1 k1 e2 k2 : Z) :
  0 < s -> 0 <= k1 < s -> 0 <= k2 < s ->
  e1 * s + k1 = e2 * s + k2 -> e1 = e2 /\ k1 = k2.
Proof. intros Hs H1 H2 Heq. assert (e1 = e2) by nia. subst. split; lia. Qed.

(** *** [_bli_array_wrap] *)

Lemma wrap_front_elements (arr : block) (arr_len arr_stride : Z) :
  1 <= arr_len < uint_modulus -> 0 < arr_stride ->
  arr_len * arr_stride < size_t_modulus ->
  exists arr' : block,
    _bli_array_wrap arr arr_len arr_stride (-1) = Finished arr' /\
    forall e k : Z,
      0 <= k < arr_stride ->
      arr' (e * arr_stride + k) =
      if (0 <=? e) && (e <? arr_len)
      then arr (next_index arr_len e * arr_stride + k)
      else arr (e * arr_stride + k).
Proof.
  intros Hlen Hs Hfit. unfold _bli_array_wrap. cbn [Z.eqb Z.opp Pos.eqb].
  rewrite (to_uint_small (arr_len - 1)) by lia.
  rewrite to_size_t_small by nia.
  eexists. split; [reflexivity |].
  intros e k Hk. unfold memcpy, memmove, next_index, alloca_buffer.
  pose proof (element_in_range arr_stride e (arr_len - 1) 1 k Hs Hk) as Hlast.
  pose proof (element_in_range arr_stride e 0 (arr_len - 1) k Hs Hk) as Hbody.
  repeat case_test; try (exfalso; lia); try (f_equal; lia); try (f_equal; nia).
Qed.

Lemma wrap_back_elements (arr : block) (arr_len arr_stride : Z) :
  1 <= arr_len < uint_modulus -> 0 < arr_stride ->
  arr_len * arr_stride < size_t_modulus ->
  exists arr' : block,
    _bli_array_wrap arr arr_len arr_stride 1 = Finished arr' /\
    forall e k : Z,
      0 <= k < arr_stride ->
      arr' (e * arr_stride + k) =
      if (0 <=? e) && (e <? arr_len)
      then arr (prev_index arr_len e * arr_stride + k)
      else arr (e * arr_stride + k).
Proof.
  intros Hlen Hs Hfit. unfold _bli_array_wrap. cbn [Z.eqb Z.opp Pos.eqb].
  rewrite (to_uint_small (arr_len - 1)) by lia.
  rewrite to_size_t_small by nia.
  eexists. split; [reflexivity |].
  intros e k Hk. unfold memcpy, memmove, prev_index, alloca_buffer.
  pose proof (element_in_range arr_stride e 0 1 k Hs Hk) as Hfirst.
  pose proof (element_in_range arr_stride e 1 (arr_len - 1) k Hs Hk) as Hbody.
  repeat case_test; try (exfalso; lia); try (f_equal; lia); try (f_equal; nia).
Qed.

(** Two blocks that agree on every byte of every element agree everywhere. *)
Lemma block_ext_elements (arr_stride : Z) (b1 b2 : block) :
  0 < arr_stride ->
  (forall e k : Z, 0 <= k < arr_stride ->
                   b1 (e * arr_stride + k) = b2 (e * arr_stride + k)) ->
  forall a : Z, b1 a = b2 a.
Proof.
  intros Hs H a. destruct (offset_decompose arr_stride a Hs) as [Hdec Hmod].
  rewrite Hdec. apply H. exact Hmod.
Qed.

(** A description of a block element by element also tells that the bytes
    before and after the array are the old ones. *)
Lemma outside_unchanged (arr_len arr_stride : Z) (index : Z -> Z) (arr arr' : block) :
  0 < arr_stride -> 0 <= arr_len ->
  (forall e k : Z,
      0 <= k < arr_stride ->
      arr' (e * arr_stride + k) =
      if (0 <=? e) && (e <? arr_len)
      then arr (index e * arr_stride + k)
      else arr (e * arr_stride + k)) ->
  forall a : Z, a < 0 \/ arr_len * arr_stride <= a -> arr' a = arr a.
Proof.
  intros Hs Hlen H a Ha. destruct (offset_decompose arr_stride a Hs) as [Hdec Hmod].
  rewrite Hdec. rewrite (H _ _ Hmod).
  replace ((0 <=? a / arr_stride) && (a / arr_stride <? arr_len)) with false;
    [reflexivity |].
  symmetry. apply andb_false_iff. destruct Ha as [Hneg | Hpast].
  - left. apply Z.leb_gt. apply Z.div_lt_upper_bound; lia.
  - right. apply Z.ltb_ge. apply Z.div_le_lower_bound; lia.
Qed.

(** X1: [_bli_array_wrap] rotates by one element.  With [dir = -1] every
    element moves one index towards the front and the first becomes the
    last; with [dir = 1] every element moves one index towards the back and
    the last becomes the first; any other [dir] trips the assertion.  Bytes
    outside the array are left alone. *)
Theorem array_wrap_rotates (arr : block) (arr_len arr_stride : Z) :
  1 <= arr_len < uint_modulus -> 0 < arr_stride ->
  arr_len * arr_stride < size_t_modulus ->
  (exists front : block,
      _bli_array_wrap arr arr_len arr_stride (-1) = Finished front /\
      (forall i k : Z,
          0 <= i < arr_len -> 0 <= k < arr_stride ->
          front (i * arr_stride + k) =
          arr ((if i =? arr_len - 1 then 0 else i + 1) * arr_stride + k)) /\
      (forall a : Z, a < 0 \/ arr_len * arr_stride <= a -> front a = arr a)) /\
  (exists back : block,
      _bli_array_wrap arr arr_len arr_stride 1 = Finished back /\
      (forall i k : Z,
          0 <= i < arr_len -> 0 <= k < arr_stride ->
          back (i * arr_stride + k) =
          arr ((if i =? 0 then arr_len - 1 else i - 1) * arr_stride + k)) /\
      (forall a : Z, a < 0 \/ arr_len * arr_stride <= a -> back a = arr a)) /\
  (forall dir : Z,
      dir <> -1 -> dir <> 1 ->
      _bli_array_wrap arr arr_len arr_stride dir = AssertFailed).
Proof.
  intros Hlen Hs Hfit. split; [| split].
  - destruct (wrap_front_elements arr arr_len arr_stride Hlen Hs Hfit) as [front [Hrun Hel]].
    exists front. split; [exact Hrun |]. split.
    + intros i k Hi Hk. rewrite (Hel i k Hk). unfold next_index.
      replace ((0 <=? i) && (i <? arr_len)) with true; [reflexivity |].
      symmetry. apply andb_true_iff. split; [apply Z.leb_le | apply Z.ltb_lt]; lia.
    + apply (outside_unchanged arr_len arr_stride (next_index arr_len)); [lia | lia | exact Hel].
  - destruct (wrap_back_elements arr arr_len arr_stride Hlen Hs Hfit) as [back [Hrun Hel]].
    exists back. split; [exact Hrun |]. split.
    + intros i k Hi Hk. rewrite (Hel i k Hk). unfold prev_index.
      replace ((0 <=? i) && (i <? arr_len)) with true; [reflexivity |].
      symmetry. apply andb_true_iff. split; [apply Z.leb_le | apply Z.ltb_lt]; lia.
    + apply (outside_unchanged arr_len arr_stride (prev_index arr_len)); [lia | lia | exact Hel].
  - intros dir Hfront Hback. unfold _bli_array_wrap.
    apply Z.eqb_neq in Hfront, Hback. rewrite Hfront, Hback. reflexivity.
Qed.

Definition sample_six : block := block_of_list [x01; x02; x03; x04; x05; x06].

Lemma array_wrap_rotates_witness :
  (exists front : block,
      _bli_array_wrap sample_six 3 2 (-1) = Finished front /\
      (forall i k : Z,
          0 <= i < 3 -> 0 <= k < 2 ->
          front (i * 2 + k) = sample_six ((if i =? 3 - 1 then 0 else i + 1) * 2 + k)) /\
      (forall a : Z, a < 0 \/ 3 * 2 <= a -> front a = sample_six a)) /\
  (exists back : block,
      _bli_array_wrap sample_six 3 2 1 = Finished back /\
      (forall i k : Z,
          0 <= i < 3 -> 0 <= k < 2 ->
          back (i * 2 + k) = sample_six ((if i =? 0 then 3 - 1 else i - 1) * 2 + k)) /\
      (forall a : Z, a < 0 \/ 3 * 2 <= a -> back a = sample_six a)) /\
  (forall dir : Z,
      dir <> -1 -> dir <> 1 -> _bli_array_wrap sample_six 3 2 dir = AssertFailed).
Proof.
  apply (array_wrap_rotates sample_six 3 2).
  - unfold uint_modulus. change (2 ^ 32) with 4294967296. lia.
  - lia.
  - unfold size_t_modulus. change (2 ^ 64) with 18446744073709551616. lia.
Defined.

(** X2: for an array of at least one element ([1 <= arr_len]) with a
    positive [arr_stride] that fits the address space
    ([arr_len * arr_stride < 2^64]): rotating towards the front and then
    towards the back, or the other way round, restores every byte. *)
Theorem array_wrap_round_trip (arr : block) (arr_len arr_stride : Z) :
  1 <= arr_len < uint_modulus -> 0 < arr_stride ->
  arr_len * arr_stride < size_t_modulus ->
  (exists front both : block,
      _bli_array_wrap arr arr_len arr_stride (-1) = Finished front /\
      _bli_array_wrap front arr_len arr_stride 1 = Finished both /\
      forall a : Z, both a = arr a) /\
  (exists back both : block,
      _bli_array_wrap arr arr_len arr_stride 1 = Finished back /\
      _bli_array_wrap back arr_len arr_stride (-1) = Finished both /\
      forall a : Z, both a = arr a).
Proof.
  intros Hlen Hs Hfit. split.
  - destruct (wrap_front_elements arr arr_len arr_stride Hlen Hs Hfit) as [front [Hrun1 Hel1]].
    destruct (wrap_back_elements front arr_len arr_stride Hlen Hs Hfit) as [both [Hrun2 Hel2]].
    exists front, both. split; [exact Hrun1 |]. split; [exact Hrun2 |].
    apply (block_ext_elements arr_stride); [exact Hs |].
    intros e k Hk. rewrite (Hel2 e k Hk).
    destruct ((0 <=? e) && (e <? arr_len)) eqn:Hin; zbool Hin.
    + rewrite (Hel1 _ k Hk). unfold prev_index.
      destruct (e =? 0) eqn:Hzero; zbool Hzero; unfold next_index;
        repeat case_test; try (exfalso; lia); f_equal; lia.
    + rewrite (Hel1 e k Hk).
      replace ((0 <=? e) && (e <? arr_len)) with false; [reflexivity |].
      symmetry. apply andb_false_iff. rewrite Z.leb_gt, Z.ltb_ge. exact Hin.
  - destruct (wrap_back_elements arr arr_len arr_stride Hlen Hs Hfit) as [back [Hrun1 Hel1]].
    destruct (wrap_front_elements back arr_len arr_stride Hlen Hs Hfit) as [both [Hrun2 Hel2]].
    exists back, both. split; [exact Hrun1 |]. split; [exact Hrun2 |].
    apply (block_ext_elements arr_stride); [exact Hs |].
    intros e k Hk. rewrite (Hel2 e k Hk).
    destruct ((0 <=? e) && (e <? arr_len)) eqn:Hin; zbool Hin.
    + rewrite (Hel1 _ k Hk). unfold next_index.
      destruct (e =? arr_len - 1) eqn:Hlast; zbool Hlast; unfold prev_index;
        repeat case_test; try (exfalso; lia); f_equal; lia.
    + rewrite (Hel1 e k Hk).
      replace ((0 <=? e) && (e <? arr_len)) with false; [reflexivity |].
      symmetry. apply andb_false_iff. rewrite Z.leb_gt, Z.ltb_ge. exact Hin.
Qed.

Lemma array_wrap_round_trip_witness :
  (exists front both : block,
      _bli_array_wrap sample_six 3 2 (-1) = Finished front /\
      _bli_array_wrap front 3 2 1 = Finished both /\
      forall a : Z, both a = sample_six a) /\
  (exists back both : block,
      _bli_array_wrap sample_six 3 2 1 = Finished back /\
      _bli_array_wrap back 3 2 (-1) = Finished both /\
      forall a : Z, both a = sample_six a).
Proof.
  apply (array_wrap_round_trip sample_six 3 2).
  - unfold uint_modulus. change (2 ^ 32) with 4294967296. lia.
  - lia.
  - unfold size_t_modulus. change (2 ^ 64) with 18446744073709551616. lia.
Defined.

(** *** [_bli_array_permute] *)

Section Permute.

Variables arr0 arr_orig : block.
Variables arr_len arr_stride : Z.
Variable order : Z -> Z.
Hypothesis stride_pos : 0 < arr_stride.
Hypothesis len_nonneg : 0 <= arr_len.
Hypothesis offsets_fit : arr_len * arr_stride < uint_modulus.

(** After [i] iterations the first [i] elements are the permuted ones, read
    from the copy, and the rest is untouched. *)
Definition partially_permuted (i : Z) (arr : block) : Prop :=
  forall e k : Z,
    0 <= k < arr_stride ->
    arr (e * arr_stride + k) =
    if (0 <=? e) && (e <? i)
    then arr_orig (order e * arr_stride + k)
    else arr0 (e * arr_stride + k).

Lemma permute_loop_spec (fuel : nat) :
  (forall i : Z, 0 <= i < arr_len -> 0 <= order i < arr_len) ->
  forall (i : Z) (arr : block),
    0 <= i <= arr_len ->
    Z.of_nat fuel = arr_len - i ->
    partially_permuted i arr ->
    exists arr' : block,
      permute_loop fuel arr_len arr_stride arr_stride order arr arr_orig i
        = Finished arr' /\
      partially_permuted arr_len arr'.
Proof.
  intros Horder. induction fuel as [| fuel IH]; intros i arr Hi Hfuel Hinv.
  - assert (i = arr_len) as -> by lia.
    exists arr. cbn [permute_loop]. rewrite Z.ltb_irrefl. split; [reflexivity | exact Hinv].
  - cbn [permute_loop].
    assert (i < arr_len) as Hlt by lia.
    apply Z.ltb_lt in Hlt as Hltb. rewrite Hltb.
    pose proof (Horder i ltac:(lia)) as Ho.
    replace (order i <? arr_len) with true by (symmetry; apply Z.ltb_lt; lia).
    rewrite (to_uint_small (arr_stride * i)) by nia.
    rewrite (to_uint_small (arr_stride * order i)) by nia.
    rewrite (to_uint_small (i + 1)) by nia.
    apply IH; [lia | lia |].
    intros e k Hk. unfold memcpy.
    pose proof (element_in_range arr_stride e i 1 k stride_pos Hk) as Hcur.
    rewrite (Hinv e k Hk).
    repeat case_test; try (exfalso; lia); try reflexivity.
    f_equal. assert (e = i) as -> by lia. lia.
Qed.

(** An out-of-range entry of [order] trips the assertion. *)
Lemma permute_loop_assert (fuel : nat) :
  forall (i bad : Z) (arr : block),
    0 <= i <= bad -> bad < arr_len ->
    Z.of_nat fuel = arr_len - i ->
    arr_len <= order bad ->
    permute_loop fuel arr_len arr_stride arr_stride order arr arr_orig i
      = AssertFailed.
Proof.
  induction fuel as [| fuel IH]; intros i bad arr Hi Hbad Hfuel Hout; [lia |].
  cbn [permute_loop].
  replace (i <? arr_len) with true by (symmetry; apply Z.ltb_lt; lia).
  destruct (order i <? arr_len) eqn:Hin; [| reflexivity].
  apply Z.ltb_lt in Hin.
  rewrite (to_uint_small (i + 1)) by nia.
  apply (IH (i + 1) bad); try lia.
  destruct (Z.eq_dec i bad) as [-> | Hne]; lia.
Qed.

End Permute.

(** The contents after a call, element by element. *)
Lemma permute_elements (arr : block) (arr_len arr_stride : Z) (order : Z -> Z)
    (arr_temp : option block) :
  0 < arr_stride -> 0 <= arr_len -> arr_len * arr_stride < uint_modulus ->
  (forall i : Z, 0 <= i < arr_len -> 0 <= order i < arr_len) ->
  exists (arr' : block) (temp' : option block),
    _bli_array_permute arr arr_len arr_stride order arr_temp = Finished (arr', temp') /\
    (forall e k : Z,
        0 <= k < arr_stride ->
        arr' (e * arr_stride + k) =
        if (0 <=? e) && (e <? arr_len)
        then arr (order e * arr_stride + k)
        else arr (e * arr_stride + k)) /\
    temp' =
      match arr_temp with
      | None => None
      | Some temp => Some (memcpy temp 0 arr 0 (arr_len * arr_stride))
      end.
Proof.
  intros Hs Hlen Hfit Horder. unfold _bli_array_permute.
  assert (uint_modulus < size_t_modulus) as Hmod by reflexivity.
  rewrite (to_size_t_small (arr_len * arr_stride)) by nia.
  destruct (Z.eq_dec arr_len 0) as [-> | Hnz].
  - cbn [Z.to_nat permute_loop Z.ltb Z.compare].
    eexists _, _. split; [reflexivity |]. split; [| destruct arr_temp; reflexivity].
    intros e k Hk. repeat case_test; try (exfalso; lia); reflexivity.
  - rewrite (to_uint_small arr_stride) by nia.
    set (orig := memcpy match arr_temp with
                        | Some temp => temp
                        | None => alloca_buffer
                        end 0 arr 0 (arr_len * arr_stride)).
    destruct (permute_loop_spec arr orig arr_len arr_stride order Hs Hlen Hfit
                (Z.to_nat arr_len) Horder 0 arr) as [arr' [Hrun Hinv]]; [lia | lia | |].
    + intros e k Hk. repeat case_test; try (exfalso; lia); reflexivity.
    + rewrite Hrun. eexists _, _. split; [reflexivity |].
      split; [| destruct arr_temp; reflexivity].
      intros e k Hk. rewrite (Hinv e k Hk).
      destruct ((0 <=? e) && (e <? arr_len)) eqn:Hin; [| reflexivity].
      zbool Hin. pose proof (Horder e Hin) as Ho.
      unfold orig, memcpy.
      replace ((0 <=? order e * arr_stride + k)
               && (order e * arr_stride + k <? 0 + arr_len * arr_stride)) with true.
      * f_equal. lia.
      * symmetry. apply andb_true_iff. split; [apply Z.leb_le | apply Z.ltb_lt]; nia.
Qed.

(** X3: [_bli_array_permute] puts the original element [order[i]] at every
    index [i] (entries of [order] may repeat), leaves the bytes outside the
    array alone, and overwrites a non-null [arr_temp] with a copy of the
    original array. *)
Theorem array_permute_spec (arr : block) (arr_len arr_stride : Z) (order : Z -> Z)
    (arr_temp : option block) :
  0 < arr_stride -> 0 <= arr_len -> arr_len * arr_stride < uint_modulus ->
  (forall i : Z, 0 <= i < arr_len -> 0 <= order i < arr_len) ->
  exists (arr' : block) (temp' : option block),
    _bli_array_permute arr arr_len arr_stride order arr_temp = Finished (arr', temp') /\
    (forall i k : Z,
        0 <= i < arr_len -> 0 <= k < arr_stride ->
        arr' (i * arr_stride + k) = arr (order i * arr_stride + k)) /\
    (forall a : Z, a < 0 \/ arr_len * arr_stride <= a -> arr' a = arr a) /\
    match arr_temp, temp' with
    | None, None => True
    | Some temp, Some after =>
        (forall a : Z, 0 <= a < arr_len * arr_stride -> after a = arr a) /\
        (forall a : Z, a < 0 \/ arr_len * arr_stride <= a -> after a = temp a)
    | _, _ => False
    end.
Proof.
  intros Hs Hlen Hfit Horder.
  destruct (permute_elements arr arr_len arr_stride order arr_temp Hs Hlen Hfit Horder)
    as (arr' & temp' & Hrun & Hel & Htemp).
  exists arr', temp'. split; [exact Hrun |]. split; [| split].
  - intros i k Hi Hk. rewrite (Hel i k Hk).
    replace ((0 <=? i) && (i <? arr_len)) with true; [reflexivity |].
    symmetry. apply andb_true_iff. split; [apply Z.leb_le | apply Z.ltb_lt]; lia.
  - apply (outside_unchanged arr_len arr_stride order); [exact Hs | exact Hlen | exact Hel].
  - subst temp'. destruct arr_temp as [temp |]; [| exact I].
    split; intros a Ha; unfold memcpy; case_test; try (exfalso; lia); try reflexivity.
    f_equal. lia.
Qed.

Definition rotate_order (i : Z) : Z := if i =? 0 then 2 else if i =? 1 then 0 else 1.

Lemma rotate_order_range (i : Z) : 0 <= i < 3 -> 0 <= rotate_order i < 3.
Proof. intros Hi. unfold rotate_order. repeat case_test; lia. Qed.

Lemma array_permute_spec_witness :
  exists (arr' : block) (temp' : option block),
    _bli_array_permute sample_six 3 2 rotate_order (Some alloca_buffer)
      = Finished (arr', temp') /\
    (forall i k : Z,
        0 <= i < 3 -> 0 <= k < 2 ->
        arr' (i * 2 + k) = sample_six (rotate_order i * 2 + k)) /\
    (forall a : Z, a < 0 \/ 3 * 2 <= a -> arr' a = sample_six a) /\
    match Some alloca_buffer, temp' with
    | None, None => True
    | Some temp, Some after =>
        (forall a : Z, 0 <= a < 3 * 2 -> after a = sample_six a) /\
        (forall a : Z, a < 0 \/ 3 * 2 <= a -> after a = temp a)
    | _, _ => False
    end.
Proof.
  apply (array_permute_spec sample_six 3 2 rotate_order (Some alloca_buffer)).
  - lia.
  - lia.
  - unfold uint_modulus. change (2 ^ 32) with 4294967296. lia.
  - exact rotate_order_range.
Defined.

(** X4: an entry of [order] that is not below [arr_len] trips the
    assertion of [_bli_array_permute]. *)
Theorem array_permute_asserts (arr : block) (arr_len arr_stride : Z) (order : Z -> Z)
    (arr_temp : option block) (bad : Z) :
  0 < arr_stride -> arr_len * arr_stride < uint_modulus ->
  0 <= bad < arr_len -> arr_len <= order bad ->
  _bli_array_permute arr arr_len arr_stride order arr_temp = AssertFailed.
Proof.
  intros Hs Hfit Hbad Hout. unfold _bli_array_permute.
  rewrite (to_uint_small arr_stride) by nia.
  rewrite (permute_loop_assert _ arr_len arr_stride order Hs ltac:(lia) Hfit
             (Z.to_nat arr_len) 0 bad); try lia.
  reflexivity.
Qed.

Lemma array_permute_asserts_witness :
  _bli_array_permute sample_six 3 2 (fun i => i + 1) None = AssertFailed.
Proof.
  apply (array_permute_asserts sample_six 3 2 (fun i => i + 1) None 2).
  - lia.
  - unfold uint_modulus. change (2 ^ 32) with 4294967296. lia.
  - lia.
  - lia.
Defined.

(** X5: for a positive [arr_stride], byte offsets that fit [uint]
    ([arr_len * arr_stride < 2^32]) and orders whose entries are all below
    [arr_len]: permutations compose like the orders they are given:
    permuting by [order1] and then by [order2] puts the original element
    [order1[order2[i]]] at index [i]; the identity order changes nothing. *)
Theorem array_permute_compose (arr : block) (arr_len arr_stride : Z)
    (order1 order2 : Z -> Z) :
  0 < arr_stride -> 0 <= arr_len -> arr_len * arr_stride < uint_modulus ->
  (forall i : Z, 0 <= i < arr_len -> 0 <= order1 i < arr_len) ->
  (forall i : Z, 0 <= i < arr_len -> 0 <= order2 i < arr_len) ->
  (exists first second : block,
      _bli_array_permute arr arr_len arr_stride order1 None = Finished (first, None) /\
      _bli_array_permute first arr_len arr_stride order2 None = Finished (second, None) /\
      forall i k : Z,
        0 <= i < arr_len -> 0 <= k < arr_stride ->
        second (i * arr_stride + k) = arr (order1 (order2 i) * arr_stride + k)) /\
  (exists same : block,
      _bli_array_permute arr arr_len arr_stride (fun i => i) None = Finished (same, None) /\
      forall a : Z, same a = arr a).
Proof.
  intros Hs Hlen Hfit Ho1 Ho2. split.
  - destruct (permute_elements arr arr_len arr_stride order1 None Hs Hlen Hfit Ho1)
      as (first & t1 & Hrun1 & Hel1 & ->).
    destruct (permute_elements first arr_len arr_stride order2 None Hs Hlen Hfit Ho2)
      as (second & t2 & Hrun2 & Hel2 & ->).
    exists first, second. split; [exact Hrun1 |]. split; [exact Hrun2 |].
    intros i k Hi Hk. rewrite (Hel2 i k Hk).
    replace ((0 <=? i) && (i <? arr_len)) with true
      by (symmetry; apply andb_true_iff; split; [apply Z.leb_le | apply Z.ltb_lt]; lia).
    rewrite (Hel1 _ k Hk). pose proof (Ho2 i Hi) as Hin.
    replace ((0 <=? order2 i) && (order2 i <? arr_len)) with true; [reflexivity |].
    symmetry. apply andb_true_iff. split; [apply Z.leb_le | apply Z.ltb_lt]; lia.
  - destruct (permute_elements arr arr_len arr_stride (fun i => i) None Hs Hlen Hfit)
      as (same & t & Hrun & Hel & ->); [intros i Hi; exact Hi |].
    exists same. split; [exact Hrun |].
    apply (block_ext_elements arr_stride); [exact Hs |].
    intros e k Hk. rewrite (Hel e k Hk). case_test; reflexivity.
Qed.

Definition swap_order (i : Z) : Z := if i =? 0 then 1 else if i =? 1 then 0 else 2.

Lemma swap_order_range (i : Z) : 0 <= i < 3 -> 0 <= swap_order i < 3.
Proof. intros Hi. unfold swap_order. repeat case_test; lia. Qed.

Lemma array_permute_compose_witness :
  (exists first second : block,
      _bli_array_permute sample_six 3 2 rotate_order None = Finished (first, None) /\
      _bli_array_permute first 3 2 swap_order None = Finished (second, None) /\
      forall i k : Z,
        0 <= i < 3 -> 0 <= k < 2 ->
        second (i * 2 + k) = sample_six (rotate_order (swap_order i) * 2 + k)) /\
  (exists same : block,
      _bli_array_permute sample_six 3 2 (fun i => i) None = Finished (same, None) /\
      forall a : Z, same a = sample_six a).
Proof.
  apply (array_permute_compose sample_six 3 2 rotate_order swap_order).
  - lia.
  - lia.
  - unfold uint_modulus. change (2 ^ 32) with 4294967296. lia.
  - exact rotate_order_range.
  - exact swap_order_range.
Defined.

(** X6: [_bli_array_reverse] agrees with [_bli_array_permute] given the
    reversing order [i -> arr_len - 1 - i]: both leave the same bytes. *)
Theorem array_reverse_is_permute (arr : block) (arr_len arr_stride : Z) :
  0 < arr_stride -> 0 <= arr_len -> arr_len * arr_stride < uint_modulus ->
  exists reversed permuted : block,
    _bli_array_reverse arr arr_len arr_stride = Some reversed /\
    _bli_array_permute arr arr_len arr_stride (fun i => arr_len - 1 - i) None
      = Finished (permuted, None) /\
    forall a : Z, reversed a = permuted a.
Proof.
  intros Hs Hlen Hfit.
  destruct (reverse_elements arr arr_len arr_stride) as [reversed [Hrun1 Hel1]];
    [nia | exact Hs | right; nia |].
  destruct (permute_elements arr arr_len arr_stride (fun i => arr_len - 1 - i) None
              Hs Hlen Hfit) as (permuted & t & Hrun2 & Hel2 & ->);
    [intros i Hi; lia |].
  exists reversed, permuted. split; [exact Hrun1 |]. split; [exact Hrun2 |].
  apply (block_ext_elements arr_stride); [exact Hs |].
  intros e k Hk. rewrite (Hel1 e k Hk), (Hel2 e k Hk). reflexivity.
Qed.

Lemma array_reverse_is_permute_witness :
  exists reversed permuted : block,
    _bli_array_reverse sample_six 3 2 = Some reversed /\
    _bli_array_permute sample_six 3 2 (fun i => 3 - 1 - i) None
      = Finished (permuted, None) /\
    forall a : Z, reversed a = permuted a.
Proof.
  apply (array_reverse_is_permute sample_six 3 2).
  - lia.
  - lia.
  - unfold uint_modulus. change (2 ^ 32) with 4294967296. lia.
Defined.

(** X7: for an array of at least one element ([1 <= arr_len]) with a
    positive [arr_stride] and byte offsets that fit [uint]
    ([arr_len * arr_stride < 2^32]): rotation and reversal compose:
    reversing, rotating towards the front and reversing again leaves the same
    bytes as rotating towards the back. *)
Theorem array_reverse_wrap_reverse (arr : block) (arr_len arr_stride : Z) :
  0 < arr_stride -> 1 <= arr_len -> arr_len * arr_stride < uint_modulus ->
  exists r1 w r2 back : block,
    _bli_array_reverse arr arr_len arr_stride = Some r1 /\
    _bli_array_wrap r1 arr_len arr_stride (-1) = Finished w /\
    _bli_array_reverse w arr_len arr_stride = Some r2 /\
    _bli_array_wrap arr arr_len arr_stride 1 = Finished back /\
    forall a : Z, r2 a = back a.
Proof.
  intros Hs Hlen Hfit.
  assert (uint_modulus < size_t_modulus) as Hmod by reflexivity.
  assert (0 <= arr_len < uint_modulus) as Hlen' by nia.
  assert (arr_len <= 1 \/ (arr_len - 1) * arr_stride < uint_modulus) as Hoff
    by (right; nia).
  destruct (reverse_elements arr arr_len arr_stride Hlen' Hs Hoff) as [r1 [Hrun1 Hel1]].
  destruct (wrap_front_elements r1 arr_len arr_stride) as [w [Hrun2 Hel2]];
    [lia | exact Hs | lia |].
  destruct (reverse_elements w arr_len arr_stride Hlen' Hs Hoff) as [r2 [Hrun3 Hel3]].
  destruct (wrap_back_elements arr arr_len arr_stride) as [back [Hrun4 Hel4]];
    [lia | exact Hs | lia |].
  exists r1, w, r2, back. repeat (split; [assumption |]).
  apply (block_ext_elements arr_stride); [exact Hs |].
  intros e k Hk. rewrite (Hel3 e k Hk), (Hel4 e k Hk).
  destruct ((0 <=? e) && (e <? arr_len)) eqn:Hin; zbool Hin.
  - rewrite (Hel2 _ k Hk).
    replace ((0 <=? arr_len - 1 - e) && (arr_len - 1 - e <? arr_len)) with true
      by (symmetry; apply andb_true_iff; split; [apply Z.leb_le | apply Z.ltb_lt]; lia).
    rewrite (Hel1 _ k Hk). unfold next_index, prev_index.
    destruct (e =? 0) eqn:Hzero; zbool Hzero;
      repeat case_test; try (exfalso; lia); f_equal; lia.
  - rewrite (Hel2 e k Hk).
    replace ((0 <=? e) && (e <? arr_len)) with false
      by (symmetry; apply andb_false_iff; rewrite Z.leb_gt, Z.ltb_ge; exact Hin).
    rewrite (Hel1 e k Hk).
    replace ((0 <=? e) && (e <? arr_len)) with false
      by (symmetry; apply andb_false_iff; rewrite Z.leb_gt, Z.ltb_ge; exact Hin).
    reflexivity.
Qed.

Lemma array_reverse_wrap_reverse_witness :
  exists r1 w r2 back : block,
    _bli_array_reverse sample_six 3 2 = Some r1 /\
    _bli_array_wrap r1 3 2 (-1) = Finished w /\
    _bli_array_reverse w 3 2 = Some r2 /\
    _bli_array_wrap sample_six 3 2 1 = Finished back /\
    forall a : Z, r2 a = back a.
Proof.
  apply (array_reverse_wrap_reverse sample_six 3 2).
  - lia.
  - lia.
  - unfold uint_modulus. change (2 ^ 32) with 4294967296. lia.
Defined.

End ArrayOps.

(** ** Generic array manipulation API: byte-wise operations *)

Module ArrayBytes.
Import Stdlib.Init.Byte.
Import ArrayUtils.
Import ArrayOps.
#[local] Open Scope Z_scope.

(** [a & b] and [a | b] on two [char] operands, converted back to [char]. *)
Definition byte_and (x y : byte) : byte :=
  match Byte.of_N (N.land (Byte.to_N x) (Byte.to_N y)) with
  | Some b => b
  | None => x00
  end.

Definition byte_or (x y : byte) : byte :=
  match Byte.of_N (N.lor (Byte.to_N x) (Byte.to_N y)) with
  | Some b => b
  | None => x00
  end.

(** [*p = v] in a memory addressed by byte. *)
Definition store (mem : block) (p : Z) (v : byte) : block :=
  fun a => if a =? p then v else mem a.

(** The bytes from the pointer [p] on, as the block a callee sees. *)
Definition at_pointer (mem : block) (p : Z) : block := fun k => mem (p + k).

(** The [while (i--)] loop shared by [_bli_array_binary_and] and
    [_bli_array_binary_or]: [dst], [src_a] and [src_b] point into the one
    memory [mem]. *)
Fixpoint binary_loop (op : byte -> byte -> byte) (fuel : nat) (mem : block)
    (dst src_a src_b i : Z) : outcome block :=
  if negb (i =? 0) then
    match fuel with
    | O => NoFuel
    | S fuel' =>
        let i := to_size_t (i - 1) in
        let mem := store mem dst (op (mem src_a) (mem src_b)) in
        binary_loop op fuel' mem (dst + 1) (src_a + 1) (src_b + 1) i
    end
  else Finished mem.

(** [void _bli_array_binary_and(void *arr, const void *arr_a, const void *arr_b,
    uint arr_len, size_t arr_stride)]: the memory after the call. *)
Definition _bli_array_binary_and (mem : block) (arr arr_a arr_b : Z)
    (arr_len arr_stride : Z) : outcome block :=
  let dst := arr in
  let src_a := arr_a in
  let src_b := arr_b in
  let i := to_size_t (arr_stride * arr_len) in
  binary_loop byte_and (Z.to_nat i) mem dst src_a src_b i.

(** [void _bli_array_binary_or(void *arr, const void *arr_a, const void *arr_b,
    uint arr_len, size_t arr_stride)]: the memory after the call. *)
Definition _bli_array_binary_or (mem : block) (arr arr_a arr_b : Z)
    (arr_len arr_stride : Z) : outcome block :=
  let dst := arr in
  let src_a := arr_a in
  let src_b := arr_b in
  let i := to_size_t (arr_stride * arr_len) in
  binary_loop byte_or (Z.to_nat i) mem dst src_a src_b i.

(** The [while (i--)] loop of [_bli_array_is_zeroed]. *)
Fixpoint is_zeroed_loop (fuel : nat) (arr : block) (arr_step i : Z) : outcome bool :=
  if negb (i =? 0) then
    match fuel with
    | O => NoFuel
    | S fuel' =>
        let i := to_size_t (i - 1) in
        if negb (byte_value (arr arr_step) =? 0) then Finished false
        else is_zeroed_loop fuel' arr (arr_step + 1) i
    end
  else Finished true.

(** [bool _bli_array_is_zeroed(const void *arr_v, uint arr_len, size_t arr_stride)]. *)
Definition _bli_array_is_zeroed (arr_v : block) (arr_len arr_stride : Z) : outcome bool :=
  let arr_step := 0 in
  let i := to_size_t (arr_stride * arr_len) in
  is_zeroed_loop (Z.to_nat i) arr_v arr_step i.

Example binary_and_in_place :
  match _bli_array_binary_and (block_of_list [x0f; xf0; xff; x3c; x3c; x0f]) 0 0 3 3 1 with
  | Finished m => block_to_list m 6
  | _ => []
  end = [x0c; x30; x0f; x3c; x3c; x0f].
Proof. reflexivity. Qed.

Example binary_or_apart :
  match _bli_array_binary_or (block_of_list [x00; x00; x01; x02; x10; x20]) 0 2 4 1 2 with
  | Finished m => block_to_list m 6
  | _ => []
  end = [x11; x22; x01; x02; x10; x20].
Proof. reflexivity. Qed.

Example is_zeroed_examples :
  _bli_array_is_zeroed (block_of_list [x00; x00; x00; x01]) 3 1 = Finished true /\
  _bli_array_is_zeroed (block_of_list [x00; x00; x00; x01]) 2 2 = Finished false /\
  _bli_array_is_zeroed (block_of_list [x01]) 0 4 = Finished true.
Proof. repeat split. Qed.

(** *** Bytes *)

Lemma to_N_inj (x y : byte) : Byte.to_N x = Byte.to_N y -> x = y.
Proof.
  intros H. pose proof (Byte.of_to_N x) as Hx. pose proof (Byte.of_to_N y) as Hy.
  rewrite H in Hx. rewrite Hx in Hy. injection Hy as ->. reflexivity.
Qed.

Lemma to_N_byte_and (x y : byte) :
  Byte.to_N (byte_and x y) = N.land (Byte.to_N x) (Byte.to_N y).
Proof.
  unfold byte_and.
  destruct (Byte.of_N (N.land (Byte.to_N x) (Byte.to_N y))) as [b |] eqn:Hb.
  - apply Byte.to_of_N. exact Hb.
  - apply Byte.of_N_None_iff in Hb.
    pose proof (N.land_le_l (Byte.to_N x) (Byte.to_N y)) as Hle.
    pose proof (Byte.to_N_bounded x) as Hx. lia.
Qed.

Lemma lor_bounded (a b : N) : (a <= 255 -> b <= 255 -> N.lor a b <= 255)%N.
Proof.
  intros Ha Hb.
  destruct (N.eq_dec (N.lor a b) 0%N) as [-> | Hnz]; [lia |].
  assert (N.lor a b < 2 ^ 8)%N as Hlt; [| change (2 ^ 8)%N with 256%N in Hlt; lia].
  apply N.log2_lt_pow2; [lia |].
  rewrite N.log2_lor.
  assert (N.log2 a < 8)%N as Hla.
  { destruct (N.eq_dec a 0%N) as [-> | Hpos]; [reflexivity |].
    apply N.log2_lt_pow2; [lia |]. change (2 ^ 8)%N with 256%N. lia. }
  assert (N.log2 b < 8)%N as Hlb.
  { destruct (N.eq_dec b 0%N) as [-> | Hpos]; [reflexivity |].
    apply N.log2_lt_pow2; [lia |]. change (2 ^ 8)%N with 256%N. lia. }
  lia.
Qed.

Lemma to_N_byte_or (x y : byte) :
  Byte.to_N (byte_or x y) = N.lor (Byte.to_N x) (Byte.to_N y).
Proof.
  unfold byte_or.
  destruct (Byte.of_N (N.lor (Byte.to_N x) (Byte.to_N y))) as [b |] eqn:Hb.
  - apply Byte.to_of_N. exact Hb.
  - apply Byte.of_N_None_iff in Hb.
    pose proof (lor_bounded _ _ (Byte.to_N_bounded x) (Byte.to_N_bounded y)). lia.
Qed.

Lemma byte_zero (x : byte) : x = x00 <-> Byte.to_N x = 0%N.
Proof.
  split; [intros ->; reflexivity |].
  intros H. apply to_N_inj. rewrite H. reflexivity.
Qed.

Lemma byte_value_zero (x : byte) : (byte_value x =? 0) = true <-> x = x00.
Proof. rewrite Z.eqb_eq, byte_zero. unfold byte_value. lia. Qed.

Lemma byte_or_zero (x y : byte) : byte_or x y = x00 <-> x = x00 /\ y = x00.
Proof. rewrite !byte_zero, to_N_byte_or. apply N.lor_eq_0_iff. Qed.

Lemma byte_and_zero_l (y : byte) : byte_and x00 y = x00.
Proof. apply byte_zero. rewrite to_N_byte_and. reflexivity. Qed.

Lemma byte_and_zero_r (x : byte) : byte_and x x00 = x00.
Proof. apply byte_zero. rewrite to_N_byte_and. apply N.land_0_r. Qed.

(** *** [_bli_array_binary_and], [_bli_array_binary_or] *)

Section Binary.

Variable op : byte -> byte -> byte.
Variable mem0 : block.
Variables arr arr_a arr_b n : Z.
Hypothesis count_fits : 0 <= n < size_t_modulus.
(** Neither source starts strictly inside the part of the destination that
    is written before it is read. *)
Hypothesis a_not_behind : arr <= arr_a \/ arr_a + n <= arr.
Hypothesis b_not_behind : arr <= arr_b \/ arr_b + n <= arr.

(** After [k] iterations the first [k] destination bytes hold the results
    and every other byte is the original one. *)
Definition partially_combined (k : Z) (mem : block) : Prop :=
  forall x : Z,
    mem x =
    if (arr <=? x) && (x <? arr + k)
    then op (mem0 (arr_a + (x - arr))) (mem0 (arr_b + (x - arr)))
    else mem0 x.

Lemma binary_loop_spec (fuel : nat) :
  forall (k : Z) (mem : block),
    0 <= k <= n ->
    Z.of_nat fuel = n - k ->
    partially_combined k mem ->
    exists mem' : block,
      binary_loop op fuel mem (arr + k) (arr_a + k) (arr_b + k) (n - k) = Finished mem' /\
      partially_combined n mem'.
Proof.
  induction fuel as [| fuel IH]; intros k mem Hk Hfuel Hinv.
  - assert (k = n) as -> by lia.
    exists mem. cbn [binary_loop]. rewrite Z.sub_diag. split; [reflexivity | exact Hinv].
  - cbn [binary_loop].
    replace (n - k =? 0) with false by (symmetry; apply Z.eqb_neq; lia).
    cbn [negb]. rewrite (to_size_t_small (n - k - 1)) by lia.
    replace (n - k - 1) with (n - (k + 1)) by lia.
    replace (arr + k + 1) with (arr + (k + 1)) by lia.
    replace (arr_a + k + 1) with (arr_a + (k + 1)) by lia.
    replace (arr_b + k + 1) with (arr_b + (k + 1)) by lia.
    apply IH; [lia | lia |].
    intros x. unfold store.
    rewrite (Hinv (arr_a + k)), (Hinv (arr_b + k)), (Hinv x).
    repeat case_test; try (exfalso; lia); try reflexivity.
    subst x. f_equal; f_equal; lia.
Qed.

End Binary.

Lemma binary_run (op : byte -> byte -> byte) (mem : block)
    (arr arr_a arr_b arr_len arr_stride : Z) :
  0 <= arr_len -> 0 <= arr_stride -> arr_len * arr_stride < size_t_modulus ->
  arr <= arr_a \/ arr_a + arr_len * arr_stride <= arr ->
  arr <= arr_b \/ arr_b + arr_len * arr_stride <= arr ->
  exists mem' : block,
    binary_loop op (Z.to_nat (to_size_t (arr_stride * arr_len))) mem arr arr_a arr_b
      (to_size_t (arr_stride * arr_len)) = Finished mem' /\
    (forall k : Z,
        0 <= k < arr_len * arr_stride ->
        mem' (arr + k) = op (mem (arr_a + k)) (mem (arr_b + k))) /\
    (forall x : Z, x < arr \/ arr + arr_len * arr_stride <= x -> mem' x = mem x).
Proof.
  intros Hlen Hs Hfit Ha Hb.
  rewrite to_size_t_small by nia.
  replace (arr_stride * arr_len) with (arr_len * arr_stride) by lia.
  destruct (binary_loop_spec op mem arr arr_a arr_b (arr_len * arr_stride)
              ltac:(nia) Ha Hb (Z.to_nat (arr_len * arr_stride)) 0 mem)
    as [mem' [Hrun Hinv]]; [nia | nia | |].
  - intros x. case_test; [exfalso; lia | reflexivity].
  - rewrite !Z.add_0_r, Z.sub_0_r in Hrun.
    exists mem'. split; [exact Hrun |]. split.
    + intros k Hk. rewrite (Hinv (arr + k)).
      case_test; [| exfalso; lia]. f_equal; f_equal; lia.
    + intros x Hx. rewrite (Hinv x). case_test; [exfalso; lia | reflexivity].
Qed.

(** X8: [_bli_array_binary_and] and [_bli_array_binary_or] store in every
    byte of the destination the bitwise and / or of the bytes of the two
    sources at the same offset and leave every other byte alone; a source may
    be the destination itself (in-place use), or overlap it from behind or
    lie apart from it. *)
Theorem array_binary_and_or_spec (mem : block)
    (arr arr_a arr_b arr_len arr_stride : Z) :
  0 <= arr_len -> 0 <= arr_stride -> arr_len * arr_stride < size_t_modulus ->
  arr <= arr_a \/ arr_a + arr_len * arr_stride <= arr ->
  arr <= arr_b \/ arr_b + arr_len * arr_stride <= arr ->
  (exists mem' : block,
      _bli_array_binary_and mem arr arr_a arr_b arr_len arr_stride = Finished mem' /\
      (forall k : Z,
          0 <= k < arr_len * arr_stride ->
          mem' (arr + k) = byte_and (mem (arr_a + k)) (mem (arr_b + k))) /\
      (forall x : Z, x < arr \/ arr + arr_len * arr_stride <= x -> mem' x = mem x)) /\
  (exists mem' : block,
      _bli_array_binary_or mem arr arr_a arr_b arr_len arr_stride = Finished mem' /\
      (forall k : Z,
          0 <= k < arr_len * arr_stride ->
          mem' (arr + k) = byte_or (mem (arr_a + k)) (mem (arr_b + k))) /\
      (forall x : Z, x < arr \/ arr + arr_len * arr_stride <= x -> mem' x = mem x)).
Proof.
  intros Hlen Hs Hfit Ha Hb. split.
  - apply (binary_run byte_and); assumption.
  - apply (binary_run byte_or); assumption.
Qed.

Definition sample_masks : block := block_of_list [x0f; xf0; xff; x3c; x3c; x0f].

Lemma array_binary_and_or_spec_witness :
  (exists mem' : block,
      _bli_array_binary_and sample_masks 0 0 3 3 1 = Finished mem' /\
      (forall k : Z,
          0 <= k < 3 * 1 ->
          mem' (0 + k) = byte_and (sample_masks (0 + k)) (sample_masks (3 + k))) /\
      (forall x : Z, x < 0 \/ 0 + 3 * 1 <= x -> mem' x = sample_masks x)) /\
  (exists mem' : block,
      _bli_array_binary_or sample_masks 0 0 3 3 1 = Finished mem' /\
      (forall k : Z,
          0 <= k < 3 * 1 ->
          mem' (0 + k) = byte_or (sample_masks (0 + k)) (sample_masks (3 + k))) /\
      (forall x : Z, x < 0 \/ 0 + 3 * 1 <= x -> mem' x = sample_masks x)).
Proof.
  apply (array_binary_and_or_spec sample_masks 0 0 3 3 1).
  - lia.
  - lia.
  - unfold size_t_modulus. change (2 ^ 64) with 18446744073709551616. lia.
  - left. lia.
  - left. lia.
Defined.

(** *** [_bli_array_is_zeroed] *)

Lemma is_zeroed_loop_spec (arr : block) (n : Z) (fuel : nat) :
  0 <= n < size_t_modulus ->
  forall k : Z,
    0 <= k <= n ->
    Z.of_nat fuel = n - k ->
    exists r : bool,
      is_zeroed_loop fuel arr k (n - k) = Finished r /\
      (r = true <-> forall x : Z, k <= x < n -> arr x = x00).
Proof.
  intros Hn. induction fuel as [| fuel IH]; intros k Hk Hfuel.
  - assert (k = n) as -> by lia.
    exists true. cbn [is_zeroed_loop]. rewrite Z.sub_diag. split; [reflexivity |].
    split; [intros _ x Hx; lia | reflexivity].
  - cbn [is_zeroed_loop].
    replace (n - k =? 0) with false by (symmetry; apply Z.eqb_neq; lia).
    cbn [negb]. rewrite (to_size_t_small (n - k - 1)) by lia.
    destruct (byte_value (arr k) =? 0) eqn:Hbyte; cbn [negb].
    + apply byte_value_zero in Hbyte.
      replace (n - k - 1) with (n - (k + 1)) by lia.
      destruct (IH (k + 1)) as [r [Hrun Hr]]; [lia | lia |].
      exists r. split; [exact Hrun |]. rewrite Hr. split.
      * intros Hrest x Hx. destruct (Z.eq_dec x k) as [-> | Hne];
          [exact Hbyte | apply Hrest; lia].
      * intros Hall x Hx. apply Hall. lia.
    + exists false. split; [reflexivity |].
      split; [discriminate |].
      intros Hall. specialize (Hall k ltac:(lia)).
      apply byte_value_zero in Hall. congruence.
Qed.

Lemma is_zeroed_run (arr : block) (arr_len arr_stride : Z) :
  0 <= arr_len -> 0 <= arr_stride -> arr_len * arr_stride < size_t_modulus ->
  exists r : bool,
    _bli_array_is_zeroed arr arr_len arr_stride = Finished r /\
    (r = true <-> forall x : Z, 0 <= x < arr_len * arr_stride -> arr x = x00).
Proof.
  intros Hlen Hs Hfit. unfold _bli_array_is_zeroed.
  rewrite to_size_t_small by nia.
  replace (arr_stride * arr_len) with (arr_len * arr_stride) by lia.
  destruct (is_zeroed_loop_spec arr (arr_len * arr_stride)
              (Z.to_nat (arr_len * arr_stride)) ltac:(nia) 0) as [r [Hrun Hr]];
    [nia | nia |].
  rewrite Z.sub_0_r in Hrun. exists r. split; [exact Hrun | exact Hr].
Qed.

(** X9: [_bli_array_is_zeroed] returns true exactly when every byte of the
    array is zero; in particular it returns true for an empty array, and
    bytes past the end are not looked at. *)
Theorem array_is_zeroed_spec (arr : block) (arr_len arr_stride : Z) :
  0 <= arr_len -> 0 <= arr_stride -> arr_len * arr_stride < size_t_modulus ->
  (_bli_array_is_zeroed arr arr_len arr_stride = Finished true <->
   forall x : Z, 0 <= x < arr_len * arr_stride -> arr x = x00) /\
  (_bli_array_is_zeroed arr arr_len arr_stride = Finished false <->
   exists x : Z, 0 <= x < arr_len * arr_stride /\ arr x <> x00).
Proof.
  intros Hlen Hs Hfit.
  destruct (is_zeroed_run arr arr_len arr_stride Hlen Hs Hfit) as [r [Hrun Hr]].
  rewrite Hrun. split.
  - rewrite <- Hr. split; [intros H; injection H as ->; reflexivity | intros ->; reflexivity].
  - split.
    + intros H. injection H as ->.
      (* the first non-zero byte, found by the bounded search the loop does *)
      assert (forall m : nat,
                 (forall x : Z, 0 <= x < Z.of_nat m -> arr x = x00) \/
                 exists x : Z, 0 <= x < Z.of_nat m /\ arr x <> x00) as Hscan.
      { induction m as [| m IHm]; [left; intros x Hx; lia |].
        destruct IHm as [Hzero | [x [Hx Hnz]]].
        - destruct (byte_value (arr (Z.of_nat m)) =? 0) eqn:Hb.
          + apply byte_value_zero in Hb. left. intros x Hx.
            destruct (Z.eq_dec x (Z.of_nat m)) as [-> | Hne];
              [exact Hb | apply Hzero; lia].
          + right. exists (Z.of_nat m). split; [lia |].
            intros Heq. apply byte_value_zero in Heq. congruence.
        - right. exists x. split; [lia | exact Hnz]. }
      destruct (Hscan (Z.to_nat (arr_len * arr_stride))) as [Hzero | [x [Hx Hnz]]].
      * exfalso. assert (false = true) as Habs; [| discriminate Habs].
        apply Hr. intros x Hx. apply Hzero. nia.
      * exists x. split; [nia | exact Hnz].
    + intros [x [Hx Hnz]]. destruct r; [| reflexivity].
      exfalso. apply Hnz. apply Hr; [reflexivity | exact Hx].
Qed.

Lemma array_is_zeroed_spec_witness :
  (_bli_array_is_zeroed sample_masks 3 2 = Finished true <->
   forall x : Z, 0 <= x < 3 * 2 -> sample_masks x = x00) /\
  (_bli_array_is_zeroed sample_masks 3 2 = Finished false <->
   exists x : Z, 0 <= x < 3 * 2 /\ sample_masks x <> x00).
Proof.
  apply (array_is_zeroed_spec sample_masks 3 2).
  - lia.
  - lia.
  - unfold size_t_modulus. change (2 ^ 64) with 18446744073709551616. lia.
Defined.

(** X10: for arrays that fit the address space
    ([arr_len * arr_stride < 2^64]) and sources that do not start strictly
    inside the part of the destination written before it is read
    ([arr <= arr_a] or [arr_a + arr_len * arr_stride <= arr], and the same for
    [arr_b]): zero tests and the bitwise operations compose: the or of two
    arrays is zeroed exactly when both arrays were, and the and of two arrays
    is zeroed as soon as one of them was. *)
Theorem array_binary_zeroed (mem : block) (arr arr_a arr_b arr_len arr_stride : Z) :
  0 <= arr_len -> 0 <= arr_stride -> arr_len * arr_stride < size_t_modulus ->
  arr <= arr_a \/ arr_a + arr_len * arr_stride <= arr ->
  arr <= arr_b \/ arr_b + arr_len * arr_stride <= arr ->
  (exists mem' : block,
      _bli_array_binary_or mem arr arr_a arr_b arr_len arr_stride = Finished mem' /\
      (_bli_array_is_zeroed (at_pointer mem' arr) arr_len arr_stride = Finished true <->
       _bli_array_is_zeroed (at_pointer mem arr_a) arr_len arr_stride = Finished true /\
       _bli_array_is_zeroed (at_pointer mem arr_b) arr_len arr_stride = Finished true)) /\
  (exists mem' : block,
      _bli_array_binary_and mem arr arr_a arr_b arr_len arr_stride = Finished mem' /\
      (_bli_array_is_zeroed (at_pointer mem arr_a) arr_len arr_stride = Finished true \/
       _bli_array_is_zeroed (at_pointer mem arr_b) arr_len arr_stride = Finished true ->
       _bli_array_is_zeroed (at_pointer mem' arr) arr_len arr_stride = Finished true)).
Proof.
  intros Hlen Hs Hfit Ha Hb.
  assert (forall m : block,
             _bli_array_is_zeroed m arr_len arr_stride = Finished true <->
             forall x : Z, 0 <= x < arr_len * arr_stride -> m x = x00) as Hzero.
  { intros m. destruct (is_zeroed_run m arr_len arr_stride Hlen Hs Hfit) as [r [Hrun Hr]].
    rewrite Hrun, <- Hr.
    split; [intros H; injection H as ->; reflexivity | intros ->; reflexivity]. }
  split.
  - destruct (binary_run byte_or mem arr arr_a arr_b arr_len arr_stride Hlen Hs Hfit Ha Hb)
      as (mem' & Hrun & Hin & _).
    exists mem'. split; [exact Hrun |]. rewrite !Hzero. unfold at_pointer. split.
    + intros Hall. split; intros x Hx; specialize (Hall x Hx);
        rewrite (Hin x Hx) in Hall; apply byte_or_zero in Hall; tauto.
    + intros [Hza Hzb] x Hx. rewrite (Hin x Hx). apply byte_or_zero. auto.
  - destruct (binary_run byte_and mem arr arr_a arr_b arr_len arr_stride Hlen Hs Hfit Ha Hb)
      as (mem' & Hrun & Hin & _).
    exists mem'. split; [exact Hrun |]. rewrite !Hzero. unfold at_pointer.
    intros [Hza | Hzb] x Hx; rewrite (Hin x Hx).
    + rewrite (Hza x Hx). apply byte_and_zero_l.
    + rewrite (Hzb x Hx). apply byte_and_zero_r.
Qed.

Lemma array_binary_zeroed_witness :
  (exists mem' : block,
      _bli_array_binary_or sample_masks 0 0 3 3 1 = Finished mem' /\
      (_bli_array_is_zeroed (at_pointer mem' 0) 3 1 = Finished true <->
       _bli_array_is_zeroed (at_pointer sample_masks 0) 3 1 = Finished true /\
       _bli_array_is_zeroed (at_pointer sample_masks 3) 3 1 = Finished true)) /\
  (exists mem' : block,
      _bli_array_binary_and sample_masks 0 0 3 3 1 = Finished mem' /\
      (_bli_array_is_zeroed (at_pointer sample_masks 0) 3 1 = Finished true \/
       _bli_array_is_zeroed (at_pointer sample_masks 3) 3 1 = Finished true ->
       _bli_array_is_zeroed (at_pointer mem' 0) 3 1 = Finished true)).
Proof.
  apply (array_binary_zeroed sample_masks 0 0 3 3 1).
  - lia.
  - lia.
  - unfold size_t_modulus. change (2 ^ 64) with 18446744073709551616. lia.
  - left. lia.
  - left. lia.
Defined.

End ArrayBytes.

(** ** Generic array manipulation API: removing adjacent duplicates *)

Module ArrayDedup.
Import Stdlib.Init.Byte.
Import ArrayUtils.
Import ArrayOps.
Import ArrayBytes.
#[local] Open Scope Z_scope.

(** The [for] loop of [_bli_array_deduplicate_ordered]. *)
Fixpoint deduplicate_loop (fuel : nat) (arr_len arr_stride arr_stride_uint : Z)
    (arr : block) (i j : Z) : outcome (block * Z) :=
  if i <? arr_len then
    match fuel with
    | O => NoFuel
    | S fuel' =>
        if (i =? j)
           || (memcmp arr (to_uint (arr_stride_uint * i))
                 arr (to_uint (arr_stride_uint * j)) arr_stride =? 0)
        then
          deduplicate_loop fuel' arr_len arr_stride arr_stride_uint arr
            (to_uint (i + 1)) j
        else
          let j := to_uint (j + 1) in
          let arr :=
            memcpy arr (to_uint (arr_stride_uint * j))
              arr (to_uint (arr_stride_uint * i)) arr_stride in
          deduplicate_loop fuel' arr_len arr_stride arr_stride_uint arr
            (to_uint (i + 1)) j
    end
  else Finished (arr, j).

(** [uint _bli_array_deduplicate_ordered(void *arr, uint arr_len, size_t arr_stride)]:
    the contents of [arr] after the call and the returned length. *)
Definition _bli_array_deduplicate_ordered (arr : block) (arr_len arr_stride : Z)
  : outcome (block * Z) :=
  if arr_len <=? 1 then Finished (arr, arr_len)
  else
    let arr_stride_uint := to_uint arr_stride in
    match deduplicate_loop (Z.to_nat arr_len) arr_len arr_stride arr_stride_uint arr 0 0 with
    | Finished (arr, j) => Finished (arr, to_uint (j + 1))
    | AssertFailed => AssertFailed
    | NoFuel => NoFuel
    end.

(** The bytes of element [index], and the first [n] elements of an array. *)
Definition element (arr : block) (arr_stride index : Z) : list byte :=
  map (fun k => arr (index * arr_stride + Z.of_nat k)) (seq 0 (Z.to_nat arr_stride)).

Definition elements (arr : block) (arr_stride n : Z) : list (list byte) :=
  map (fun i => element arr arr_stride (Z.of_nat i)) (seq 0 (Z.to_nat n)).

#[global] Instance byte_eq_dec : EqDecision byte.
Proof.
  intros x y. destruct (N.eq_dec (Byte.to_N x) (Byte.to_N y)) as [Heq | Hne].
  - left. apply to_N_inj. exact Heq.
  - right. intros ->. apply Hne. reflexivity.
Defined.

(** A list with every run of equal neighbours collapsed to one entry. *)
Fixpoint dedup_adjacent {A : Type} `{EqDecision A} (l : list A) : list A :=
  match l with
  | [] => []
  | x :: rest =>
      match rest with
      | [] => [x]
      | y :: _ => if decide (x = y) then dedup_adjacent rest else x :: dedup_adjacent rest
      end
  end.

(** No two neighbours of a list are equal. *)
Fixpoint no_adjacent_equal {A : Type} (l : list A) : Prop :=
  match l with
  | [] => True
  | x :: rest =>
      match rest with
      | [] => True
      | y :: _ => x <> y /\ no_adjacent_equal rest
      end
  end.

Example deduplicate_runs :
  match _bli_array_deduplicate_ordered
          (block_of_list [x01; x01; x02; x02; x02; x01; x03; x03]) 8 1 with
  | Finished (b, n) => (block_to_list b 8, n)
  | _ => ([], -1)
  end = ([x01; x02; x01; x03; x02; x01; x03; x03], 4).
Proof. reflexivity. Qed.

Example deduplicate_pairs :
  match _bli_array_deduplicate_ordered
          (block_of_list [x01; x02; x01; x02; x01; x03]) 3 2 with
  | Finished (b, n) => elements b 2 n
  | _ => []
  end = [[x01; x02]; [x01; x03]].
Proof. reflexivity. Qed.

Example dedup_adjacent_runs :
  dedup_adjacent [1; 1; 2; 2; 2; 1; 3; 3] = [1; 2; 1; 3].
Proof. reflexivity. Qed.

(** *** Collapsing runs of a list *)

Section DedupAdjacent.

Context {A : Type} `{EqDecision A}.

Lemma dedup_adjacent_snoc (l : list A) (x : A) :
  dedup_adjacent (l ++ [x]) =
  match last l with
  | Some y => if decide (y = x) then dedup_adjacent l else dedup_adjacent l ++ [x]
  | None => [x]
  end.
Proof.
  induction l as [| a rest IH]; [reflexivity |].
  destruct rest as [| b rest'].
  - simpl. destruct (decide (a = x)) as [-> | Hne]; reflexivity.
  - change ((a :: b :: rest') ++ [x]) with (a :: ((b :: rest') ++ [x])).
    change (last (a :: b :: rest')) with (last (b :: rest')).
    change (dedup_adjacent (a :: ((b :: rest') ++ [x])))
      with (if decide (a = b) then dedup_adjacent ((b :: rest') ++ [x])
            else a :: dedup_adjacent ((b :: rest') ++ [x])).
    change (dedup_adjacent (a :: b :: rest'))
      with (if decide (a = b) then dedup_adjacent (b :: rest')
            else a :: dedup_adjacent (b :: rest')).
    rewrite IH.
    destruct (last (b :: rest')) as [y |] eqn:Hlast.
    + destruct (decide (a = b)); destruct (decide (y = x)); reflexivity.
    + apply last_None in Hlast. discriminate Hlast.
Qed.

Lemma dedup_adjacent_no_adjacent_equal (l : list A) :
  no_adjacent_equal (dedup_adjacent l).
Proof.
  induction l as [| a rest IH]; [exact I |].
  destruct rest as [| b rest']; [exact I |].
  change (dedup_adjacent (a :: b :: rest'))
    with (if decide (a = b) then dedup_adjacent (b :: rest')
          else a :: dedup_adjacent (b :: rest')).
  destruct (decide (a = b)) as [Heq | Hne]; [exact IH |].
  assert (exists tail, dedup_adjacent (b :: rest') = b :: tail) as [tail Htail].
  { clear IH Hne. revert b. induction rest' as [| c rest'' IH']; intros b.
    - exists []. reflexivity.
    - change (dedup_adjacent (b :: c :: rest''))
        with (if decide (b = c) then dedup_adjacent (c :: rest'')
              else b :: dedup_adjacent (c :: rest'')).
      destruct (decide (b = c)) as [-> | Hbc]; [apply IH' | eexists; reflexivity]. }
  rewrite Htail in *. split; [exact Hne | exact IH].
Qed.

Lemma dedup_adjacent_fixed (l : list A) :
  no_adjacent_equal l -> dedup_adjacent l = l.
Proof.
  induction l as [| a rest IH]; [reflexivity |].
  destruct rest as [| b rest']; [reflexivity |].
  intros [Hne Hrest].
  change (dedup_adjacent (a :: b :: rest'))
    with (if decide (a = b) then dedup_adjacent (b :: rest')
          else a :: dedup_adjacent (b :: rest')).
  destruct (decide (a = b)) as [Heq | _]; [contradiction |].
  rewrite (IH Hrest). reflexivity.
Qed.

Lemma dedup_adjacent_idempotent (l : list A) :
  dedup_adjacent (dedup_adjacent l) = dedup_adjacent l.
Proof. apply dedup_adjacent_fixed, dedup_adjacent_no_adjacent_equal. Qed.

Lemma dedup_adjacent_length (l : list A) :
  (length (dedup_adjacent l) <= length l)%nat /\
  (l <> [] -> 1 <= length (dedup_adjacent l))%nat.
Proof.
  induction l as [| a rest IH]; [split; [reflexivity | congruence] |].
  destruct rest as [| b rest']; [split; simpl; intros; lia |].
  change (dedup_adjacent (a :: b :: rest'))
    with (if decide (a = b) then dedup_adjacent (b :: rest')
          else a :: dedup_adjacent (b :: rest')).
  destruct IH as [Hle Hpos].
  destruct (decide (a = b)); split; intros; simpl in *.
  - lia.
  - apply Hpos. discriminate.
  - lia.
  - lia.
Qed.

End DedupAdjacent.

(** *** Elements of a block as lists *)

Lemma map_seq_eq_iff {B : Type} (f g : nat -> B) (n : nat) :
  map f (seq 0 n) = map g (seq 0 n) <-> forall m : nat, (m < n)%nat -> f m = g m.
Proof.
  induction n as [| n IH].
  - split; [intros _ m Hm; lia | reflexivity].
  - rewrite seq_S, !map_app. simpl. split.
    + intros Heq m Hm. apply app_inj_tail in Heq as [Hinit Hlast].
      destruct (Nat.eq_dec m n) as [-> | Hne]; [congruence |].
      apply IH; [exact Hinit | lia].
    + intros Hall. f_equal.
      * apply IH. intros m Hm. apply Hall. lia.
      * f_equal. apply Hall. lia.
Qed.

Lemma element_eq_iff (arr1 arr2 : block) (arr_stride i1 i2 : Z) :
  0 <= arr_stride ->
  element arr1 arr_stride i1 = element arr2 arr_stride i2 <->
  forall k : Z, 0 <= k < arr_stride ->
                arr1 (i1 * arr_stride + k) = arr2 (i2 * arr_stride + k).
Proof.
  intros Hs. unfold element. rewrite map_seq_eq_iff. split.
  - intros H k Hk. specialize (H (Z.to_nat k) ltac:(lia)).
    rewrite Z2Nat.id in H by lia. exact H.
  - intros H m Hm. apply H. lia.
Qed.

Lemma elements_snoc (arr : block) (arr_stride n : Z) :
  0 <= n ->
  elements arr arr_stride (n + 1) =
  elements arr arr_stride n ++ [element arr arr_stride n].
Proof.
  intros Hn. unfold elements.
  replace (Z.to_nat (n + 1)) with (S (Z.to_nat n)) by lia.
  rewrite seq_S, map_app. simpl. rewrite Z2Nat.id by exact Hn. reflexivity.
Qed.

Lemma elements_length (arr : block) (arr_stride n : Z) :
  length (elements arr arr_stride n) = Z.to_nat n.
Proof. unfold elements. rewrite length_map, length_seq. reflexivity. Qed.

Lemma elements_last (arr : block) (arr_stride n : Z) :
  1 <= n ->
  last (elements arr arr_stride n) = Some (element arr arr_stride (n - 1)).
Proof.
  intros Hn. replace n with (n - 1 + 1) at 1 by lia.
  rewrite elements_snoc by lia. apply last_snoc.
Qed.

Lemma elements_eq_iff (arr1 arr2 : block) (arr_stride n : Z) :
  0 < arr_stride -> 0 <= n ->
  elements arr1 arr_stride n = elements arr2 arr_stride n <->
  forall a : Z, 0 <= a < n * arr_stride -> arr1 a = arr2 a.
Proof.
  intros Hs Hn. unfold elements. rewrite map_seq_eq_iff. split.
  - intros H a Ha.
    destruct (offset_decompose arr_stride a Hs) as [Hdec Hmod].
    assert (0 <= a / arr_stride < n) as Hq.
    { split; [apply Z.div_pos; lia | apply Z.div_lt_upper_bound; lia]. }
    specialize (H (Z.to_nat (a / arr_stride)) ltac:(lia)).
    rewrite Z2Nat.id in H by lia.
    rewrite Hdec. apply (element_eq_iff arr1 arr2 arr_stride); [lia | exact H | exact Hmod].
  - intros H m Hm. apply element_eq_iff; [lia |].
    intros k Hk. apply H. nia.
Qed.

Lemma memcmp_elements (arr : block) (arr_stride i j : Z) :
  0 <= arr_stride ->
  (memcmp arr (arr_stride * i) arr (arr_stride * j) arr_stride =? 0) = true <->
  element arr arr_stride i = element arr arr_stride j.
Proof.
  intros Hs. rewrite Z.eqb_eq. unfold memcmp.
  rewrite memcmp_bytes_zero, Z2Nat.id by exact Hs.
  rewrite element_eq_iff by exact Hs.
  rewrite (Z.mul_comm arr_stride i), (Z.mul_comm arr_stride j). reflexivity.
Qed.

(** *** [_bli_array_deduplicate_ordered] *)

Section Deduplicate.

Variable arr0 : block.
Variables arr_len arr_stride : Z.
Hypothesis stride_pos : 0 < arr_stride.
Hypothesis len_two : 2 <= arr_len.
Hypothesis offsets_fit : arr_len * arr_stride < uint_modulus.

(** With [i] elements read and [j] the index of the last one kept: the kept
    elements are the first [i] original ones with runs collapsed, the last
    kept one is the original element [i - 1], and everything past the kept
    elements is untouched. *)
Definition kept_state (i j : Z) (arr : block) : Prop :=
  elements arr arr_stride (j + 1) = dedup_adjacent (elements arr0 arr_stride i) /\
  (forall a : Z, a < 0 \/ (j + 1) * arr_stride <= a -> arr a = arr0 a) /\
  element arr arr_stride j = element arr0 arr_stride (i - 1).

Lemma deduplicate_loop_spec (fuel : nat) :
  forall (i j : Z) (arr : block),
    1 <= i <= arr_len -> 0 <= j < i ->
    Z.of_nat fuel = arr_len - i ->
    kept_state i j arr ->
    exists (arr' : block) (j' : Z),
      deduplicate_loop fuel arr_len arr_stride arr_stride arr i j = Finished (arr', j') /\
      0 <= j' < arr_len /\
      kept_state arr_len j' arr'.
Proof.
  induction fuel as [| fuel IH]; intros i j arr Hi Hj Hfuel (Hkept & Hrest & Hlast).
  - assert (i = arr_len) as -> by lia.
    exists arr, j. cbn [deduplicate_loop]. rewrite Z.ltb_irrefl.
    split; [reflexivity |]. split; [lia |]. repeat split; assumption.
  - cbn [deduplicate_loop].
    replace (i <? arr_len) with true by (symmetry; apply Z.ltb_lt; lia).
    replace (i =? j) with false by (symmetry; apply Z.eqb_neq; lia).
    cbn [orb].
    rewrite (to_uint_small (arr_stride * i)) by nia.
    rewrite (to_uint_small (arr_stride * j)) by nia.
    rewrite (to_uint_small (i + 1)) by nia.
    rewrite (to_uint_small (j + 1)) by nia.
    rewrite (to_uint_small (arr_stride * (j + 1))) by nia.
    assert (element arr arr_stride i = element arr0 arr_stride i) as Hcur.
    { apply element_eq_iff; [lia |]. intros k Hk. apply Hrest. right. nia. }
    assert (elements arr0 arr_stride (i + 1) =
            elements arr0 arr_stride i ++ [element arr0 arr_stride i]) as Hsnoc
      by (apply elements_snoc; lia).
    assert (last (elements arr0 arr_stride i) = Some (element arr0 arr_stride (i - 1)))
      as Hprev by (apply elements_last; lia).
    destruct (memcmp arr (arr_stride * i) arr (arr_stride * j) arr_stride =? 0) eqn:Hcmp.
    + apply memcmp_elements in Hcmp; [| lia].
      rewrite Hcur, Hlast in Hcmp.
      apply IH; [lia | lia | lia |].
      split; [| split].
      * rewrite Hsnoc, dedup_adjacent_snoc, Hprev.
        destruct (decide (element arr0 arr_stride (i - 1) = element arr0 arr_stride i));
          [exact Hkept | congruence].
      * exact Hrest.
      * replace (i + 1 - 1) with i by lia. rewrite Hlast. symmetry. exact Hcmp.
    + assert (element arr0 arr_stride (i - 1) <> element arr0 arr_stride i) as Hdiff.
      { intros Heq. rewrite <- Hlast, <- Hcur in Heq.
        symmetry in Heq. apply memcmp_elements in Heq; [| lia]. congruence. }
      set (arr1 := memcpy arr (arr_stride * (j + 1)) arr (arr_stride * i) arr_stride).
      assert (element arr1 arr_stride (j + 1) = element arr0 arr_stride i) as Hnew.
      { rewrite <- Hcur. apply element_eq_iff; [lia |].
        intros k Hk. unfold arr1, memcpy.
        case_test; [f_equal; lia | exfalso; lia]. }
      apply IH; [lia | lia | lia |].
      split; [| split].
      * rewrite elements_snoc by lia. rewrite Hnew.
        rewrite Hsnoc, dedup_adjacent_snoc, Hprev.
        destruct (decide (element arr0 arr_stride (i - 1) = element arr0 arr_stride i));
          [contradiction |].
        f_equal. rewrite <- Hkept.
        apply elements_eq_iff; [exact stride_pos | lia |].
        intros a Ha. unfold arr1, memcpy. case_test; [exfalso; lia | reflexivity].
      * intros a Ha. unfold arr1, memcpy.
        case_test; [exfalso; lia | apply Hrest; lia].
      * replace (i + 1 - 1) with i by lia. exact Hnew.
Qed.

End Deduplicate.

(** What a call leaves and returns, for every length. *)
Lemma deduplicate_run (arr : block) (arr_len arr_stride : Z) :
  0 < arr_stride -> 0 <= arr_len -> arr_len * arr_stride < uint_modulus ->
  exists (arr' : block) (n : Z),
    _bli_array_deduplicate_ordered arr arr_len arr_stride = Finished (arr', n) /\
    0 <= n <= arr_len /\ (1 <= arr_len -> 1 <= n) /\
    elements arr' arr_stride n = dedup_adjacent (elements arr arr_stride arr_len) /\
    (forall a : Z, a < 0 \/ n * arr_stride <= a -> arr' a = arr a).
Proof.
  intros Hs Hlen Hfit. unfold _bli_array_deduplicate_ordered.
  destruct (arr_len <=? 1) eqn:Hsmall; zbool Hsmall.
  - exists arr, arr_len. split; [reflexivity |]. split; [lia |]. split; [tauto |].
    split; [| reflexivity].
    assert (arr_len = 0 \/ arr_len = 1) as [-> | ->] by lia; reflexivity.
  - rewrite (to_uint_small arr_stride) by nia.
    replace (Z.to_nat arr_len) with (S (Z.to_nat (arr_len - 1))) by lia.
    cbn [deduplicate_loop].
    replace (0 <? arr_len) with true by (symmetry; apply Z.ltb_lt; lia).
    cbn [Z.eqb orb]. rewrite (to_uint_small (0 + 1)) by nia.
    destruct (deduplicate_loop_spec arr arr_len arr_stride Hs ltac:(lia) Hfit
                (Z.to_nat (arr_len - 1)) (0 + 1) 0 arr)
      as (arr' & j' & Hrun & Hj' & Hkept & Hrest & _); [lia | lia | lia | |].
    + split; [reflexivity |]. split; [reflexivity | reflexivity].
    + rewrite Hrun. rewrite (to_uint_small (j' + 1)) by nia.
      exists arr', (j' + 1). split; [reflexivity |]. split; [lia |]. split; [lia |].
      split; [exact Hkept | exact Hrest].
Qed.

Lemma no_adjacent_equal_snoc {A : Type} (l : list A) (x : A) :
  no_adjacent_equal (l ++ [x]) <->
  no_adjacent_equal l /\ match last l with Some y => y <> x | None => True end.
Proof.
  induction l as [| a rest IH]; [simpl; tauto |].
  destruct rest as [| b rest'].
  - simpl. tauto.
  - change (no_adjacent_equal ((a :: b :: rest') ++ [x]))
      with (a <> b /\ no_adjacent_equal ((b :: rest') ++ [x])).
    change (no_adjacent_equal (a :: b :: rest'))
      with (a <> b /\ no_adjacent_equal (b :: rest')).
    change (last (a :: b :: rest')) with (last (b :: rest')).
    rewrite IH. tauto.
Qed.

Lemma no_adjacent_elements (arr : block) (arr_stride n : Z) :
  0 <= n ->
  no_adjacent_equal (elements arr arr_stride n) <->
  forall i : Z, 0 <= i -> i + 1 < n ->
                element arr arr_stride i <> element arr arr_stride (i + 1).
Proof.
  intros Hn. revert n Hn. apply (natlike_ind (fun n => _ <-> _)).
  - split; [intros _ i Hi Hlt; lia | intros _; exact I].
  - intros n Hn IH. unfold Z.succ. rewrite elements_snoc by exact Hn.
    rewrite no_adjacent_equal_snoc, IH.
    destruct (Z.eq_dec n 0) as [-> | Hpos].
    + simpl. split; [intros _ i Hi Hlt; lia |].
      intros _. split; [intros i Hi Hlt; lia | exact I].
    + rewrite elements_last by lia. split.
      * intros [Hinit Hend] i Hi Hlt.
        destruct (Z.eq_dec (i + 1) n) as [Heq | Hne].
        -- replace i with (n - 1) by lia. replace (n - 1 + 1) with n by lia. exact Hend.
        -- apply Hinit; lia.
      * intros Hall. split.
        -- intros i Hi Hlt. apply Hall; lia.
        -- specialize (Hall (n - 1) ltac:(lia) ltac:(lia)).
           replace (n - 1 + 1) with n in Hall by lia. exact Hall.
Qed.

(** X11: for a positive [arr_stride] and byte offsets that fit [uint]
    ([arr_len * arr_stride < 2^32]):
    [_bli_array_deduplicate_ordered] collapses every run of equal
    neighbouring elements to its first element: the returned length [n]
    counts the runs (it is [arr_len] itself for at most one element, and at
    least 1 for a non-empty array), the first [n] elements are the original
    ones with runs collapsed, in order, and every byte past them keeps its
    old value. *)
Theorem array_deduplicate_spec (arr : block) (arr_len arr_stride : Z) :
  0 < arr_stride -> 0 <= arr_len -> arr_len * arr_stride < uint_modulus ->
  exists (arr' : block) (n : Z),
    _bli_array_deduplicate_ordered arr arr_len arr_stride = Finished (arr', n) /\
    0 <= n <= arr_len /\ (1 <= arr_len -> 1 <= n) /\
    (arr_len <= 1 -> n = arr_len) /\
    elements arr' arr_stride n = dedup_adjacent (elements arr arr_stride arr_len) /\
    (forall a : Z, a < 0 \/ n * arr_stride <= a -> arr' a = arr a).
Proof.
  intros Hs Hlen Hfit.
  destruct (deduplicate_run arr arr_len arr_stride Hs Hlen Hfit)
    as (arr' & n & Hrun & Hn & Hpos & Hkept & Hrest).
  exists arr', n. split; [exact Hrun |]. split; [exact Hn |]. split; [exact Hpos |].
  split; [| split; [exact Hkept | exact Hrest]].
  intros Hsmall. assert (arr_len = 0 \/ arr_len = 1) as [-> | ->] by lia; lia.
Qed.

Definition sample_runs : block :=
  block_of_list [x01; x01; x02; x02; x02; x01; x03; x03].

Lemma array_deduplicate_spec_witness :
  exists (arr' : block) (n : Z),
    _bli_array_deduplicate_ordered sample_runs 8 1 = Finished (arr', n) /\
    0 <= n <= 8 /\ (1 <= 8 -> 1 <= n) /\
    (8 <= 1 -> n = 8) /\
    elements arr' 1 n = dedup_adjacent (elements sample_runs 1 8) /\
    (forall a : Z, a < 0 \/ n * 1 <= a -> arr' a = sample_runs a).
Proof.
  apply (array_deduplicate_spec sample_runs 8 1).
  - lia.
  - lia.
  - unfold uint_modulus. change (2 ^ 32) with 4294967296. lia.
Defined.

(** X12: for a positive [arr_stride] and byte offsets that fit [uint]
    ([arr_len * arr_stride < 2^32]): after
    [_bli_array_deduplicate_ordered] no two neighbouring elements among the
    [n] kept ones are equal; and an array that has no equal neighbours to
    begin with is returned unchanged with [n = arr_len]. *)
Theorem array_deduplicate_no_equal_neighbours (arr : block) (arr_len arr_stride : Z) :
  0 < arr_stride -> 0 <= arr_len -> arr_len * arr_stride < uint_modulus ->
  exists (arr' : block) (n : Z),
    _bli_array_deduplicate_ordered arr arr_len arr_stride = Finished (arr', n) /\
    (forall i : Z,
        0 <= i -> i + 1 < n ->
        element arr' arr_stride i <> element arr' arr_stride (i + 1)) /\
    ((forall i : Z,
         0 <= i -> i + 1 < arr_len ->
         element arr arr_stride i <> element arr arr_stride (i + 1)) ->
     n = arr_len /\ forall a : Z, arr' a = arr a).
Proof.
  intros Hs Hlen Hfit.
  destruct (deduplicate_run arr arr_len arr_stride Hs Hlen Hfit)
    as (arr' & n & Hrun & Hn & Hpos & Hkept & Hrest).
  exists arr', n. split; [exact Hrun |]. split.
  - apply no_adjacent_elements; [lia |]. rewrite Hkept.
    apply dedup_adjacent_no_adjacent_equal.
  - intros Hclean. apply no_adjacent_elements in Hclean; [| exact Hlen].
    rewrite (dedup_adjacent_fixed _ Hclean) in Hkept.
    assert (n = arr_len) as ->.
    { pose proof (f_equal (@length _) Hkept) as Hlength.
      rewrite !elements_length in Hlength. lia. }
    split; [reflexivity |]. intros a.
    destruct (Z_lt_le_dec a 0) as [Hneg | Hnonneg]; [apply Hrest; lia |].
    destruct (Z_lt_le_dec a (arr_len * arr_stride)) as [Hin | Hout]; [| apply Hrest; lia].
    apply (elements_eq_iff arr' arr arr_stride arr_len Hs Hlen); [exact Hkept | lia].
Qed.

Lemma array_deduplicate_no_equal_neighbours_witness :
  exists (arr' : block) (n : Z),
    _bli_array_deduplicate_ordered sample_runs 8 1 = Finished (arr', n) /\
    (forall i : Z,
        0 <= i -> i + 1 < n -> element arr' 1 i <> element arr' 1 (i + 1)) /\
    ((forall i : Z,
         0 <= i -> i + 1 < 8 -> element sample_runs 1 i <> element sample_runs 1 (i + 1)) ->
     n = 8 /\ forall a : Z, arr' a = sample_runs a).
Proof.
  apply (array_deduplicate_no_equal_neighbours sample_runs 8 1).
  - lia.
  - lia.
  - unfold uint_modulus. change (2 ^ 32) with 4294967296. lia.
Defined.

(** X13: for a positive [arr_stride] and byte offsets that fit [uint]
    ([arr_len * arr_stride < 2^32]): [_bli_array_deduplicate_ordered] is
    idempotent: called again on its own result, with the length it returned,
    it returns that length again and changes no byte. *)
Theorem array_deduplicate_idempotent (arr : block) (arr_len arr_stride : Z) :
  0 < arr_stride -> 0 <= arr_len -> arr_len * arr_stride < uint_modulus ->
  exists (once again : block) (n : Z),
    _bli_array_deduplicate_ordered arr arr_len arr_stride = Finished (once, n) /\
    _bli_array_deduplicate_ordered once n arr_stride = Finished (again, n) /\
    forall a : Z, again a = once a.
Proof.
  intros Hs Hlen Hfit.
  destruct (deduplicate_run arr arr_len arr_stride Hs Hlen Hfit)
    as (once & n & Hrun1 & Hn & _ & Hkept1 & _).
  destruct (deduplicate_run once n arr_stride Hs ltac:(lia) ltac:(nia))
    as (again & m & Hrun2 & Hm & _ & Hkept2 & Hrest2).
  rewrite Hkept1, dedup_adjacent_idempotent, <- Hkept1 in Hkept2.
  assert (m = n) as ->.
  { pose proof (f_equal (@length _) Hkept2) as Hlength.
    rewrite !elements_length in Hlength. lia. }
  exists once, again, n. split; [exact Hrun1 |]. split; [exact Hrun2 |].
  intros a.
  destruct (Z_lt_le_dec a 0) as [Hneg | Hnonneg]; [apply Hrest2; lia |].
  destruct (Z_lt_le_dec a (n * arr_stride)) as [Hin | Hout]; [| apply Hrest2; lia].
  apply (elements_eq_iff again once arr_stride n Hs ltac:(lia)); [exact Hkept2 | lia].
Qed.

Lemma array_deduplicate_idempotent_witness :
  exists (once again : block) (n : Z),
    _bli_array_deduplicate_ordered sample_runs 8 1 = Finished (once, n) /\
    _bli_array_deduplicate_ordered once n 1 = Finished (again, n) /\
    forall a : Z, again a = once a.
Proof.
  apply (array_deduplicate_idempotent sample_runs 8 1).
  - lia.
  - lia.
  - unfold uint_modulus. change (2 ^ 32) with 4294967296. lia.
Defined.

End ArrayDedup.

(** ** Generic array manipulation API: iterating over spans *)

Module ArraySpan.
Import ArrayUtils.
Import ArrayOps.
#[local] Open Scope Z_scope.

(** The callback [test_fn(arr_item, user_data)] is a predicate on the item
    it is handed, given here by the byte offset of the item from [arr]. *)
Section IterSpan.

Variable test_fn : Z -> bool.
Variables arr_len arr_stride_uint : Z.
Variables use_wrap use_delimit_bounds : bool.

(** [POINTER_OFFSET(arr, index * arr_stride_uint)], the product taken in
    [uint]. *)
Definition item_at (index : Z) : Z := to_uint (index * arr_stride_uint).

(** The inner [while] loop without wrapping: returns [i_step_prev]. *)
Fixpoint span_extend (fuel : nat) (i_step i_step_prev : Z) : outcome Z :=
  if negb (i_step =? arr_len) && test_fn (item_at i_step) then
    match fuel with
    | O => NoFuel
    | S fuel' => span_extend fuel' (to_uint (i_step + 1)) i_step
    end
  else Finished i_step_prev.

(** The inner [while] loop with wrapping: returns [i_step_prev]. *)
Fixpoint span_extend_wrap (fuel : nat) (i_step i_step_prev : Z) : outcome Z :=
  if test_fn (item_at i_step) then
    match fuel with
    | O => NoFuel
    | S fuel' =>
        let i_step_prev := i_step in
        let i_step := to_uint (i_step + 1) in
        let i_step := if i_step =? arr_len then 0 else i_step in
        span_extend_wrap fuel' i_step i_step_prev
    end
  else Finished i_step_prev.

(** The outer [while] loop: [Some (span_step[0], span_step[1], *r_span_len)]
    when the call returns true and writes them, [None] when it returns false
    and writes nothing. *)
Fixpoint span_scan (fuel : nat) (i_curr item_curr : Z) (test_prev : bool)
  : outcome (option (Z * Z * Z)) :=
  if i_curr <? arr_len then
    match fuel with
    | O => NoFuel
    | S fuel' =>
        let test_curr := test_fn item_curr in
        if negb test_prev && test_curr then
          if use_wrap then
            let i_step := to_uint (i_curr + 1) in
            let i_step := if i_step =? arr_len then 0 else i_step in
            match span_extend_wrap (Z.to_nat arr_len) i_step i_curr with
            | Finished i_step_prev =>
                let span_len :=
                  if i_step_prev <? i_curr
                  then to_uint (to_uint (i_step_prev + to_uint (arr_len - i_curr)) + 1)
                  else to_uint (to_uint (i_step_prev - i_curr) + 1) in
                Finished (Some (i_curr, i_step_prev, span_len))
            | AssertFailed => AssertFailed
            | NoFuel => NoFuel
            end
          else
            match span_extend (Z.to_nat arr_len) (to_uint (i_curr + 1)) i_curr with
            | Finished i_step_prev =>
                let span_len := to_uint (to_uint (i_step_prev - i_curr) + 1) in
                if negb use_delimit_bounds && (i_step_prev =? to_uint (arr_len - 1))
                then Finished None
                else Finished (Some (i_curr, i_step_prev, span_len))
            | AssertFailed => AssertFailed
            | NoFuel => NoFuel
            end
        else
          span_scan fuel' (to_uint (i_curr + 1)) (item_curr + arr_stride_uint) test_curr
    end
  else Finished None.

(** Where the scan starts and what the item before it tested to; [None]
    when the previous span already ended the array. *)
Definition span_start (span_step : Z * Z) : option (Z * bool) :=
  if (fst span_step =? arr_len) && (snd span_step =? arr_len) then
    if use_wrap then Some (0, test_fn (item_at (to_uint (arr_len - 1))))
    else if negb use_delimit_bounds then Some (1, test_fn 0)
    else Some (0, false)
  else
    let i_curr := to_uint (snd span_step + 2) in
    if i_curr <? arr_len
    then Some (i_curr, test_fn (item_at (to_uint (snd span_step + 1))))
    else None.

End IterSpan.

(** [bool _bli_array_iter_span(const void *arr, uint arr_len, size_t arr_stride,
    bool use_wrap, bool use_delimit_bounds, test_fn, void *user_data,
    uint span_step[2], uint *r_span_len)]. *)
Definition _bli_array_iter_span (arr_len arr_stride : Z)
    (use_wrap use_delimit_bounds : bool) (test_fn : Z -> bool) (span_step : Z * Z)
  : outcome (option (Z * Z * Z)) :=
  if arr_len =? 0 then Finished None
  else if use_wrap && negb (fst span_step =? arr_len) && (snd span_step <? fst span_step)
  then Finished None
  else
    let arr_stride_uint := to_uint arr_stride in
    match span_start test_fn arr_len arr_stride_uint use_wrap use_delimit_bounds span_step with
    | None => Finished None
    | Some (i_curr, test_prev) =>
        if i_curr <? arr_len then
          span_scan test_fn arr_len arr_stride_uint use_wrap use_delimit_bounds
            (Z.to_nat arr_len) i_curr (item_at arr_stride_uint i_curr) test_prev
        else AssertFailed
    end.

(** A test that holds for the items whose index is listed. *)
Definition test_indices (arr_stride : Z) (indices : list Z) : Z -> bool :=
  fun item => existsb (fun i => item =? i * arr_stride) indices.

Example iter_span_first :
  _bli_array_iter_span 8 4 false true (test_indices 4 [1; 2; 3; 6; 7]) (8, 8)
  = Finished (Some (1, 3, 3)).
Proof. reflexivity. Qed.

Example iter_span_second :
  _bli_array_iter_span 8 4 false true (test_indices 4 [1; 2; 3; 6; 7]) (1, 3)
  = Finished (Some (6, 7, 2)).
Proof. reflexivity. Qed.

Example iter_span_done :
  _bli_array_iter_span 8 4 false true (test_indices 4 [1; 2; 3; 6; 7]) (6, 7)
  = Finished None.
Proof. reflexivity. Qed.

Example iter_span_wrapped :
  _bli_array_iter_span 8 4 true true (test_indices 4 [0; 1; 4; 6; 7]) (8, 8)
  = Finished (Some (4, 4, 1)) /\
  _bli_array_iter_span 8 4 true true (test_indices 4 [0; 1; 4; 6; 7]) (4, 4)
  = Finished (Some (6, 1, 4)).
Proof. split; reflexivity. Qed.

Example iter_span_no_bounds :
  _bli_array_iter_span 8 4 false false (test_indices 4 [0; 1; 4; 6; 7]) (8, 8)
  = Finished (Some (4, 4, 1)) /\
  _bli_array_iter_span 8 4 false false (test_indices 4 [0; 1; 4; 6; 7]) (4, 4)
  = Finished None /\
  _bli_array_iter_span 1 4 false false (test_indices 4 [0]) (1, 1) = AssertFailed.
Proof. repeat split; reflexivity. Qed.

(** *** Scanning without wrapping *)

Section NoWrap.

Variable test_fn : Z -> bool.
Variables arr_len arr_stride : Z.
Variable use_delimit_bounds : bool.
Hypothesis stride_pos : 0 < arr_stride.
Hypothesis len_pos : 1 <= arr_len.
Hypothesis offsets_fit : arr_len * arr_stride < uint_modulus.

(** The test of the element at [index]; the position before the array
    counts as failing the test. *)
Definition element_test (index : Z) : bool :=
  if index <? 0 then false else test_fn (index * arr_stride).

(** A span starts at [index]: its element passes the test and the one
    before it does not. *)
Definition span_begins (index : Z) : Prop :=
  element_test (index - 1) = false /\ element_test index = true.

Lemma item_at_index (index : Z) :
  0 <= index <= arr_len -> item_at arr_stride index = index * arr_stride.
Proof. intros Hi. unfold item_at. apply to_uint_small. nia. Qed.

Lemma element_test_index (index : Z) :
  0 <= index -> element_test index = test_fn (index * arr_stride).
Proof.
  intros Hi. unfold element_test.
  replace (index <? 0) with false by (symmetry; apply Z.ltb_ge; lia). reflexivity.
Qed.

Lemma span_extend_spec (fuel : nat) :
  forall i_step : Z,
    1 <= i_step <= arr_len ->
    arr_len - i_step <= Z.of_nat fuel ->
    exists last : Z,
      span_extend test_fn arr_len arr_stride fuel i_step (i_step - 1) = Finished last /\
      i_step - 1 <= last < arr_len /\
      (forall i : Z, i_step <= i <= last -> element_test i = true) /\
      (last + 1 < arr_len -> element_test (last + 1) = false).
Proof.
  induction fuel as [| fuel IH]; intros i_step Hi Hfuel.
  - assert (i_step = arr_len) as -> by lia.
    exists (arr_len - 1). cbn [span_extend]. rewrite Z.eqb_refl. cbn [negb andb].
    split; [reflexivity |]. split; [lia |]. split; intros; lia.
  - cbn [span_extend].
    destruct (negb (i_step =? arr_len) && test_fn (item_at arr_stride i_step)) eqn:Hgo.
    + apply andb_true_iff in Hgo as [Hne Htest]. zbool Hne.
      rewrite item_at_index in Htest by lia.
      rewrite (to_uint_small (i_step + 1)) by nia.
      destruct (IH (i_step + 1)) as (last & Hrun & Hlast & Hall & Hend); [lia | lia |].
      replace (i_step + 1 - 1) with i_step in Hrun by lia.
      exists last. split; [exact Hrun |]. split; [lia |]. split; [| exact Hend].
      intros i Hrange. destruct (Z.eq_dec i i_step) as [-> | Hnext].
      * rewrite element_test_index by lia. exact Htest.
      * apply Hall. lia.
    + exists (i_step - 1). split; [reflexivity |]. split; [lia |].
      split; [intros i Hrange; lia |].
      intros Hlt. replace (i_step - 1 + 1) with i_step by lia.
      apply andb_false_iff in Hgo as [Hne | Htest].
      * zbool Hne. lia.
      * rewrite element_test_index by lia.
        rewrite item_at_index in Htest by lia. exact Htest.
Qed.

(** What a scan from [start] may come to. *)
Definition scan_result (start : Z) (r : option (Z * Z * Z)) : Prop :=
  match r with
  | Some (first, last, span_len) =>
      start <= first <= last /\ last < arr_len /\
      span_len = last - first + 1 /\
      (forall i : Z, first <= i <= last -> element_test i = true) /\
      element_test (first - 1) = false /\
      (last + 1 < arr_len -> element_test (last + 1) = false) /\
      (forall i : Z, start <= i < first -> ~ span_begins i) /\
      (use_delimit_bounds = false -> last < arr_len - 1)
  | None =>
      (forall i : Z, start <= i < arr_len -> ~ span_begins i) \/
      (use_delimit_bounds = false /\
       exists first : Z,
         start <= first < arr_len /\ span_begins first /\
         (forall i : Z, start <= i < first -> ~ span_begins i) /\
         (forall i : Z, first <= i < arr_len -> element_test i = true))
  end.

Lemma span_scan_spec (fuel : nat) :
  forall (i_curr : Z) (test_prev : bool),
    0 <= i_curr <= arr_len ->
    arr_len - i_curr <= Z.of_nat fuel ->
    test_prev = element_test (i_curr - 1) ->
    exists r : option (Z * Z * Z),
      span_scan test_fn arr_len arr_stride false use_delimit_bounds fuel
        i_curr (i_curr * arr_stride) test_prev = Finished r /\
      scan_result i_curr r.
Proof.
  induction fuel as [| fuel IH]; intros i_curr test_prev Hi Hfuel Hprev.
  - assert (i_curr = arr_len) as -> by lia.
    exists None. cbn [span_scan]. rewrite Z.ltb_irrefl. split; [reflexivity |].
    left. intros i Hrange. lia.
  - cbn [span_scan].
    destruct (i_curr <? arr_len) eqn:Hlt; zbool Hlt.
    2: { exists None. split; [reflexivity |]. left. intros i Hrange. lia. }
    assert (test_fn (i_curr * arr_stride) = element_test i_curr) as Hcur
      by (symmetry; apply element_test_index; lia).
    rewrite Hcur.
    destruct (negb test_prev && element_test i_curr) eqn:Hhit.
    + apply andb_true_iff in Hhit as [Hnp Htc]. zbool Hnp. subst test_prev.
      rewrite (to_uint_small (i_curr + 1)) by nia.
      destruct (span_extend_spec (Z.to_nat arr_len) (i_curr + 1))
        as (last & Hrun & Hlast & Hall & Hend); [lia | lia |].
      replace (i_curr + 1 - 1) with i_curr in Hrun by lia.
      rewrite Hrun.
      rewrite (to_uint_small (last - i_curr)) by nia.
      rewrite (to_uint_small (last - i_curr + 1)) by nia.
      rewrite (to_uint_small (arr_len - 1)) by nia.
      assert (forall i : Z, i_curr <= i <= last -> element_test i = true) as Hspan.
      { intros i Hrange. destruct (Z.eq_dec i i_curr) as [-> | Hne];
          [exact Htc | apply Hall; lia]. }
      destruct (negb use_delimit_bounds && (last =? arr_len - 1)) eqn:Hedge.
      * apply andb_true_iff in Hedge as [Hdelimit Hreach]. zbool Hdelimit. zbool Hreach.
        exists None. split; [reflexivity |]. right. split; [exact Hdelimit |].
        exists i_curr. split; [lia |]. split; [split; assumption |].
        split; [intros i Hrange; lia |].
        intros i Hrange. apply Hspan. lia.
      * exists (Some (i_curr, last, last - i_curr + 1)). split; [reflexivity |].
        unfold scan_result. split; [lia |]. split; [lia |]. split; [reflexivity |].
        split; [exact Hspan |]. split; [exact Hnp |]. split; [exact Hend |].
        split; [intros i Hrange; lia |].
        intros Hdelimit. rewrite Hdelimit in Hedge. cbn [negb andb] in Hedge.
        zbool Hedge. lia.
    + rewrite (to_uint_small (i_curr + 1)) by nia.
      replace (i_curr * arr_stride + arr_stride) with ((i_curr + 1) * arr_stride) by lia.
      destruct (IH (i_curr + 1) (element_test i_curr)) as [r [Hrun Hr]]; [lia | lia | |].
      { replace (i_curr + 1 - 1) with i_curr by lia. reflexivity. }
      exists r. split; [exact Hrun |].
      assert (~ span_begins i_curr) as Hnot.
      { intros [Hb1 Hb2]. rewrite Hprev, Hb1, Hb2 in Hhit. discriminate Hhit. }
      assert (forall hi : Z,
                 (forall i, i_curr + 1 <= i < hi -> ~ span_begins i) ->
                 forall i, i_curr <= i < hi -> ~ span_begins i) as Hshift.
      { intros hi Hall i Hrange. destruct (Z.eq_dec i i_curr) as [-> | Hne];
          [exact Hnot | apply Hall; lia]. }
      destruct r as [[[first last] span_len] |]; unfold scan_result in *.
      * destruct Hr as (H1 & H2 & H3 & H4 & H5 & H6 & H7 & H8).
        split; [lia |]. repeat (split; [assumption |]).
        split; [apply Hshift; exact H7 | exact H8].
      * destruct Hr as [Hnone | (Hdelimit & first & H1 & H2 & H3 & H4)].
        -- left. apply Hshift. exact Hnone.
        -- right. split; [exact Hdelimit |]. exists first.
           split; [lia |]. split; [exact H2 |].
           split; [apply Hshift; exact H3 | exact H4].
Qed.

End NoWrap.

(** The index the scan of a call starts at: the array start (or the second
    element, when the bounds do not delimit) on the first call, which is
    marked by [span_step = {arr_len, arr_len}]; two past the end of the
    previous span otherwise. *)
Definition scan_from (arr_len : Z) (use_delimit_bounds : bool) (span_step : Z * Z) : Z :=
  if (fst span_step =? arr_len) && (snd span_step =? arr_len)
  then (if use_delimit_bounds then 0 else 1)
  else snd span_step + 2.

(** X14: for a non-empty array ([1 <= arr_len], [arr_len + 1 < 2^32]) with
    a positive [arr_stride] and byte offsets that fit [uint]
    ([arr_len * arr_stride < 2^32]), and [span_step] either the first-call
    marker [{arr_len, arr_len}] or holding a previous span end
    [0 <= span_step[1] < arr_len]:
    without wrapping, [_bli_array_iter_span] returns the first span at
    or after the position the previous call left off: a maximal run of
    elements passing the test, with its first index, last index and length;
    it returns false when no span begins there any more.  When the bounds do
    not delimit, a run touching the first element is never begun and a run
    reaching the last element is not reported (the call returns false); with a
    single element the first such call trips the assertion. *)
Theorem array_iter_span_no_wrap (test_fn : Z -> bool) (arr_len arr_stride : Z)
    (use_delimit_bounds : bool) (span_step : Z * Z) :
  0 < arr_stride -> 1 <= arr_len -> arr_len + 1 < uint_modulus ->
  arr_len * arr_stride < uint_modulus ->
  span_step = (arr_len, arr_len) \/ 0 <= snd span_step < arr_len ->
  if (arr_len =? 1) && negb use_delimit_bounds
     && (fst span_step =? arr_len) && (snd span_step =? arr_len)
  then
    _bli_array_iter_span arr_len arr_stride false use_delimit_bounds test_fn span_step
    = AssertFailed
  else
    exists r : option (Z * Z * Z),
      _bli_array_iter_span arr_len arr_stride false use_delimit_bounds test_fn span_step
      = Finished r /\
      scan_result test_fn arr_len arr_stride use_delimit_bounds
        (scan_from arr_len use_delimit_bounds span_step) r.
Proof.
  intros Hs Hlen Hmax Hfit Hstep.
  unfold _bli_array_iter_span, span_start, scan_from.
  replace (arr_len =? 0) with false by (symmetry; apply Z.eqb_neq; lia).
  cbn [andb negb].
  rewrite (to_uint_small arr_stride) by nia.
  destruct (fst span_step =? arr_len) eqn:Hfst;
    destruct (snd span_step =? arr_len) eqn:Hsnd;
    rewrite ?andb_true_r, ?andb_false_r; cbn [andb].
  1: { destruct use_delimit_bounds; cbn [negb]; rewrite ?andb_true_r, ?andb_false_r.
       - replace (0 <? arr_len) with true by (symmetry; apply Z.ltb_lt; lia).
         unfold item_at. rewrite Z.mul_0_l, (to_uint_small 0) by (unfold uint_modulus; lia).
         change 0 with (0 * arr_stride) at 1.
         apply (span_scan_spec test_fn arr_len arr_stride true Hs Hlen Hfit); [lia | lia |].
         reflexivity.
       - destruct (arr_len =? 1) eqn:Hone; zbool Hone.
         + subst arr_len. reflexivity.
         + replace (1 <? arr_len) with true by (symmetry; apply Z.ltb_lt; lia).
           rewrite (item_at_index arr_len arr_stride Hs Hlen Hfit 1) by lia.
           apply (span_scan_spec test_fn arr_len arr_stride false Hs Hlen Hfit);
             [lia | lia |].
           reflexivity. }
  all: destruct Hstep as [-> | Hprev];
    [cbn [fst snd] in Hfst, Hsnd; rewrite Z.eqb_refl in *; discriminate |].
  all: rewrite (to_uint_small (snd span_step + 2)) by lia.
  all: rewrite (to_uint_small (snd span_step + 1)) by lia.
  all: destruct (snd span_step + 2 <? arr_len) eqn:Hroom; zbool Hroom;
    [| exists None; split; [reflexivity |]; left; intros i Hrange; lia].
  all: rewrite !(item_at_index arr_len arr_stride Hs Hlen Hfit) by lia.
  all: replace (snd span_step + 2 <? arr_len) with true by (symmetry; apply Z.ltb_lt; lia).
  all: apply (span_scan_spec test_fn arr_len arr_stride use_delimit_bounds Hs Hlen Hfit);
    [lia | lia |].
  all: replace (snd span_step + 2 - 1) with (snd span_step + 1) by lia.
  all: symmetry; apply element_test_index; lia.
Qed.

Definition sample_flags : Z -> bool := test_indices 4 [1; 2; 3; 6; 7].

Lemma array_iter_span_no_wrap_witness :
  exists r : option (Z * Z * Z),
    _bli_array_iter_span 8 4 false true sample_flags (1, 3) = Finished r /\
    scan_result sample_flags 8 4 true (scan_from 8 true (1, 3)) r.
Proof.
  apply (array_iter_span_no_wrap sample_flags 8 4 true (1, 3)).
  - lia.
  - lia.
  - unfold uint_modulus. change (2 ^ 32) with 4294967296. lia.
  - unfold uint_modulus. change (2 ^ 32) with 4294967296. lia.
  - right. cbn [snd]. lia.
Defined.

(** *** Scanning with wrapping *)

Lemma succ_mod (v len : Z) :
  0 < len ->
  (v + 1) mod len = if v mod len + 1 =? len then 0 else v mod len + 1.
Proof.
  intros Hlen. pose proof (Z.mod_pos_bound v len Hlen) as Hr.
  pose proof (Z.div_mod v len ltac:(lia)) as Hdec.
  destruct (v mod len + 1 =? len) eqn:Hwrap; zbool Hwrap; symmetry.
  - apply (Z.mod_unique_pos _ _ (v / len + 1)); lia.
  - apply (Z.mod_unique_pos _ _ (v / len)); lia.
Qed.

Lemma mod_shift (v len : Z) : 0 < len -> (v + len) mod len = v mod len.
Proof.
  intros Hlen. replace (v + len) with (v + 1 * len) by lia.
  apply Z.mod_add. lia.
Qed.

Section Wrap.

Variable test_fn : Z -> bool.
Variables arr_len arr_stride : Z.
Variable use_delimit_bounds : bool.
Hypothesis stride_pos : 0 < arr_stride.
Hypothesis len_pos : 1 <= arr_len.
Hypothesis offsets_fit : arr_len * arr_stride < uint_modulus.

(** The test of the element at [index], indices taken around the array. *)
Definition cyclic_test (index : Z) : bool :=
  test_fn ((index mod arr_len) * arr_stride).

(** A span starts at [index]: its element passes the test and the one
    before it, around the array, does not. *)
Definition cyclic_span_begins (index : Z) : Prop :=
  cyclic_test (index - 1) = false /\ cyclic_test index = true.

Lemma cyclic_test_item (v : Z) :
  test_fn (item_at arr_stride (v mod arr_len)) = cyclic_test v.
Proof.
  unfold cyclic_test, item_at.
  pose proof (Z.mod_pos_bound v arr_len ltac:(lia)) as Hr.
  rewrite to_uint_small by nia. reflexivity.
Qed.

Section Extend.

Variable first : Z.
Hypothesis first_range : 0 <= first < arr_len.
Hypothesis before_fails : cyclic_test (first - 1) = false.

Lemma span_extend_wrap_spec (fuel : nat) :
  forall u : Z,
    first <= u <= first + arr_len - 2 ->
    first + arr_len - 2 - u <= Z.of_nat fuel ->
    (forall v : Z, first <= v <= u -> cyclic_test v = true) ->
    exists u_last : Z,
      span_extend_wrap test_fn arr_len arr_stride fuel
        ((u + 1) mod arr_len) (u mod arr_len) = Finished (u_last mod arr_len) /\
      u <= u_last <= first + arr_len - 2 /\
      (forall v : Z, first <= v <= u_last -> cyclic_test v = true) /\
      cyclic_test (u_last + 1) = false.
Proof.
  assert (cyclic_test (first + arr_len - 1) = false) as Hstop.
  { unfold cyclic_test in *. replace (first + arr_len - 1) with (first - 1 + arr_len) by lia.
    rewrite mod_shift by lia. exact before_fails. }
  assert (forall (f : nat) (u : Z),
             cyclic_test (u + 1) = false ->
             span_extend_wrap test_fn arr_len arr_stride f
               ((u + 1) mod arr_len) (u mod arr_len) = Finished (u mod arr_len)) as Hhalt.
  { intros f u Hfalse. destruct f; cbn [span_extend_wrap];
      rewrite cyclic_test_item, Hfalse; reflexivity. }
  induction fuel as [| fuel IH]; intros u Hu Hfuel Hall.
  - assert (u = first + arr_len - 2) as -> by lia.
    exists (first + arr_len - 2). split; [| split; [lia | split; [exact Hall |]]].
    + apply Hhalt. replace (first + arr_len - 2 + 1) with (first + arr_len - 1) by lia.
      exact Hstop.
    + replace (first + arr_len - 2 + 1) with (first + arr_len - 1) by lia. exact Hstop.
  - destruct (cyclic_test (u + 1)) eqn:Hnext.
    + cbn [span_extend_wrap]. rewrite cyclic_test_item, Hnext.
      assert (u + 1 <> first + arr_len - 1) as Hne by congruence.
      pose proof (Z.mod_pos_bound (u + 1) arr_len ltac:(lia)) as Hr.
      rewrite (to_uint_small ((u + 1) mod arr_len + 1)) by nia.
      rewrite <- (succ_mod (u + 1) arr_len) by lia.
      destruct (IH (u + 1)) as (u_last & Hrun & Hrange & Htrue & Hfalse); [lia | lia | |].
      { intros v Hv. destruct (Z.eq_dec v (u + 1)) as [-> | Hv'];
          [exact Hnext | apply Hall; lia]. }
      exists u_last. split; [exact Hrun |]. split; [lia |]. split; assumption.
    + exists u. split; [apply Hhalt; exact Hnext |].
      split; [lia |]. split; [exact Hall | exact Hnext].
Qed.

End Extend.

(** What a wrapping scan from [start] may come to. *)
Definition cyclic_scan_result (start : Z) (r : option (Z * Z * Z)) : Prop :=
  match r with
  | Some (first, last, span_len) =>
      start <= first < arr_len /\
      1 <= span_len < arr_len /\
      last = (first + span_len - 1) mod arr_len /\
      (forall d : Z, 0 <= d < span_len -> cyclic_test (first + d) = true) /\
      cyclic_test (first - 1) = false /\
      cyclic_test (first + span_len) = false /\
      (forall i : Z, start <= i < first -> ~ cyclic_span_begins i)
  | None => forall i : Z, start <= i < arr_len -> ~ cyclic_span_begins i
  end.

Lemma span_scan_wrap_spec (fuel : nat) :
  forall (i_curr : Z) (test_prev : bool),
    0 <= i_curr <= arr_len ->
    arr_len - i_curr <= Z.of_nat fuel ->
    test_prev = cyclic_test (i_curr - 1) ->
    exists r : option (Z * Z * Z),
      span_scan test_fn arr_len arr_stride true use_delimit_bounds fuel
        i_curr (i_curr * arr_stride) test_prev = Finished r /\
      cyclic_scan_result i_curr r.
Proof.
  induction fuel as [| fuel IH]; intros i_curr test_prev Hi Hfuel Hprev.
  - assert (i_curr = arr_len) as -> by lia.
    exists None. cbn [span_scan]. rewrite Z.ltb_irrefl. split; [reflexivity |].
    intros i Hrange. lia.
  - cbn [span_scan].
    destruct (i_curr <? arr_len) eqn:Hlt; zbool Hlt.
    2: { exists None. split; [reflexivity |]. intros i Hrange. lia. }
    assert (i_curr mod arr_len = i_curr) as Hmod by (apply Z.mod_small; lia).
    assert (test_fn (i_curr * arr_stride) = cyclic_test i_curr) as Hcur
      by (unfold cyclic_test; rewrite Hmod; reflexivity).
    rewrite Hcur.
    destruct (negb test_prev && cyclic_test i_curr) eqn:Hhit.
    + apply andb_true_iff in Hhit as [Hnp Htc]. zbool Hnp. subst test_prev.
      rewrite (to_uint_small (i_curr + 1)) by nia.
      assert (2 <= arr_len) as Htwo.
      { destruct (Z.eq_dec arr_len 1) as [Hone | Hmore]; [| lia].
        exfalso. unfold cyclic_test in Hnp, Htc. rewrite Hone in Hnp, Htc.
        rewrite !Z.mod_1_r in Hnp, Htc. congruence. }
      assert ((if i_curr + 1 =? arr_len then 0 else i_curr + 1) = (i_curr + 1) mod arr_len)
        as Hstep by (rewrite succ_mod, Hmod by lia; reflexivity).
      rewrite Hstep.
      destruct (span_extend_wrap_spec i_curr ltac:(lia) Hnp (Z.to_nat arr_len) i_curr)
        as (u_last & Hrun & Hrange & Htrue & Hfalse); [lia | lia | |].
      { intros v Hv. assert (v = i_curr) as -> by lia. exact Htc. }
      rewrite Hmod in Hrun. rewrite Hrun.
      exists (Some (i_curr, u_last mod arr_len, u_last - i_curr + 1)).
      split.
      * f_equal. f_equal. f_equal.
        rewrite (to_uint_small (arr_len - i_curr)) by nia.
        destruct (Z_lt_le_dec u_last arr_len) as [Hin | Hover].
        -- rewrite (Z.mod_small u_last arr_len) by lia.
           replace (u_last <? i_curr) with false by (symmetry; apply Z.ltb_ge; lia).
           rewrite (to_uint_small (u_last - i_curr)) by nia.
           apply to_uint_small. nia.
        -- assert (u_last mod arr_len = u_last - arr_len) as Hwrapped.
           { symmetry. apply (Z.mod_unique_pos _ _ 1); lia. }
           rewrite Hwrapped.
           replace (u_last - arr_len <? i_curr) with true by (symmetry; apply Z.ltb_lt; lia).
           rewrite (to_uint_small (u_last - arr_len + (arr_len - i_curr))) by nia.
           rewrite to_uint_small by nia. lia.
      * unfold cyclic_scan_result. split; [lia |]. split; [lia |].
        split; [f_equal; lia |]. split.
        -- intros d Hd. apply Htrue. lia.
        -- split; [exact Hnp |]. split.
           ++ replace (i_curr + (u_last - i_curr + 1)) with (u_last + 1) by lia. exact Hfalse.
           ++ intros i Hrange'. lia.
    + rewrite (to_uint_small (i_curr + 1)) by nia.
      replace (i_curr * arr_stride + arr_stride) with ((i_curr + 1) * arr_stride) by lia.
      destruct (IH (i_curr + 1) (cyclic_test i_curr)) as [r [Hrun Hr]]; [lia | lia | |].
      { replace (i_curr + 1 - 1) with i_curr by lia. reflexivity. }
      exists r. split; [exact Hrun |].
      assert (~ cyclic_span_begins i_curr) as Hnot.
      { intros [Hb1 Hb2]. rewrite Hprev, Hb1, Hb2 in Hhit. discriminate Hhit. }
      assert (forall hi : Z,
                 (forall i, i_curr + 1 <= i < hi -> ~ cyclic_span_begins i) ->
                 forall i, i_curr <= i < hi -> ~ cyclic_span_begins i) as Hshift.
      { intros hi Hall i Hrange. destruct (Z.eq_dec i i_curr) as [-> | Hne];
          [exact Hnot | apply Hall; lia]. }
      destruct r as [[[first last] span_len] |]; unfold cyclic_scan_result in *.
      * destruct Hr as (H1 & H2 & H3 & H4 & H5 & H6 & H7).
        split; [lia |]. repeat (split; [assumption |]).
        apply Hshift. exact H7.
      * apply Hshift. exact Hr.
Qed.

End Wrap.

(** The index the wrapping scan of a call starts at. *)
Definition cyclic_scan_from (arr_len : Z) (span_step : Z * Z) : Z :=
  if (fst span_step =? arr_len) && (snd span_step =? arr_len)
  then 0
  else snd span_step + 2.

(** X15: for a non-empty array ([1 <= arr_len], [arr_len + 1 < 2^32]) with
    a positive [arr_stride] and byte offsets that fit [uint]
    ([arr_len * arr_stride < 2^32]), and [span_step] either the first-call
    marker [{arr_len, arr_len}] or holding a previous span with both indices
    inside the array:
    with wrapping, [_bli_array_iter_span] treats the array as a ring.
    A call returns the first span beginning at or after the position the
    previous call left off: its first index, its last index (which may lie
    before the first, when the span runs over the end of the array) and its
    length, all its elements passing the test and the elements just before
    and just after it failing; it returns false when no span begins there any
    more, and at once when the previous span ran over the end. *)
Theorem array_iter_span_wrap (test_fn : Z -> bool) (arr_len arr_stride : Z)
    (use_delimit_bounds : bool) (span_step : Z * Z) :
  0 < arr_stride -> 1 <= arr_len -> arr_len + 1 < uint_modulus ->
  arr_len * arr_stride < uint_modulus ->
  span_step = (arr_len, arr_len) \/
  (0 <= fst span_step < arr_len /\ 0 <= snd span_step < arr_len) ->
  if snd span_step <? fst span_step
  then
    _bli_array_iter_span arr_len arr_stride true use_delimit_bounds test_fn span_step
    = Finished None
  else
    exists r : option (Z * Z * Z),
      _bli_array_iter_span arr_len arr_stride true use_delimit_bounds test_fn span_step
      = Finished r /\
      cyclic_scan_result test_fn arr_len arr_stride
        (cyclic_scan_from arr_len span_step) r.
Proof.
  intros Hs Hlen Hmax Hfit Hstep.
  unfold _bli_array_iter_span, span_start, cyclic_scan_from.
  replace (arr_len =? 0) with false by (symmetry; apply Z.eqb_neq; lia).
  cbn [andb negb].
  rewrite (to_uint_small arr_stride) by nia.
  destruct Hstep as [-> | [Hfst Hsnd]].
  - cbn [fst snd]. rewrite Z.ltb_irrefl, Z.eqb_refl. cbn [negb andb].
    replace (0 <? arr_len) with true by (symmetry; apply Z.ltb_lt; lia).
    rewrite (to_uint_small (arr_len - 1)) by lia.
    unfold item_at at 1. rewrite Z.mul_0_l, (to_uint_small 0) by (unfold uint_modulus; lia).
    change 0 with (0 * arr_stride) at 1.
    apply (span_scan_wrap_spec test_fn arr_len arr_stride use_delimit_bounds Hs Hlen Hfit);
      [lia | lia |].
    unfold cyclic_test, item_at. rewrite to_uint_small by nia.
    replace ((0 - 1) mod arr_len) with (arr_len - 1); [reflexivity |].
    apply (Z.mod_unique_pos _ _ (-1)); lia.
  - replace (fst span_step =? arr_len) with false by (symmetry; apply Z.eqb_neq; lia).
    cbn [negb andb].
    destruct (snd span_step <? fst span_step) eqn:Hwrapped; [reflexivity |].
    rewrite (to_uint_small (snd span_step + 2)) by lia.
    rewrite (to_uint_small (snd span_step + 1)) by lia.
    destruct (snd span_step + 2 <? arr_len) eqn:Hroom; zbool Hroom.
    + replace (snd span_step + 2 <? arr_len) with true by (symmetry; apply Z.ltb_lt; lia).
      rewrite (item_at_index arr_len arr_stride Hs Hlen Hfit (snd span_step + 2)) by lia.
      apply (span_scan_wrap_spec test_fn arr_len arr_stride use_delimit_bounds Hs Hlen Hfit);
        [lia | lia |].
      replace (snd span_step + 2 - 1) with (snd span_step + 1) by lia.
      unfold cyclic_test, item_at. rewrite to_uint_small by nia.
      rewrite (Z.mod_small (snd span_step + 1)) by lia. reflexivity.
    + exists None. split; [reflexivity |]. intros i Hrange. lia.
Qed.

Definition ring_flags : Z -> bool := test_indices 4 [0; 1; 4; 6; 7].

Lemma array_iter_span_wrap_witness :
  exists r : option (Z * Z * Z),
    _bli_array_iter_span 8 4 true true ring_flags (4, 4) = Finished r /\
    cyclic_scan_result ring_flags 8 4 (cyclic_scan_from 8 (4, 4)) r.
Proof.
  apply (array_iter_span_wrap ring_flags 8 4 true (4, 4)).
  - lia.
  - lia.
  - unfold uint_modulus. change (2 ^ 32) with 4294967296. lia.
  - unfold uint_modulus. change (2 ^ 32) with 4294967296. lia.
  - right. cbn [fst snd]. lia.
Defined.

End ArraySpan.

(** ** Generic array manipulation API: how the searches relate *)

Module ArraySearch.
Import ArrayUtils.
Import ArrayOps.
#[local] Open Scope Z_scope.

(** X16: the forward and the backward search agree on whether the probe
    occurs: either both return -1, or both return an index of an element
    equal to the probe, the forward one not after the backward one; they
    return the same index exactly when no other element is equal to the
    probe. *)
Theorem array_findindex_le_rfindindex (arr : block) (arr_len arr_stride : Z) (p : block) :
  0 <= arr_len <= 2 ^ 31 -> 0 <= arr_stride ->
  arr_len * arr_stride < size_t_modulus ->
  exists f r : Z,
    _bli_array_findindex arr arr_len arr_stride p = Some f /\
    _bli_array_rfindindex arr arr_len arr_stride p = Some r /\
    ((f = -1 /\ r = -1) \/
     (0 <= f <= r /\ r < arr_len /\
      element_equal arr arr_stride p f /\ element_equal arr arr_stride p r /\
      (f = r <->
       forall j : Z, 0 <= j < arr_len -> element_equal arr arr_stride p j -> j = f))).
Proof.
  intros Hlen Hs Hfit.
  assert (0 <= arr_len < uint_modulus) as Hlen'.
  { unfold uint_modulus. change (2 ^ 31) with 2147483648 in Hlen.
    change (2 ^ 32) with 4294967296. lia. }
  destruct (findindex_first_match arr arr_len arr_stride p Hlen' Hs) as [f [Hf Hfirst]].
  destruct (rfindindex_last_match arr arr_len arr_stride p Hlen' Hs Hfit) as [r [Hr Hlast]].
  exists f, r. split; [exact Hf |]. split; [exact Hr |].
  destruct Hfirst as [[-> Hnone] | (kf & Hkf & -> & Hef & Hmin)];
    destruct Hlast as [[-> Hnone'] | (kr & Hkr & -> & Her & Hmax)].
  - left. split; reflexivity.
  - exfalso. apply (Hnone kr Hkr Her).
  - exfalso. apply (Hnone' kf Hkf Hef).
  - right. rewrite !to_int_small by lia.
    assert (kf <= kr) as Hle.
    { destruct (Z_le_gt_dec kf kr) as [Hok | Hgt]; [exact Hok |].
      exfalso. apply (Hmin kr); [lia | exact Her]. }
    split; [lia |]. split; [lia |]. split; [exact Hef |]. split; [exact Her |].
    split.
    + intros Heq j Hj Hej.
      destruct (Z_lt_le_dec j kf) as [Hbefore | Hnot]; [exfalso; apply (Hmin j); [lia | exact Hej] |].
      destruct (Z_lt_le_dec kr j) as [Hafter | Hnot']; [exfalso; apply (Hmax j); [lia | exact Hej] |].
      lia.
    + intros Hunique. symmetry. apply Hunique; [lia | exact Her].
Qed.

Lemma array_findindex_le_rfindindex_witness :
  exists f r : Z,
    _bli_array_findindex sample_pairs 3 2 sample_probe = Some f /\
    _bli_array_rfindindex sample_pairs 3 2 sample_probe = Some r /\
    ((f = -1 /\ r = -1) \/
     (0 <= f <= r /\ r < 3 /\
      element_equal sample_pairs 2 sample_probe f /\
      element_equal sample_pairs 2 sample_probe r /\
      (f = r <->
       forall j : Z, 0 <= j < 3 -> element_equal sample_pairs 2 sample_probe j -> j = f))).
Proof.
  apply (array_findindex_le_rfindindex sample_pairs 3 2 sample_probe).
  - change (2 ^ 31) with 2147483648. lia.
  - lia.
  - unfold size_t_modulus. change (2 ^ 64) with 18446744073709551616. lia.
Defined.

(** X17: for at most 2^31 elements ([arr_len <= 2^31], every index fits
    [int]), a positive [arr_stride] and byte offsets that fit [uint]
    ([arr_len * arr_stride < 2^32]):
    searching a reversed array forwards is searching the original
    backwards: after [_bli_array_reverse], [_bli_array_findindex] returns -1
    when [_bli_array_rfindindex] did on the original, and otherwise the
    mirrored index [arr_len - 1 - r]. *)
Theorem array_findindex_reversed (arr : block) (arr_len arr_stride : Z) (p : block) :
  0 < arr_stride -> 0 <= arr_len <= 2 ^ 31 -> arr_len * arr_stride < uint_modulus ->
  exists (reversed : block) (r f : Z),
    _bli_array_reverse arr arr_len arr_stride = Some reversed /\
    _bli_array_rfindindex arr arr_len arr_stride p = Some r /\
    _bli_array_findindex reversed arr_len arr_stride p = Some f /\
    f = (if r =? -1 then -1 else arr_len - 1 - r).
Proof.
  intros Hs Hlen Hfit.
  assert (uint_modulus < size_t_modulus) as Hmod by reflexivity.
  assert (0 <= arr_len < uint_modulus) as Hlen'.
  { unfold uint_modulus. change (2 ^ 31) with 2147483648 in Hlen.
    change (2 ^ 32) with 4294967296. lia. }
  destruct (reverse_elements arr arr_len arr_stride Hlen' Hs) as [reversed [Hrev Hel]];
    [right; nia |].
  assert (forall j : Z,
             0 <= j < arr_len ->
             element_equal reversed arr_stride p j <->
             element_equal arr arr_stride p (arr_len - 1 - j)) as Hmirror.
  { intros j Hj. unfold element_equal.
    split; intros H k Hk; specialize (H k Hk); rewrite (Hel j k Hk) in *;
      replace ((0 <=? j) && (j <? arr_len)) with true in *
        by (symmetry; apply andb_true_iff; split; [apply Z.leb_le | apply Z.ltb_lt]; lia);
      exact H. }
  destruct (rfindindex_last_match arr arr_len arr_stride p Hlen' ltac:(lia) ltac:(lia))
    as [r [Hr Hlast]].
  destruct (findindex_first_match reversed arr_len arr_stride p Hlen' ltac:(lia))
    as [f [Hf Hfirst]].
  exists reversed, r, f. split; [exact Hrev |]. split; [exact Hr |]. split; [exact Hf |].
  destruct Hfirst as [[-> Hnone] | (kf & Hkf & -> & Hef & Hmin)];
    destruct Hlast as [[-> Hnone'] | (kr & Hkr & -> & Her & Hmax)].
  - reflexivity.
  - exfalso. apply (Hnone (arr_len - 1 - kr)); [lia |].
    apply Hmirror; [lia |]. replace (arr_len - 1 - (arr_len - 1 - kr)) with kr by lia.
    exact Her.
  - exfalso. apply (Hnone' (arr_len - 1 - kf)); [lia |]. apply Hmirror; [lia | exact Hef].
  - rewrite !to_int_small by lia.
    replace (kr =? -1) with false by (symmetry; apply Z.eqb_neq; lia).
    apply Hmirror in Hef; [| lia].
    destruct (Z.lt_trichotomy kf (arr_len - 1 - kr)) as [Hlt | [Heq | Hgt]]; [| exact Heq |].
    + exfalso. apply (Hmax (arr_len - 1 - kf)); [lia | exact Hef].
    + exfalso. apply (Hmin (arr_len - 1 - kr)); [lia |].
      apply Hmirror; [lia |]. replace (arr_len - 1 - (arr_len - 1 - kr)) with kr by lia.
      exact Her.
Qed.

Lemma array_findindex_reversed_witness :
  exists (reversed : block) (r f : Z),
    _bli_array_reverse sample_pairs 3 2 = Some reversed /\
    _bli_array_rfindindex sample_pairs 3 2 sample_probe = Some r /\
    _bli_array_findindex reversed 3 2 sample_probe = Some f /\
    f = (if r =? -1 then -1 else 3 - 1 - r).
Proof.
  apply (array_findindex_reversed sample_pairs 3 2 sample_probe).
  - lia.
  - change (2 ^ 31) with 2147483648. lia.
  - unfold uint_modulus. change (2 ^ 32) with 4294967296. lia.
Defined.

End ArraySearch.

(** ** Outliner: which bits a library warning depends on *)

Module OutlinerFlags.
Import Outliner.
#[local] Open Scope Z_scope.

(** X18: [get_warning] looks at nothing but the two flag bits: setting any
    other bits in the runtime tag or in the ID tag, or changing the file path
    of the library, leaves the warning unchanged. *)
Theorem get_warning_other_bits
    (LIBRARY_TAG_RESYNC_REQUIRED ID_TAG_MISSING : Z) (RPT_ : string -> string)
    (te : TreeElementIDLibrary) (runtime_bits id_bits : Z) (filepath : string) :
  Z.land runtime_bits LIBRARY_TAG_RESYNC_REQUIRED = 0 ->
  Z.land id_bits ID_TAG_MISSING = 0 ->
  get_warning LIBRARY_TAG_RESYNC_REQUIRED ID_TAG_MISSING RPT_
    (mkTreeElementIDLibrary
       (mkLibrary
          (mkID (Z.lor (id_tag (library_id (id_ te))) id_bits))
          (mkLibraryRuntime (Z.lor (runtime_tag (library_runtime (id_ te))) runtime_bits))
          filepath))
  = get_warning LIBRARY_TAG_RESYNC_REQUIRED ID_TAG_MISSING RPT_ te.
Proof.
  intros Hruntime Hid. unfold get_warning, flag_test. cbn [id_ library_id library_runtime id_tag runtime_tag].
  rewrite !Z.land_lor_distr_l, Hruntime, Hid, !Z.lor_0_r. reflexivity.
Qed.

Lemma get_warning_other_bits_witness :
  get_warning 1 64 (fun msgid => msgid)
    (mkTreeElementIDLibrary
       (mkLibrary (mkID (Z.lor 64 6)) (mkLibraryRuntime (Z.lor 1 12)) "//other.blend"))
  = get_warning 1 64 (fun msgid => msgid) stale_missing_library.
Proof.
  apply (get_warning_other_bits 1 64 (fun msgid => msgid) stale_missing_library
           12 6 "//other.blend"); reflexivity.
Defined.

End OutlinerFlags.

(** ** Freestyle: ownership in [WingedEdgeBuilder] *)

Module WingedEdgeBuilder.

(** An address of an allocation; a pointer is an address or null. *)
Abbreviation address := positive (only parsing).
Abbreviation pointer := (option positive) (only parsing).

(** The allocations that are alive. *)
Abbreviation heap := (gset positive) (only parsing).

(** The data members of [class WingedEdgeBuilder]. *)
Record WingedEdgeBuilder : Set := mkWingedEdgeBuilder {
  _pRenderMonitor : pointer;
  _current_wshape : pointer;
  _current_frs_material : pointer;
  _winged_edge : pointer;
  _current_matrix : pointer;
  _matrices_stack : list pointer
}.

(** [new T]: an address that is not alive becomes alive. *)
Definition new (h : heap) : positive * heap :=
  let p := fresh h in (p, {[p]} ∪ h).

(** [delete p]: nothing for null; the allocation dies; deleting what is not
    alive is undefined ([None]). *)
Definition delete (h : heap) (p : pointer) : option heap :=
  match p with
  | None => Some h
  | Some a => if decide (a ∈ h) then Some (h ∖ {[a]}) else None
  end.

(** [inline WingedEdgeBuilder() : SceneVisitor()]. *)
Definition constructor (h : heap) : WingedEdgeBuilder * heap :=
  let '(winged_edge, h) := new h in
  (mkWingedEdgeBuilder None None None (Some winged_edge) None [], h).

(** The [for] loop of the destructor over [_matrices_stack]. *)
Fixpoint delete_all (h : heap) (stack : list pointer) : option heap :=
  match stack with
  | [] => Some h
  | p :: rest =>
      match delete h p with
      | Some h' => delete_all h' rest
      | None => None
      end
  end.

(** [virtual ~WingedEdgeBuilder()]: every matrix on the stack is deleted and
    the stack is cleared; [_winged_edge] is not deleted. *)
Definition destructor (b : WingedEdgeBuilder) (h : heap) : option (WingedEdgeBuilder * heap) :=
  match delete_all h (_matrices_stack b) with
  | Some h' =>
      Some (mkWingedEdgeBuilder (_pRenderMonitor b) (_current_wshape b)
              (_current_frs_material b) (_winged_edge b) (_current_matrix b) [],
            h')
  | None => None
  end.

Definition getWingedEdge (b : WingedEdgeBuilder) : pointer := _winged_edge b.
Definition getCurrentWShape (b : WingedEdgeBuilder) : pointer := _current_wshape b.
Definition getCurrentFrsMaterial (b : WingedEdgeBuilder) : pointer := _current_frs_material b.
Definition getCurrentMatrix (b : WingedEdgeBuilder) : pointer := _current_matrix b.

Definition setCurrentWShape (b : WingedEdgeBuilder) (wshape : pointer) : WingedEdgeBuilder :=
  mkWingedEdgeBuilder (_pRenderMonitor b) wshape (_current_frs_material b)
    (_winged_edge b) (_current_matrix b) (_matrices_stack b).

Definition setCurrentFrsMaterial (b : WingedEdgeBuilder) (mat : pointer) : WingedEdgeBuilder :=
  mkWingedEdgeBuilder (_pRenderMonitor b) (_current_wshape b) mat
    (_winged_edge b) (_current_matrix b) (_matrices_stack b).

Definition setRenderMonitor (b : WingedEdgeBuilder) (iRenderMonitor : pointer)
  : WingedEdgeBuilder :=
  mkWingedEdgeBuilder iRenderMonitor (_current_wshape b) (_current_frs_material b)
    (_winged_edge b) (_current_matrix b) (_matrices_stack b).

(** The addresses on a stack of pointers, nulls left out. *)
Fixpoint addresses (stack : list pointer) : list positive :=
  match stack with
  | [] => []
  | Some a :: rest => a :: addresses rest
  | None :: rest => addresses rest
  end.

Lemma delete_all_distinct (stack : list pointer) :
  forall h : heap,
    NoDup (addresses stack) ->
    (forall a : positive, a ∈ addresses stack -> a ∈ h) ->
    exists h' : heap,
      delete_all h stack = Some h' /\
      forall a : positive, a ∈ h' <-> a ∈ h /\ a ∉ addresses stack.
Proof.
  induction stack as [| p rest IH]; intros h Hdistinct Hlive.
  - exists h. split; [reflexivity |]. intros a. cbn. rewrite elem_of_nil. tauto.
  - destruct p as [a0 |]; cbn [delete_all delete addresses] in *.
    + apply NoDup_cons in Hdistinct as [Hfresh Hrest].
      destruct (decide (a0 ∈ h)) as [_ | Hdead]; [| exfalso; apply Hdead, Hlive; set_solver].
      destruct (IH (h ∖ {[a0]}) Hrest) as [h' [Hrun Hh']].
      { intros a Ha. apply elem_of_difference. split; [apply Hlive; set_solver |].
        intros Heq. apply elem_of_singleton in Heq. subst a0. apply Hfresh. exact Ha. }
      exists h'. split; [exact Hrun |]. intros a. rewrite Hh'.
      rewrite elem_of_difference, elem_of_singleton, elem_of_cons. tauto.
    + destruct (IH h Hdistinct Hlive) as [h' [Hrun Hh']].
      exists h'. split; [exact Hrun | exact Hh'].
Qed.


Definition busy_builder : WingedEdgeBuilder :=
  mkWingedEdgeBuilder None None None (Some 1%positive) (Some 3%positive)
    [Some 2%positive; None; Some 3%positive].


End WingedEdgeBuilder.
